(** * Functions of stdfn.c of Rufus (src/stdfn.c)

    A shallow embedding of the string hash table ([isprime], [htab_create],
    [htab_destroy], [htab_hash]), of the string arrays ([StrArrayCreate],
    [StrArrayAdd], [StrArrayFind], [StrArrayClear], [StrArrayDestroy]), of
    [GetExecutableVersion] and of [SetThreadAffinity], and the properties
    that follow from the code.

    Conventions of the embedding:
    - a [uint32_t] is a [Z] in [0, 2^32), every arithmetic result is
      reduced with [wrap32];
    - a C pointer is a value of [ptr]: [NULL] or [Ptr] of what it points to;
    - a function whose C behaviour can be undefined (an access outside an
      array, a division by zero) or that could loop returns an [option]:
      [None] stands for "no defined result";
    - the outcome of an allocation or of a Windows call is an argument of
      the function that makes it ([true]: the allocation succeeded). *)

From Stdlib Require Import ZArith Znumtheory Lia String Ascii.
From stdpp Require Import base option list.

Local Open Scope string_scope.
Local Open Scope Z_scope.

(** [lia] and [nia] reason about [/] and [mod] by a constant. *)
Ltac Zify.zify_post_hook ::= Z.to_euclidean_division_equations.

(** ** Machine integers and pointers *)

Definition wrap32 (x : Z) : Z := x mod 2 ^ 32.

Definition is_uint32 (x : Z) : Prop := 0 <= x < 2 ^ 32.

Inductive ptr (A : Type) : Type :=
| NULL : ptr A
| Ptr : A -> ptr A.

Arguments NULL {A}.
Arguments Ptr {A} _.

Definition is_null {A : Type} (p : ptr A) : bool :=
  match p with NULL => true | Ptr _ => false end.

(** ** Loops

    One iteration of a loop is a function [step : St -> option (St + R)]:
    [inl s] carries on with state [s], [inr r] leaves the loop with [r], and
    [None] is an undefined operation inside the body.  [loop_pos] runs at
    most [p] iterations and stops at the first [inr]; the fuel is binary, so
    that a bound of [2^32] iterations costs nothing when the loop is short. *)

Section Loops.
Context {St R : Type} (step : St -> option (St + R)).

Definition continue (k : St -> option (St + R)) (r : St + R) : option (St + R) :=
  match r with
  | inl s => k s
  | inr _ => Some r
  end.

Fixpoint loop_nat (n : nat) (s : St) : option (St + R) :=
  match n with
  | O => Some (inl s)
  | S n' => step s ≫= continue (loop_nat n')
  end.

Fixpoint loop_pos (p : positive) (s : St) : option (St + R) :=
  match p with
  | xH => step s
  | xO p' => loop_pos p' s ≫= continue (loop_pos p')
  | xI p' => step s ≫= continue (fun s1 => loop_pos p' s1 ≫= continue (loop_pos p'))
  end.

(** No loop of this file runs [2^32] iterations or more. *)
Definition loop_fuel : positive := (2 ^ 32)%positive.

Definition run_loop (s : St) : option R :=
  match loop_pos loop_fuel s with
  | Some (inr r) => Some r
  | _ => None
  end.
End Loops.

(** [while (cond) body;] over a state [St]. *)
Definition while_step {St : Type} (cond : St -> option bool) (body : St -> St)
    (s : St) : option (St + St) :=
  b ← cond s; Some (if b : bool then inl (body s) else inr s).

Definition while {St : Type} (cond : St -> option bool) (body : St -> St)
    (s : St) : option St :=
  run_loop (while_step cond body) s.

(** ** isprime (stdfn.c, lines 63-72)

<<
  uint32_t divider = 3;
  while((divider * divider < number) && (number % divider != 0))
      divider += 2;
  return (number % divider != 0);
>>
    [divider] starts odd and moves by 2, so it is never 0. *)

Definition isprime (number : Z) : option bool :=
  divider ← while
    (fun divider =>
       Some ((wrap32 (divider * divider) <? number) && negb (number mod divider =? 0)))
    (fun divider => wrap32 (divider + 2))
    3;
  Some (negb (number mod divider =? 0)).

(** ** The declarations of rufus.h *)

(** Modelled from the spec: the struct [htab_entry] of rufus.h, which is
    not among the sources.  A slot has a tag, [used], which is 0 for a slot
    that is not in use, and the key it owns, [str]; these are the fields
    the functions of stdfn.c touch. *)
Record htab_entry : Type := mk_entry {
  used : Z;
  str : ptr string
}.

(** Modelled from the spec: the struct [htab_table] of rufus.h, which is
    not among the sources: the slot array and the two scalars [size] (the
    capacity) and [filled]. *)
Record htab_table : Type := mk_table {
  table : ptr (list htab_entry);
  size : Z;
  filled : Z
}.

(** What [calloc] hands out: every byte zero. *)
Definition zero_entry : htab_entry := {| used := 0; str := NULL |}.

(** Modelled from the spec: the initializer [HTAB_EMPTY] of rufus.h, which
    is not among the sources: the default-initialized table that was never
    created, with no slot array and both scalars 0. *)
Definition HTAB_EMPTY : htab_table := {| table := NULL; size := 0; filled := 0 |}.

(** Modelled from the spec: the macro [if_not_assert] of rufus.h, which is
    not among the sources.  The spec has the guarded block report the
    failure to the caller and never end the program: the block runs when
    the condition is false, the assertion in front of it being compiled out
    of a release build. *)
Definition if_not_assert (cond : bool) : bool := negb cond.

(** Modelled from the spec: the macro [safe_free] of rufus.h, which is not
    among the sources.  The spec has it release the storage; the pointer is
    left [NULL], as the macro of upstream Rufus does. *)
Definition safe_free {A : Type} (p : ptr A) : ptr A := NULL.

(** ** htab_create (stdfn.c, lines 80-106) *)

Definition htab_create (nel : Z) (htab : ptr htab_table) (calloc_ok : bool)
    : option (bool * ptr htab_table) :=
  match htab with
  | NULL => Some (false, NULL)
  | Ptr h =>
    (* if_not_assert(htab->table == NULL) { ... return FALSE; } *)
    if if_not_assert (is_null (table h)) then Some (false, htab)
    else
      (* nel |= 1; while(!isprime(nel)) nel += 2; *)
      let nel := Z.lor nel 1 in
      nel ← while (fun nel => negb <$> isprime nel) (fun nel => wrap32 (nel + 2)) nel;
      (* htab->size = nel; htab->filled = 0; *)
      let h := {| table := table h; size := nel; filled := 0 |} in
      (* htab->table = calloc(htab->size + 1, sizeof(htab_entry)); *)
      if calloc_ok then
        let tbl := replicate (Z.to_nat (wrap32 (size h + 1))) zero_entry in
        Some (true, Ptr {| table := Ptr tbl; size := size h; filled := filled h |})
      else
        Some (false, Ptr {| table := NULL; size := size h; filled := filled h |})
  end.

(** ** htab_destroy (stdfn.c, lines 109-125)

    The keys live in the entries, so releasing a key shows as its [str]
    becoming [NULL]; the slot array itself is released at the end. *)

Definition destroy_step (h : htab_table) (st : Z * list htab_entry)
    : option (Z * list htab_entry + list htab_entry) :=
  let '(i, tbl) := st in
  (* i < htab->size + 1 *)
  if i <? wrap32 (size h + 1) then
    e ← tbl !! Z.to_nat i;
    let tbl :=
      if negb (used e =? 0)
      then <[Z.to_nat i := {| used := used e; str := safe_free (str e) |}]> tbl
      else tbl in
    Some (inl (i + 1, tbl))
  else Some (inr tbl).

Definition htab_destroy (htab : ptr htab_table) : option (ptr htab_table) :=
  match htab with
  | NULL => Some NULL
  | Ptr h =>
    match table h with
    | NULL => Some htab
    | Ptr tbl =>
      tbl ← run_loop (destroy_step h) (0, tbl);
      (* htab->filled = 0; htab->size = 0; safe_free(htab->table); *)
      Some (Ptr {| table := safe_free (Ptr tbl); size := 0; filled := 0 |})
    end
  end.

(** ** htab_hash (stdfn.c, lines 137-217) *)

(** [int c = *sz++] reads a [char], which is signed on the platforms Rufus
    is built for: a byte above 127 enters the sum as a negative number. *)
Definition char_value (a : ascii) : Z :=
  let b := Z.of_N (N_of_ascii a) in
  if b <? 128 then b else b - 256.

(** A key is the characters before the terminating NUL; the loop
    [while ((c = *sz++) != 0) r = c + (r << 6) + (r << 16) - r;] ends at the
    end of the string. *)
Fixpoint sdbm (sz : string) (r : Z) : Z :=
  match sz with
  | EmptyString => r
  | String a sz' =>
    sdbm sz' (wrap32 (char_value a + wrap32 (Z.shiftl r 6) + wrap32 (Z.shiftl r 16) - r))
  end.

(** Modelled from the spec: the macro [safe_strcmp] of rufus.h, which is not
    among the sources.  The spec has it as the exact string compare of the
    key with the key a slot stores; a [NULL] argument is compared as the
    text <NULL>, as the macro of upstream Rufus does.  The value is whether
    [safe_strcmp(str1, str2) == 0]. *)
Definition null_text : string := "<NULL>".

Definition deref_text (p : ptr string) : string :=
  match p with NULL => null_text | Ptr s => s end.

Definition safe_strcmp_eq (str1 str2 : ptr string) : bool :=
  String.eqb (deref_text str1) (deref_text str2).

(** [a % b] on [uint32_t]; undefined when [b] is 0. *)
Definition umod (a b : Z) : option Z :=
  if b =? 0 then None else Some (a mod b).

(** [(htab->table[idx].used == hval) && (safe_strcmp(str, htab->table[idx].str) == 0)] *)
Definition entry_matches (hval : Z) (s : string) (e : htab_entry) : bool :=
  (used e =? hval) && safe_strcmp_eq (Ptr s) (str e).

(** The primary hash: the raw sdbm value and its reduction to a slot. *)
Definition raw_hash (s : string) : Z :=
  let r := sdbm s 0 in
  if r =? 0 then wrap32 (r + 1) else r.

Definition primary_hash (s : string) (size : Z) : option Z :=
  hval ← umod (raw_hash s) size;
  Some (if hval =? 0 then wrap32 (hval + 1) else hval).

(** [hval2 = 1 + hval % (htab->size - 2)] *)
Definition secondary_hash (hval size : Z) : option Z :=
  m ← umod hval (wrap32 (size - 2));
  Some (wrap32 (1 + m)).

(** One step of the probe:
    [if (idx <= hval2) idx = size + idx - hval2; else idx -= hval2;] *)
Definition next_idx (size hval2 idx : Z) : Z :=
  if idx <=? hval2 then wrap32 (size + idx - hval2) else wrap32 (idx - hval2).

(** How the search ends: at a slot that holds the key, or at the slot
    where a new entry goes. *)
Inductive search_result : Type :=
| Existing (idx : Z)
| NewEntry (idx : Z).

(** The body of [do { ... } while (htab->table[idx].used);] *)
Definition probe_step (tbl : list htab_entry) (size hval hval2 : Z) (s : string)
    (idx : Z) : option (Z + search_result) :=
  let idx := next_idx size hval2 idx in
  if idx =? hval then Some (inr (NewEntry idx))
  else
    e ← tbl !! Z.to_nat idx;
    if entry_matches hval s e then Some (inr (Existing idx))
    else if negb (used e =? 0) then Some (inl idx)
    else Some (inr (NewEntry idx)).

(** Lines 162-196: try the first index, then probe. *)
Definition htab_search (tbl : list htab_entry) (size hval : Z) (s : string)
    : option search_result :=
  let idx := hval in
  e ← tbl !! Z.to_nat idx;
  if negb (used e =? 0) then
    if entry_matches hval s e then Some (Existing idx)
    else
      hval2 ← secondary_hash hval size;
      run_loop (probe_step tbl size hval hval2 s) idx
  else Some (NewEntry idx).

(** Lines 198-216: the new entry.  The tag is stored before the key is
    duplicated; [filled] grows only when the duplication succeeded.  The
    copy made by [malloc] and [memcpy] over [safe_strlen(str) + 1] bytes is
    the key itself. *)
Definition htab_insert (h : htab_table) (tbl : list htab_entry) (hval idx : Z)
    (s : string) (malloc_ok : bool) : option (Z * ptr htab_table) :=
  (* if_not_assert(htab->filled < htab->size) { ... return 0; } *)
  if if_not_assert (filled h <? size h) then Some (0, Ptr h)
  else
    e ← tbl !! Z.to_nat idx;
    (* safe_free(htab->table[idx].str); htab->table[idx].used = hval; *)
    let e := {| used := hval; str := safe_free (str e) |} in
    (* htab->table[idx].str = malloc(safe_strlen(str) + 1); *)
    let e := {| used := used e; str := if malloc_ok then Ptr s else NULL |} in
    let tbl := <[Z.to_nat idx := e]> tbl in
    if is_null (str e) then
      (* return 0; *)
      Some (0, Ptr {| table := Ptr tbl; size := size h; filled := filled h |})
    else
      (* memcpy(...); ++htab->filled; return idx; *)
      Some (idx, Ptr {| table := Ptr tbl; size := size h; filled := wrap32 (filled h + 1) |}).

Definition htab_hash (str : ptr string) (htab : ptr htab_table) (malloc_ok : bool)
    : option (Z * ptr htab_table) :=
  match htab with
  | NULL => Some (0, htab)
  | Ptr h =>
    match table h with
    | NULL => Some (0, htab)
    | Ptr tbl =>
      match str with
      | NULL => Some (0, htab)
      | Ptr s =>
        hval ← primary_hash s (size h);
        found ← htab_search tbl (size h) hval s;
        match found with
        | Existing idx => Some (idx, htab)
        | NewEntry idx => htab_insert h tbl hval idx s malloc_ok
        end
      end
    end
  end.

(** ** GetExecutableVersion (stdfn.c, lines 501-536)

    The function asks Windows for the version resource of a file and
    unpacks the two version words.  What the four Windows calls and
    [malloc] hand back is an argument of the model ([version_calls]); the
    two [static] variables of the function are the state it is run in. *)

(** The struct [version_t] is declared in rufus.h, which is not among the
    sources; its four fields are the ones lines 528-531 assign.  Each holds
    a value masked with [0xffff]. *)
Record version_t : Type := mk_version {
  Major : Z;
  Minor : Z;
  Micro : Z;
  Nano : Z
}.

(** The fields of the Windows structure [VS_FIXEDFILEINFO] that the
    function reads, each a [DWORD]. *)
Record VS_FIXEDFILEINFO : Type := mk_fileinfo {
  dwSignature : Z;
  dwFileVersionMS : Z;
  dwFileVersionLS : Z
}.

(** [static version_t version, *r = NULL;]: [r] is [NULL] ([false]) or the
    address of [version] ([true]). *)
Module Statics.
Record t : Type := mk {
  version : version_t;
  r : bool
}.
End Statics.

Definition version_zero : version_t := {| Major := 0; Minor := 0; Micro := 0; Nano := 0 |}.

(** The statics when the program starts. *)
Definition statics_init : Statics.t := {| Statics.version := version_zero; Statics.r := false |}.

(** What one invocation gets from outside: the size that
    [GetFileVersionInfoSizeU] returns, whether [malloc] returned a buffer,
    whether [GetFileVersionInfoU] succeeded, and what [VerQueryValueA] gave
    ([None]: the call failed; otherwise the structure and [uLen]). *)
Record version_calls : Type := mk_calls {
  GetFileVersionInfoSizeU : Z;
  buf_allocated : bool;
  GetFileVersionInfoU : bool;
  VerQueryValueA : option (VS_FIXEDFILEINFO * Z)
}.

(** Lines 528-531. *)
Definition read_version (version_info : VS_FIXEDFILEINFO) : version_t :=
  {| Major := Z.land (Z.shiftr (dwFileVersionMS version_info) 16) 0xffff;
     Minor := Z.land (Z.shiftr (dwFileVersionMS version_info) 0) 0xffff;
     Micro := Z.land (Z.shiftr (dwFileVersionLS version_info) 16) 0xffff;
     Nano := Z.land (Z.shiftr (dwFileVersionLS version_info) 0) 0xffff |}.

(** The statics at [out:]. *)
Definition GetExecutableVersion_statics (st : Statics.t) (os : version_calls)
    : Statics.t :=
  (* memset(&version, 0, sizeof(version)); *)
  let out := {| Statics.version := version_zero; Statics.r := Statics.r st |} in
  (* if (dwSize == 0) goto out; *)
  if GetFileVersionInfoSizeU os =? 0 then out
  (* if (buf == NULL) goto out; *)
  else if negb (buf_allocated os) then out
  (* if (!GetFileVersionInfoU(path, dwHandle, dwSize, buf)) goto out; *)
  else if negb (GetFileVersionInfoU os) then out
  else
    match VerQueryValueA os with
    | None => out
    | Some (version_info, uLen) =>
      if uLen =? 0 then out
      (* if (version_info->dwSignature != 0xfeef04bd) goto out; *)
      else if negb (dwSignature version_info =? 0xfeef04bd) then out
      else {| Statics.version := read_version version_info; Statics.r := true |}
    end.

(** [return r;]: the pointer, shown with what it points to when the
    function returns, and the statics the next call starts from. *)
Definition GetExecutableVersion (st : Statics.t) (os : version_calls)
    : ptr version_t * Statics.t :=
  let st := GetExecutableVersion_statics st os in
  (if Statics.r st then Ptr (Statics.version st) else NULL, st).

(** ** String arrays (stdfn.c, lines 541-601) *)

(** [(int32_t)x] for a [uint32_t] [x]. *)
Definition int32 (x : Z) : Z := if x <? 2 ^ 31 then x else x - 2 ^ 32.

(** A cell of the table [char** String]: [None] is a cell that was never
    written (what [realloc] adds to a block), [Some p] a cell that holds the
    pointer [p].  Reading a cell that was never written has no defined
    result. *)
Abbreviation cell := (option (ptr string)).

(** The struct [StrArray] is declared in rufus.h, which is not among the
    sources; its three fields are the ones lines 541-601 use.  [Index] and
    [Max] are taken as [uint32_t], the type of [initial_size] and of the
    counters they are compared with. *)
Module StrArray.
Record t : Type := mk {
  String : ptr (list cell);
  Index : Z;
  Max : Z
}.
End StrArray.

(** Lines 541-548.  The previous table, if any, is not released. *)
Definition StrArrayCreate (arr : ptr StrArray.t) (initial_size : Z) (calloc_ok : bool)
    : ptr StrArray.t :=
  match arr with
  | NULL => NULL
  | Ptr a =>
    (* arr->Max = initial_size; arr->Index = 0; *)
    let a := {| StrArray.String := StrArray.String a; StrArray.Index := 0;
                StrArray.Max := initial_size |} in
    (* arr->String = calloc(arr->Max, sizeof a pointer); *)
    Ptr {| StrArray.String :=
             if calloc_ok then Ptr (replicate (Z.to_nat (StrArray.Max a)) (Some NULL))
             else NULL;
           StrArray.Index := StrArray.Index a; StrArray.Max := StrArray.Max a |}
  end.

(** The macro [safe_strdup] is declared in rufus.h, which is not among the
    sources.  [StrArrayAdd] calls it on a string it has checked against
    [NULL]: the value is a copy of the string, or [NULL] when the copy could
    not be allocated. *)
Definition safe_strdup (str : ptr string) (strdup_ok : bool) : ptr string :=
  match str with
  | NULL => NULL
  | Ptr s => if strdup_ok then Ptr s else NULL
  end.

(** Lines 556-564: the table is doubled when it is full.  [realloc] keeps
    the cells up to the smaller of the two sizes; a [size_t] of 64 bits
    holds [arr->Max * sizeof a pointer].  When the doubled [Max] is 0 (a
    [Max] of 0, or of [2^31]) the call is [realloc(p, 0)]: the C runtime
    releases the block and returns [NULL], and [free(old_table)] at line
    560 releases the same block a second time, which has no defined
    result.  Otherwise the value is the array and its table, [NULL] after
    a failed [realloc], which leaves the old block to [free(old_table)]. *)
Definition StrArrayGrow (a : StrArray.t) (tbl : list cell) (realloc_ok : bool)
    : option (StrArray.t * ptr (list cell)) :=
  if StrArray.Index a =? StrArray.Max a then
    (* arr->Max *= 2; *)
    let a := {| StrArray.String := StrArray.String a; StrArray.Index := StrArray.Index a;
                StrArray.Max := wrap32 (StrArray.Max a * 2) |} in
    (* arr->String = realloc(arr->String, arr->Max * sizeof a pointer); *)
    if StrArray.Max a =? 0 then None
    else
      let p :=
        if realloc_ok then Ptr (resize (Z.to_nat (StrArray.Max a)) None tbl) else NULL in
      Some ({| StrArray.String := p; StrArray.Index := StrArray.Index a;
               StrArray.Max := StrArray.Max a |}, p)
  else Some (a, Ptr tbl).

(** Lines 550-571. *)
Definition StrArrayAdd (arr : ptr StrArray.t) (str : ptr string) (duplicate : bool)
    (realloc_ok strdup_ok : bool) : option (Z * ptr StrArray.t) :=
  match arr, str with
  | Ptr a, Ptr s =>
    match StrArray.String a with
    | NULL => Some (-1, arr)
    | Ptr tbl =>
      match StrArrayGrow a tbl realloc_ok with
      | None => None
      | Some (a, NULL) => Some (-1, Ptr a)
      | Some (a, Ptr tbl) =>
        (* arr->String[arr->Index] = (duplicate)?safe_strdup(str):str; *)
        let p := if duplicate then safe_strdup str strdup_ok else str in
        _ ← tbl !! Z.to_nat (StrArray.Index a);
        let tbl := <[Z.to_nat (StrArray.Index a) := Some p]> tbl in
        if is_null p then
          Some (-1, Ptr {| StrArray.String := Ptr tbl; StrArray.Index := StrArray.Index a;
                           StrArray.Max := StrArray.Max a |})
        else
          (* return arr->Index++; *)
          Some (int32 (StrArray.Index a),
                Ptr {| StrArray.String := Ptr tbl;
                       StrArray.Index := wrap32 (StrArray.Index a + 1);
                       StrArray.Max := StrArray.Max a |})
      end
    end
  | _, _ => Some (-1, arr)
  end.

(** One iteration of [for (i = 0; i<arr->Index; i++)] in [StrArrayFind];
    [strcmp] on a [NULL] pointer has no defined result. *)
Definition find_step (tbl : list cell) (index : Z) (s : string) (i : Z) : option (Z + Z) :=
  if i <? index then
    c ← tbl !! Z.to_nat i;
    p ← c;
    match p with
    | NULL => None
    | Ptr t => if String.eqb t s then Some (inr (int32 i)) else Some (inl (wrap32 (i + 1)))
    end
  else Some (inr (-1)).

(** Lines 573-583. *)
Definition StrArrayFind (arr : ptr StrArray.t) (str : ptr string) : option Z :=
  match arr, str with
  | Ptr a, Ptr s =>
    match StrArray.String a with
    | NULL => Some (-1)
    | Ptr tbl => run_loop (find_step tbl (StrArray.Index a) s) 0
    end
  | _, _ => Some (-1)
  end.

(** One iteration of the loop of [StrArrayClear]:
    [safe_free(arr->String[i])]. *)
Definition clear_step (index : Z) (st : Z * list cell)
    : option (Z * list cell + list cell) :=
  let '(i, tbl) := st in
  if i <? index then
    c ← tbl !! Z.to_nat i;
    p ← c;
    Some (inl (wrap32 (i + 1), <[Z.to_nat i := Some (safe_free p)]> tbl))
  else Some (inr tbl).

(** Lines 585-594. *)
Definition StrArrayClear (arr : ptr StrArray.t) : option (ptr StrArray.t) :=
  match arr with
  | NULL => Some NULL
  | Ptr a =>
    match StrArray.String a with
    | NULL => Some arr
    | Ptr tbl =>
      tbl ← run_loop (clear_step (StrArray.Index a)) (0, tbl);
      Some (Ptr {| StrArray.String := Ptr tbl; StrArray.Index := 0;
                   StrArray.Max := StrArray.Max a |})
    end
  end.


(** ** SetThreadAffinity (stdfn.c, lines 1079-1107)

    [DWORD_PTR] and [size_t] are the 64-bit unsigned integers of a 64-bit
    build.  The array [thread_affinity] is the list of its cells; what
    [GetProcessAffinityMask] hands back is an argument of the model
    ([None]: the call failed). *)

Definition wrap64 (x : Z) : Z := x mod 2 ^ 64.

(** [a / b] on unsigned operands; undefined when [b] is 0. *)
Definition udiv (a b : Z) : option Z :=
  if b =? 0 then None else Some (a / b).

(** [p[i]] and [p[i] = v]: an index outside the array has no defined
    result. *)
Definition load (p : list Z) (i : Z) : option Z :=
  if i <? Z.of_nat (length p) then p !! Z.to_nat i else None.

Definition store (p : list Z) (i v : Z) : option (list Z) :=
  if i <? Z.of_nat (length p) then Some (<[Z.to_nat i := v]> p) else None.

(** [memset(p, 0, n * sizeof(DWORD_PTR))] *)
Definition memset_0 (p : list Z) (n : Z) : option (list Z) :=
  let cells := wrap64 (n * 8) / 8 in
  if cells <=? Z.of_nat (length p)
  then Some (replicate (Z.to_nat cells) 0 ++ drop (Z.to_nat cells) p)%list
  else None.

(** The number of bits set among the lowest [n]. *)
Fixpoint popcount (n : nat) (x : Z) : Z :=
  match n with
  | O => 0
  | S n' => popcount n' x + Z.b2z (Z.testbit x (Z.of_nat n'))
  end.

(** [popcnt64] is declared in a header that is not among the sources; the
    name and its use at line 1091 make it the number of bits set in a
    64-bit word. *)
Definition popcnt64 (x : Z) : Z := popcount 64 x.

(** [affinity & (-1LL * affinity)]: the product is taken in 64 unsigned
    bits. *)
Definition lowest_bit (affinity : Z) : Z := Z.land affinity (wrap64 (-1 * affinity)).

(** One iteration of [for (j = 0; j < pc / num_threads; j++)]. *)
Definition affinity_inner_step (pc num_threads i : Z) (st : Z * list Z * Z)
    : option (Z * list Z * Z + list Z * Z) :=
  let '(j, thread_affinity, affinity) := st in
  q ← udiv pc num_threads;
  if j <? q then
    (* thread_affinity[i] |= affinity & (-1LL * affinity); *)
    t ← load thread_affinity i;
    thread_affinity ← store thread_affinity i (Z.lor t (lowest_bit affinity));
    (* affinity ^= affinity & (-1LL * affinity); *)
    let affinity := Z.lxor affinity (lowest_bit affinity) in
    Some (inl (wrap64 (j + 1), thread_affinity, affinity))
  else Some (inr (thread_affinity, affinity)).

(** One iteration of [for (i = 0; i < num_threads - 1; i++)]. *)
Definition affinity_outer_step (pc num_threads : Z) (st : Z * list Z * Z)
    : option (Z * list Z * Z + list Z) :=
  let '(i, thread_affinity, affinity) := st in
  if i <? wrap64 (num_threads - 1) then
    '(thread_affinity, affinity) ←
      run_loop (affinity_inner_step pc num_threads i) (0, thread_affinity, affinity);
    (* thread_affinity[num_threads - 1] ^= thread_affinity[i]; *)
    ti ← load thread_affinity i;
    tl ← load thread_affinity (wrap64 (num_threads - 1));
    thread_affinity ← store thread_affinity (wrap64 (num_threads - 1)) (Z.lxor tl ti);
    Some (inl (wrap64 (i + 1), thread_affinity, affinity))
  else Some (inr thread_affinity).

Definition SetThreadAffinity (thread_affinity : list Z) (num_threads : Z)
    (GetProcessAffinityMask : option Z) : option (bool * list Z) :=
  thread_affinity ← memset_0 thread_affinity num_threads;
  match GetProcessAffinityMask with
  | None => Some (false, thread_affinity)
  | Some affinity =>
    (* pc = popcnt64(affinity); if (pc < num_threads) return FALSE; *)
    let pc := popcnt64 affinity in
    if pc <? num_threads then Some (false, thread_affinity)
    else
      (* thread_affinity[num_threads - 1] = affinity; *)
      thread_affinity ← store thread_affinity (wrap64 (num_threads - 1)) affinity;
      thread_affinity ←
        run_loop (affinity_outer_step pc num_threads) (0, thread_affinity, affinity);
      Some (true, thread_affinity)
  end.

(** * The vocabulary of the properties *)

(** ** The loops of [isprime] and [htab_create], one iteration at a time *)

Definition isprime_step (number : Z) : Z -> option (Z + Z) :=
  while_step
    (fun divider =>
       Some ((wrap32 (divider * divider) <? number) && negb (number mod divider =? 0)))
    (fun divider => wrap32 (divider + 2)).

Definition create_step : Z -> option (Z + Z) :=
  while_step (fun nel => negb <$> isprime nel) (fun nel => wrap32 (nel + 2)).

(** ** The probe sequence

    [probe_idx size hval hval2 k] is the index the search looks at after
    [k] steps.  The outcome of the loop is decided by the first [K >= 1]
    at which the slot is the start index again, holds the key, or is not
    in use. *)

Definition probe_idx (size hval hval2 : Z) (k : nat) : Z :=
  Nat.iter k (next_idx size hval2) hval.

Definition result_idx (r : search_result) : Z :=
  match r with Existing idx => idx | NewEntry idx => idx end.

(** A slot taken by another key: the search steps over it. *)
Definition passed_over (tbl : list htab_entry) (hval : Z) (s : string) (i : Z) : Prop :=
  exists e, tbl !! Z.to_nat i = Some e /\ used e <> 0 /\ entry_matches hval s e = false.

(** Where the loop leaves at index [i]. *)
Definition stops_at (tbl : list htab_entry) (hval : Z) (s : string)
    (r : search_result) (i : Z) : Prop :=
  match r with
  | Existing idx =>
    idx = i /\ i <> hval /\
    exists e, tbl !! Z.to_nat i = Some e /\ entry_matches hval s e = true
  | NewEntry idx =>
    idx = i /\
    (i = hval \/
     (i <> hval /\
      exists e, tbl !! Z.to_nat i = Some e /\ entry_matches hval s e = false /\ used e = 0))
  end.

(** How a search that returns has gone. *)
Inductive search_trace (tbl : list htab_entry) (c hval : Z) (s : string)
    : search_result -> Prop :=
| trace_fresh (e : htab_entry) :
    tbl !! Z.to_nat hval = Some e -> used e = 0 ->
    search_trace tbl c hval s (NewEntry hval)
| trace_home (e : htab_entry) :
    tbl !! Z.to_nat hval = Some e -> used e <> 0 -> entry_matches hval s e = true ->
    search_trace tbl c hval s (Existing hval)
| trace_probe (hval2 : Z) (K : nat) (res : search_result) :
    passed_over tbl hval s hval ->
    secondary_hash hval c = Some hval2 ->
    (0 < K)%nat -> Z.of_nat K <= 2 ^ 32 ->
    (forall j, (0 < j < K)%nat ->
       probe_idx c hval hval2 j <> hval /\ passed_over tbl hval s (probe_idx c hval hval2 j)) ->
    stops_at tbl hval s res (probe_idx c hval hval2 K) ->
    search_trace tbl c hval s res.

(** The first [size] indices of the probe. *)
Definition probe_indices (c hval hval2 : Z) : list Z :=
  probe_idx c hval hval2 <$> seq 0 (Z.to_nat c).

(** ** Live tables and reachable states

    [live]: the shape of a table between a successful [htab_create] and
    [htab_destroy], a slot array of [size + 1] entries and a size that
    [isprime] accepted.  [reachable]: what a table handle can hold after
    any sequence of calls, starting from [HTAB_EMPTY]; every allocation may
    succeed or fail. *)

Record live (h : htab_table) (tbl : list htab_entry) : Prop := {
  live_table : table h = Ptr tbl;
  live_size : 1 <= size h < 2 ^ 32 - 1;
  live_prime : size h = 1 \/ (3 <= size h /\ Z.prime (size h));
  live_length : length tbl = Z.to_nat (size h + 1);
  live_filled : 0 <= filled h <= size h
}.

Inductive reachable : htab_table -> Prop :=
| reach_empty : reachable HTAB_EMPTY
| reach_create (nel : Z) (ok b : bool) (h h' : htab_table) :
    reachable h -> is_uint32 nel ->
    htab_create nel (Ptr h) ok = Some (b, Ptr h') -> reachable h'
| reach_hash (key : ptr string) (ok : bool) (idx : Z) (h h' : htab_table) :
    reachable h ->
    htab_hash key (Ptr h) ok = Some (idx, Ptr h') -> reachable h'
| reach_destroy (h h' : htab_table) :
    reachable h ->
    htab_destroy (Ptr h) = Some (Ptr h') -> reachable h'.

Definition shaped (h : htab_table) : Prop :=
  match table h with
  | NULL => 0 <= filled h <= size h
  | Ptr tbl => live h tbl
  end.

(** ** Tables in which every key duplication has succeeded

    [used_count] counts the slots that carry a tag.  In a [keyed] table
    each slot is as [calloc] left it, or holds one of the keys that were
    entered, under the tag the primary hash gives that key, and [filled]
    counts the slots in use. *)

Fixpoint used_count (tbl : list htab_entry) : Z :=
  match tbl with
  | [] => 0
  | e :: tbl' => (if used e =? 0 then 0 else 1) + used_count tbl'
  end.

Definition slot_ok (c : Z) (keys : list string) (e : htab_entry) : Prop :=
  e = zero_entry \/
  exists k, k ∈ keys /\ str e = Ptr k /\ primary_hash k c = Some (used e).

Record keyed (h : htab_table) (tbl : list htab_entry) (keys : list string) : Prop := {
  keyed_live : live h tbl;
  keyed_zero : tbl !! 0%nat = Some zero_entry;
  keyed_slots : forall i e, tbl !! i = Some e -> slot_ok (size h) keys e;
  keyed_count : filled h = used_count tbl
}.

(** ** Sequences of calls on one handle *)

(** Entering a list of keys, every duplication succeeding. *)
Fixpoint insert_all (keys : list string) (htab : ptr htab_table)
    : option (list Z * ptr htab_table) :=
  match keys with
  | [] => Some ([], htab)
  | k :: ks =>
    '(idx, htab) ← htab_hash (Ptr k) htab true;
    '(idxs, htab) ← insert_all ks htab;
    Some (idx :: idxs, htab)
  end.

Inductive call : Type :=
| Create (nel : Z) (calloc_ok : bool)
| Hash (key : string) (malloc_ok : bool)
| Destroy.

Definition target {A : Type} (p : ptr A) : option A :=
  match p with NULL => None | Ptr a => Some a end.

(** One call; the value is what the C function returns ([TRUE] is 1). *)
Definition run_call (c : call) (h : htab_table) : option (Z * htab_table) :=
  match c with
  | Create nel ok =>
    '(b, p) ← htab_create nel (Ptr h) ok; h' ← target p;
    Some (if b : bool then 1 else 0, h')
  | Hash key ok =>
    '(idx, p) ← htab_hash (Ptr key) (Ptr h) ok; h' ← target p; Some (idx, h')
  | Destroy =>
    p ← htab_destroy (Ptr h); h' ← target p; Some (0, h')
  end.

Fixpoint run (cs : list call) (h : htab_table) : option (list Z * htab_table) :=
  match cs with
  | [] => Some ([], h)
  | c :: cs' =>
    '(r, h1) ← run_call c h;
    '(rs, h2) ← run cs' h1;
    Some (r :: rs, h2)
  end.

Definition call_ok (c : call) : Prop :=
  match c with Create nel _ => is_uint32 nel | _ => True end.

(** ** Tables used as concrete inputs *)

(** After [htab_create(10, ...)]. *)
Definition table_11 : htab_table :=
  {| table := Ptr (replicate 12 zero_entry); size := 11; filled := 0 |}.

(** After [htab_create(3, ...)]. *)
Definition table_5 : htab_table :=
  {| table := Ptr (replicate 6 zero_entry); size := 5; filled := 0 |}.

(** A table of size 5 after five calls, the third of which could not
    duplicate its key: every slot of [1, 5] carries a tag, [filled] is 4. *)
Definition table_5_lost_slot : htab_table :=
  {| table := Ptr [ zero_entry;
                    {| used := 1; str := Ptr "d" |};
                    {| used := 2; str := Ptr "a" |};
                    {| used := 3; str := Ptr "b" |};
                    {| used := 4; str := NULL |};
                    {| used := 1; str := Ptr "e" |} ];
     size := 5; filled := 4 |}.

(** A table of size 1 after two calls that could not duplicate their keys:
    both entries carry the tag 1, [filled] is 0. *)
Definition table_1_lost_slots : htab_table :=
  {| table := Ptr [ {| used := 1; str := NULL |}; {| used := 1; str := NULL |} ];
     size := 1; filled := 0 |}.

(** ** Keys that are in the table *)

(** The search for [s] ends at slot [idx], which holds [s]. *)
Definition entered (tbl : list htab_entry) (c : Z) (s : string) (idx : Z) : Prop :=
  exists hval, primary_hash s c = Some hval /\
               htab_search tbl c hval s = Some (Existing idx).

(** Every slot in use is the same in [tbl']. *)
Definition slots_kept (tbl tbl' : list htab_entry) : Prop :=
  forall i e, tbl !! i = Some e -> used e <> 0 -> tbl' !! i = Some e.

(** ** Calls of GetExecutableVersion *)

(** The Windows calls of one invocation all succeed and hand back
    [version_info] with the signature of a version resource. *)
Definition version_read (os : version_calls) (version_info : VS_FIXEDFILEINFO) : Prop :=
  GetFileVersionInfoSizeU os <> 0 /\ buf_allocated os = true /\
  GetFileVersionInfoU os = true /\
  exists uLen, VerQueryValueA os = Some (version_info, uLen) /\ uLen <> 0 /\
               dwSignature version_info = 0xfeef04bd.

(** A sequence of calls, from the statics [st]: the pointers returned. *)
Fixpoint GetExecutableVersion_calls (st : Statics.t) (calls : list version_calls)
    : list (ptr version_t) :=
  match calls with
  | [] => []
  | os :: calls' =>
    let '(p, st) := GetExecutableVersion st os in
    p :: GetExecutableVersion_calls st calls'
  end.

(** A version resource 4.5.2103.0, and a file without one. *)
Definition calls_version_4_5 : version_calls :=
  {| GetFileVersionInfoSizeU := 1024; buf_allocated := true; GetFileVersionInfoU := true;
     VerQueryValueA := Some ({| dwSignature := 0xfeef04bd;
                                dwFileVersionMS := 0x00040005;
                                dwFileVersionLS := 0x08370000 |}, 52) |}.

Definition calls_no_version : version_calls :=
  {| GetFileVersionInfoSizeU := 0; buf_allocated := true; GetFileVersionInfoU := true;
     VerQueryValueA := None |}.

(** ** What a string array holds *)

(** The first index of [s] in [l]. *)
Fixpoint index_of (s : string) (l : list string) : option nat :=
  match l with
  | [] => None
  | t :: l' => if String.eqb t s then Some 0%nat else S <$> index_of s l'
  end.

(** The array [a] has the table [tbl], of [Max] cells, and its first
    [Index] cells hold the strings [l], in this order. *)
Record holds (a : StrArray.t) (tbl : list cell) (l : list string) : Prop := {
  holds_String : StrArray.String a = Ptr tbl;
  holds_Max : 0 <= StrArray.Max a < 2 ^ 32;
  holds_length : length tbl = Z.to_nat (StrArray.Max a);
  holds_Index : StrArray.Index a = Z.of_nat (length l);
  holds_bound : StrArray.Index a <= StrArray.Max a;
  holds_cells : forall i s, l !! i = Some s -> tbl !! i = Some (Some (Ptr s))
}.

(** Adding a list of strings, no allocation failing. *)
Fixpoint add_all (strs : list string) (arr : ptr StrArray.t) (duplicate : bool)
    : option (list Z * ptr StrArray.t) :=
  match strs with
  | [] => Some ([], arr)
  | s :: strs' =>
    '(i, arr) ← StrArrayAdd arr (Ptr s) duplicate true true;
    '(idxs, arr) ← add_all strs' arr duplicate;
    Some (i :: idxs, arr)
  end.

(** An array of two strings in a table of two cells, and an array whose
    table has no cell. *)
Definition array_ab : StrArray.t :=
  {| StrArray.String := Ptr [Some (Ptr "a"); Some (Ptr "b")];
     StrArray.Index := 2; StrArray.Max := 2 |}.

Definition array_0 : StrArray.t :=
  {| StrArray.String := Ptr []; StrArray.Index := 0; StrArray.Max := 0 |}.

(** ** Affinity masks *)

(** The union of a list of masks. *)
Definition mask_union (l : list Z) : Z := foldr Z.lor 0 l.

(** [parts l m]: the masks of [l] are pairwise disjoint and their union is
    [m]. *)
Fixpoint parts (l : list Z) (m : Z) : Prop :=
  match l with
  | [] => m = 0
  | x :: l' => exists m', Z.land x m' = 0 /\ Z.lor x m' = m /\ parts l' m'
  end.

(** * Properties *)

Example create_10 :
  htab_create 10 (Ptr HTAB_EMPTY) true
  = Some (true, Ptr {| table := Ptr (replicate 12 zero_entry); size := 11; filled := 0 |}).
Proof. vm_compute. reflexivity. Qed.

(** ** Loops: binary fuel against unary fuel *)

Section LoopFacts.
Context {St R : Type} (step : St -> option (St + R)).

Lemma loop_nat_S (n : nat) (s : St) :
  loop_nat step (S n) s = step s ≫= continue (loop_nat step n).
Proof. reflexivity. Qed.

Lemma loop_nat_add (n m : nat) (s : St) :
  loop_nat step (n + m) s = loop_nat step n s ≫= continue (loop_nat step m).
Proof.
  revert s. induction n as [|n IH]; intros s; simpl; [reflexivity|].
  destruct (step s) as [[s1|r]|]; simpl; auto.
Qed.

Lemma loop_pos_nat (p : positive) (s : St) :
  loop_pos step p s = loop_nat step (Pos.to_nat p) s.
Proof.
  revert s. induction p as [p IH|p IH|]; intros s.
  - replace (Pos.to_nat p~1) with (S (Pos.to_nat p + Pos.to_nat p)) by lia.
    cbn [loop_pos loop_nat].
    destruct (step s) as [[s1|r]|]; cbn; auto.
    rewrite loop_nat_add, IH.
    destruct (loop_nat step (Pos.to_nat p) s1) as [[s2|r]|]; cbn; auto.
  - replace (Pos.to_nat p~0) with (Pos.to_nat p + Pos.to_nat p)%nat by lia.
    cbn [loop_pos].
    rewrite loop_nat_add, IH.
    destruct (loop_nat step (Pos.to_nat p) s) as [[s2|r]|]; cbn; auto.
  - change (Pos.to_nat 1) with 1%nat. cbn.
    destruct (step s) as [[s1|r]|]; reflexivity.
Qed.

Lemma loop_nat_mono (n m : nat) (s : St) (r : R) :
  loop_nat step n s = Some (inr r) -> (n <= m)%nat ->
  loop_nat step m s = Some (inr r).
Proof.
  intros H Hle. replace m with (n + (m - n))%nat by lia.
  rewrite loop_nat_add, H. reflexivity.
Qed.

Lemma run_loop_intro (n : nat) (s : St) (r : R) :
  loop_nat step n s = Some (inr r) -> (Z.of_nat n <= 2 ^ 32) ->
  run_loop step s = Some r.
Proof.
  intros H Hle. unfold run_loop. rewrite loop_pos_nat.
  rewrite (loop_nat_mono n _ s r H); [reflexivity|].
  unfold loop_fuel. lia.
Qed.

Lemma run_loop_elim (s : St) (r : R) :
  run_loop step s = Some r ->
  exists n : nat, Z.of_nat n <= 2 ^ 32 /\ loop_nat step n s = Some (inr r).
Proof.
  unfold run_loop. rewrite loop_pos_nat.
  destruct (loop_nat step _ s) as [[s1|r1]|] eqn:E; intros H; inversion H; subst.
  exists (Pos.to_nat loop_fuel). split; [unfold loop_fuel; lia|exact E].
Qed.

(** Two runs that finish agree, whatever their fuel. *)
Lemma loop_nat_det (n m : nat) (s : St) (r1 r2 : R) :
  loop_nat step n s = Some (inr r1) -> loop_nat step m s = Some (inr r2) ->
  r1 = r2.
Proof.
  intros H1 H2.
  pose proof (loop_nat_mono n (n + m) s r1 H1 ltac:(lia)) as E1.
  pose proof (loop_nat_mono m (n + m) s r2 H2 ltac:(lia)) as E2.
  congruence.
Qed.
End LoopFacts.

(** From here on [run_loop] is used through the two lemmas above (and
    evaluated with [vm_compute] on concrete inputs): unfolding it would put
    [2^32] units of fuel in front of every conversion. *)
Global Opaque run_loop.

(** ** Machine arithmetic *)

Lemma wrap32_small (x : Z) : 0 <= x < 2 ^ 32 -> wrap32 x = x.
Proof. intros H. unfold wrap32. apply Z.mod_small. exact H. Qed.

Lemma wrap32_range (x : Z) : 0 <= wrap32 x < 2 ^ 32.
Proof. unfold wrap32. apply Z.mod_pos_bound. lia. Qed.

Lemma lor_1 (x : Z) : Z.lor x 1 = x + 1 - x mod 2.
Proof.
  pose proof (Z.add_lor_land x 1) as H.
  change 1 with (Z.ones 1) in H at 2.
  rewrite Z.land_ones in H by lia. change (2 ^ 1) with 2 in H. lia.
Qed.

Lemma lor_1_odd (x : Z) : Z.lor x 1 mod 2 = 1.
Proof.
  rewrite lor_1. pose proof (Z.mod_pos_bound x 2 ltac:(lia)) as Hb.
  pose proof (Z.div_mod x 2 ltac:(lia)) as Hd.
  replace (x + 1 - x mod 2) with (1 + (x / 2) * 2) by lia.
  rewrite Z.mod_add by lia. reflexivity.
Qed.

Lemma lor_1_range (x : Z) : is_uint32 x -> is_uint32 (Z.lor x 1).
Proof.
  unfold is_uint32. intros H. rewrite lor_1.
  pose proof (Z.mod_pos_bound x 2 ltac:(lia)) as Hb.
  pose proof (Z.div_mod x 2 ltac:(lia)) as Hd.
  assert (x <> 2 ^ 32 - 1 \/ x mod 2 = 1) as [Hne|Hodd]; [|lia|lia].
  destruct (Z.eq_dec x (2 ^ 32 - 1)) as [->|]; [right; reflexivity|left; assumption].
Qed.

(** ** isprime *)

Lemma isprime_unfold (number : Z) :
  isprime number =
  divider ← run_loop (isprime_step number) 3; Some (negb (number mod divider =? 0)).
Proof. reflexivity. Qed.

Lemma isprime_step_eq (number d : Z) :
  isprime_step number d =
  Some (if (wrap32 (d * d) <? number) && negb (number mod d =? 0)
        then inl (wrap32 (d + 2)) else inr d).
Proof. reflexivity. Qed.

(** The trial division stops at the first odd divisor when there is one
    whose square is within [number]: no square wraps before it. *)
Lemma isprime_loop_hits_divisor (number q : Z) (m : nat) (d : Z) :
  is_uint32 number -> q * q <= number -> (q | number) ->
  3 <= d -> d + 2 * Z.of_nat m = q ->
  exists d', loop_nat (isprime_step number) (S m) d = Some (inr d')
             /\ number mod d' = 0.
Proof.
  unfold is_uint32. intros Hn Hqq Hq. revert d.
  induction m as [|m IH]; intros d Hd Hdq; rewrite loop_nat_S, isprime_step_eq.
  - assert (d = q) as -> by lia.
    assert (number mod q = 0) as E by (apply Z.mod_divide; [lia|exact Hq]).
    exists q. rewrite E, andb_false_r. split; reflexivity.
  - assert (d * d < q * q) as Hlt by nia.
    assert (q < 2 ^ 16) as Hq16 by nia.
    rewrite wrap32_small by nia.
    destruct (number mod d =? 0) eqn:E.
    + rewrite andb_false_r. exists d. split; [reflexivity|lia].
    + assert ((d * d <? number) = true) as -> by (apply Z.ltb_lt; lia).
      rewrite wrap32_small by lia.
      apply IH; lia.
Qed.

Lemma isprime_composite (number q : Z) :
  is_uint32 number -> 3 <= q -> q mod 2 = 1 -> q * q <= number -> (q | number) ->
  isprime number = Some false.
Proof.
  intros Hn Hq Hodd Hqq Hdiv.
  destruct (isprime_loop_hits_divisor number q (Z.to_nat ((q - 3) / 2)) 3 Hn Hqq Hdiv)
    as (d' & Hloop & Hmod); [lia| |].
  { pose proof (Z.div_mod q 2 ltac:(lia)) as E1.
    pose proof (Z.div_mod (q - 3) 2 ltac:(lia)) as E2.
    pose proof (Z.mod_pos_bound (q - 3) 2 ltac:(lia)) as B2.
    assert ((q - 3) mod 2 = 0) as E3.
    { replace (q - 3) with (q mod 2 - 3 + (q / 2) * 2) by lia.
      rewrite Z.mod_add by lia. rewrite Hodd. reflexivity. }
    rewrite Z2Nat.id by (apply Z.div_pos; lia). lia. }
  rewrite isprime_unfold.
  rewrite (run_loop_intro _ _ _ _ Hloop).
  - cbn. rewrite Hmod. reflexivity.
  - unfold is_uint32 in Hn.
    assert (q < 2 ^ 16) by nia.
    pose proof (Z.div_le_upper_bound (q - 3) 2 (2 ^ 16) ltac:(lia) ltac:(lia)).
    rewrite Nat2Z.inj_succ, Z2Nat.id by (apply Z.div_pos; lia). lia.
Qed.

(** On an odd number the loop ends at the latest when [divider] reaches
    the number itself, before anything wraps. *)
Lemma isprime_loop_terminates (number : Z) (m : nat) (d : Z) :
  is_uint32 number -> 3 <= d -> d + 2 * Z.of_nat m = number ->
  exists d', loop_nat (isprime_step number) (S m) d = Some (inr d').
Proof.
  unfold is_uint32. intros Hn. revert d.
  induction m as [|m IH]; intros d Hd Hdn; rewrite loop_nat_S, isprime_step_eq.
  - assert (d = number) as -> by lia.
    rewrite Z.mod_same by lia. rewrite andb_false_r. eauto.
  - destruct ((wrap32 (d * d) <? number) && negb (number mod d =? 0)); [|eauto].
    rewrite wrap32_small by lia. apply IH; lia.
Qed.

Lemma isprime_1 : isprime 1 = Some true.
Proof. vm_compute. reflexivity. Qed.

Lemma isprime_3 : isprime 3 = Some false.
Proof. vm_compute. reflexivity. Qed.

Lemma isprime_total (number : Z) :
  is_uint32 number -> number mod 2 = 1 -> exists b, isprime number = Some b.
Proof.
  intros Hn Hodd. destruct (Z.eq_dec number 1) as [->|Hne].
  - exists true. exact isprime_1.
  - unfold is_uint32 in Hn.
    destruct (isprime_loop_terminates number (Z.to_nat ((number - 3) / 2)) 3)
      as [d' Hloop]; [exact Hn|lia| |].
    { rewrite Z2Nat.id by (apply Z.div_pos; lia). lia. }
    rewrite isprime_unfold, (run_loop_intro _ _ _ _ Hloop).
    + cbn. eauto.
    + rewrite Nat2Z.inj_succ, Z2Nat.id by (apply Z.div_pos; lia). lia.
Qed.

Lemma odd_factor (a b : Z) : (a * b) mod 2 = 1 -> a mod 2 = 1.
Proof.
  intros H. destruct (Z.eq_dec (a mod 2) 1) as [|Hne]; [assumption|exfalso].
  assert (a = 2 * (a / 2)) as E by lia.
  rewrite E in H. replace (2 * (a / 2) * b) with ((a / 2) * b * 2) in H by lia.
  rewrite Z.mod_mul in H by lia. discriminate.
Qed.

(** What [isprime] accepts: 1, and primes.  (It rejects 3, and could reject
    a prime above [65535^2], where [divider * divider] wraps.) *)
Lemma isprime_sound (number : Z) :
  is_uint32 number -> number mod 2 = 1 -> isprime number = Some true ->
  number = 1 \/ Z.prime number.
Proof.
  intros Hn Hodd Hp. unfold is_uint32 in Hn.
  destruct (Z.eq_dec number 1) as [|Hne]; [left; assumption|right].
  destruct (prime_dec number) as [Hpr|Hnp]; [apply prime_alt; exact Hpr|exfalso].
  destruct (not_prime_divide number ltac:(lia) Hnp) as (a & Ha & b & Hb).
  assert (0 < b) as Hbpos by nia.
  assert (a mod 2 = 1) as Ha2 by (apply (odd_factor a b); rewrite Z.mul_comm, <- Hb; exact Hodd).
  assert (b mod 2 = 1) as Hb2 by (apply (odd_factor b a); rewrite <- Hb; exact Hodd).
  assert (1 < b) as Hb1 by nia.
  assert (isprime number = Some false) as Hf.
  { destruct (Z_le_gt_dec a b).
    - apply (isprime_composite number a); [exact Hn|lia|exact Ha2|nia|exists b; exact Hb].
    - apply (isprime_composite number b); [exact Hn|lia|exact Hb2|nia|exists a; lia]. }
  congruence.
Qed.

(** ** htab_create *)

Lemma create_step_eq (nel : Z) (b : bool) :
  isprime nel = Some b ->
  create_step nel = Some (if b then inr nel else inl (wrap32 (nel + 2))).
Proof.
  intros H. unfold create_step, while_step. rewrite H. destruct b; reflexivity.
Qed.

(** [while(!isprime(nel)) nel += 2;] from an odd [nel]: it stops at the
    first odd value that [isprime] accepts, which is 1 at the latest, after
    the counter wrapped. *)
Lemma create_loop_finds (k : nat) (nel : Z) :
  nel mod 2 = 1 ->
  (nel = 1 /\ k = 0%nat) \/ (3 <= nel < 2 ^ 32 /\ nel + 2 * Z.of_nat k = 2 ^ 32 + 1) ->
  exists (c : Z) (n : nat),
    (n <= S k)%nat /\ loop_nat create_step n nel = Some (inr c) /\
    isprime c = Some true /\ c mod 2 = 1 /\ is_uint32 c /\
    ((nel <= c /\
      forall x, nel <= x < c -> x mod 2 = 1 -> isprime x = Some false) \/
     (c = 1 /\ 3 <= nel /\
      forall x, nel <= x < 2 ^ 32 -> x mod 2 = 1 -> isprime x = Some false)).
Proof.
  revert nel. induction k as [|k IH]; intros nel Hodd Hcase.
  - assert (nel = 1) as -> by lia.
    exists 1, 1%nat. rewrite loop_nat_S, (create_step_eq 1 true isprime_1).
    unfold is_uint32. repeat split; try reflexivity; try lia.
    left. split; [lia|]. intros x Hx Hx2. lia.
  - assert (is_uint32 nel) as Hu by (unfold is_uint32; lia).
    destruct (isprime_total nel Hu Hodd) as [[|] Hb].
    + exists nel, 1%nat. rewrite loop_nat_S, (create_step_eq nel true Hb).
      repeat split; try assumption; try reflexivity; try lia.
      left. split; [lia|]. intros x Hx. lia.
    + assert (nel <> 1) as Hn1 by (intros ->; rewrite isprime_1 in Hb; discriminate).
      destruct (IH (wrap32 (nel + 2))) as (c & n & Hn & Hloop & Hc & Hc2 & Hcu & Hmin).
      { unfold wrap32. lia. }
      { destruct (Z.eq_dec nel (2 ^ 32 - 1)) as [->|Hne].
        - left. split; [reflexivity|lia].
        - right. rewrite wrap32_small by lia. lia. }
      exists c, (S n). rewrite loop_nat_S, (create_step_eq nel false Hb).
      split; [lia|]. split; [exact Hloop|]. do 3 (split; [assumption|]).
      destruct (Z.eq_dec nel (2 ^ 32 - 1)) as [->|Hne].
      * change (wrap32 (2 ^ 32 - 1 + 2)) with 1 in Hmin.
        right. destruct Hmin as [[Hle Hmin]|[_ [Hle _]]]; [|lia].
        assert (c = 1) as ->.
        { destruct (Z.eq_dec c 1) as [|Hc1]; [assumption|exfalso].
          pose proof isprime_1 as H1. rewrite (Hmin 1) in H1 by lia. discriminate. }
        repeat split; try lia.
        intros x Hx Hx2. assert (x = 2 ^ 32 - 1) as -> by lia. exact Hb.
      * rewrite wrap32_small in Hmin by lia.
        destruct Hmin as [[Hle Hmin]|[-> [Hle Hmin]]]; [left|right].
        -- split; [lia|]. intros x Hx Hx2.
           destruct (Z.eq_dec x nel) as [->|Hxne]; [exact Hb|]. apply Hmin; lia.
        -- repeat split; try lia. intros x Hx Hx2.
           destruct (Z.eq_dec x nel) as [->|Hxne]; [exact Hb|]. apply Hmin; lia.
Qed.

Lemma isprime_max : isprime (2 ^ 32 - 1) = Some false.
Proof. vm_compute. reflexivity. Qed.

(** The size [htab_create] settles on, for any requested [nel]. *)
Lemma create_size_exists (nel : Z) :
  is_uint32 nel ->
  exists c : Z,
    while (fun nel => negb <$> isprime nel) (fun nel => wrap32 (nel + 2)) (Z.lor nel 1)
      = Some c /\
    isprime c = Some true /\ c mod 2 = 1 /\ 1 <= c < 2 ^ 32 - 1 /\
    ((Z.lor nel 1 <= c /\
      forall x, Z.lor nel 1 <= x < c -> x mod 2 = 1 -> isprime x = Some false) \/
     (c = 1 /\ 3 <= Z.lor nel 1 /\
      forall x, Z.lor nel 1 <= x < 2 ^ 32 -> x mod 2 = 1 -> isprime x = Some false)).
Proof.
  intros Hu. pose proof (lor_1_odd nel) as Hodd. pose proof (lor_1_range nel Hu) as Hr.
  unfold is_uint32 in Hr. set (nel1 := Z.lor nel 1) in *.
  assert (exists (k : nat),
             Z.of_nat k <= 2 ^ 31 /\
             ((nel1 = 1 /\ k = 0%nat) \/
              (3 <= nel1 < 2 ^ 32 /\ nel1 + 2 * Z.of_nat k = 2 ^ 32 + 1)))
    as (k & Hk & Hcase).
  { destruct (Z.eq_dec nel1 1) as [E|E].
    - exists 0%nat. split; [lia|]. left. split; [exact E|reflexivity].
    - exists (Z.to_nat ((2 ^ 32 + 1 - nel1) / 2)).
      rewrite Z2Nat.id by (apply Z.div_pos; lia).
      split; [|right]; lia. }
  destruct (create_loop_finds k nel1 Hodd Hcase)
    as (c & n & Hn & Hloop & Hc & Hc2 & Hcu & Hmin).
  exists c. split; [|split; [exact Hc|split; [exact Hc2|split; [|exact Hmin]]]].
  - apply (run_loop_intro create_step n nel1 c Hloop). lia.
  - unfold is_uint32 in Hcu.
    assert (c <> 2 ^ 32 - 1) by (intros ->; rewrite isprime_max in Hc; discriminate).
    lia.
Qed.

Lemma htab_create_fresh (nel : Z) (h : htab_table) (calloc_ok : bool) :
  is_uint32 nel -> table h = NULL ->
  exists c : Z,
    htab_create nel (Ptr h) calloc_ok =
      Some (calloc_ok,
            Ptr {| table := if calloc_ok
                            then Ptr (replicate (Z.to_nat (c + 1)) zero_entry)
                            else NULL;
                   size := c; filled := 0 |}) /\
    isprime c = Some true /\ c mod 2 = 1 /\ 1 <= c < 2 ^ 32 - 1.
Proof.
  intros Hu Htab.
  destruct (create_size_exists nel Hu) as (c & Hw & Hc & Hc2 & Hr & _).
  exists c. split; [|auto].
  unfold htab_create. rewrite Htab. cbn [is_null negb].
  rewrite Hw. cbn. rewrite wrap32_small by lia.
  destruct calloc_ok; reflexivity.
Qed.

(** A table that owns a slot array is refused, and left as it is. *)
Lemma htab_create_live (nel : Z) (h : htab_table) (calloc_ok : bool) :
  table h <> NULL -> htab_create nel (Ptr h) calloc_ok = Some (false, Ptr h).
Proof.
  intros Htab. unfold htab_create. destruct (table h); [congruence|reflexivity].
Qed.

(** ** The probe loop and its trace *)

Section Probe.
Variables (tbl : list htab_entry) (c hval hval2 : Z) (s : string).

Local Abbreviation P := (probe_idx c hval hval2).
Local Abbreviation step := (probe_step tbl c hval hval2 s).

Lemma probe_idx_S (k : nat) : P (S k) = next_idx c hval2 (P k).
Proof. reflexivity. Qed.

Lemma probe_step_cases (i : Z) (r : Z + search_result) :
  step i = Some r ->
  let i' := next_idx c hval2 i in
  (r = inl i' /\ i' <> hval /\ passed_over tbl hval s i') \/
  (exists res, r = inr res /\ stops_at tbl hval s res i').
Proof.
  unfold step, probe_step. cbn zeta.
  destruct (Z.eqb_spec (next_idx c hval2 i) hval) as [E|E].
  - intros [= <-]. right. exists (NewEntry (next_idx c hval2 i)).
    split; [reflexivity|]. split; [reflexivity|left; exact E].
  - destruct (tbl !! Z.to_nat (next_idx c hval2 i)) as [e|] eqn:He; cbn; [|discriminate].
    destruct (entry_matches hval s e) eqn:Hm.
    + intros [= <-]. right. exists (Existing (next_idx c hval2 i)).
      split; [reflexivity|]. split; [reflexivity|]. split; [exact E|]. eauto.
    + destruct (Z.eqb_spec (used e) 0) as [Hu|Hu]; cbn; intros [= <-].
      * right. exists (NewEntry (next_idx c hval2 i)).
        split; [reflexivity|]. split; [reflexivity|]. right. split; [exact E|]. eauto.
      * left. split; [reflexivity|]. split; [exact E|]. exists e. auto.
Qed.

Lemma probe_step_passed (i : Z) :
  next_idx c hval2 i <> hval -> passed_over tbl hval s (next_idx c hval2 i) ->
  step i = Some (inl (next_idx c hval2 i)).
Proof.
  intros E (e & He & Hu & Hm). unfold step, probe_step. cbn zeta.
  destruct (Z.eqb_spec (next_idx c hval2 i) hval) as [|_]; [contradiction|].
  rewrite He. cbn. rewrite Hm.
  destruct (Z.eqb_spec (used e) 0) as [|_]; [contradiction|]. reflexivity.
Qed.

Lemma probe_step_stops (i : Z) (res : search_result) :
  stops_at tbl hval s res (next_idx c hval2 i) -> step i = Some (inr res).
Proof.
  unfold step, probe_step. cbn zeta. destruct res as [idx|idx]; cbn.
  - intros (-> & E & e & He & Hm).
    destruct (Z.eqb_spec (next_idx c hval2 i) hval) as [|_]; [contradiction|].
    rewrite He. cbn. rewrite Hm. reflexivity.
  - intros (-> & [E|(E & e & He & Hm & Hu)]).
    + rewrite E, Z.eqb_refl. reflexivity.
    + destruct (Z.eqb_spec (next_idx c hval2 i) hval) as [|_]; [contradiction|].
      rewrite He. cbn. rewrite Hm, Hu. reflexivity.
Qed.

(** What a finished run of the loop has seen. *)
Lemma probe_loop_trace (n k : nat) (res : search_result) :
  loop_nat step n (P k) = Some (inr res) ->
  exists K : nat,
    (k < K <= k + n)%nat /\
    (forall j, (k < j < K)%nat -> P j <> hval /\ passed_over tbl hval s (P j)) /\
    stops_at tbl hval s res (P K).
Proof.
  revert k. induction n as [|n IH]; intros k; [discriminate|].
  rewrite loop_nat_S. destruct (step (P k)) as [r|] eqn:Hs; [|discriminate].
  destruct (probe_step_cases _ _ Hs) as [(-> & Hne & Hp)|(res' & -> & Hstop)]; cbn.
  - rewrite <- probe_idx_S. intros Hloop.
    destruct (IH (S k) Hloop) as (K & HK & Hbefore & Hstop).
    exists K. split; [lia|]. split; [|exact Hstop].
    intros j Hj. destruct (Nat.eq_dec j (S k)) as [->|Hjne].
    + rewrite probe_idx_S. auto.
    + apply Hbefore. lia.
  - intros [= ->]. exists (S k). split; [lia|]. split; [intros j Hj; lia|exact Hstop].
Qed.

(** And the other way round: the trace decides the run. *)
Lemma probe_loop_complete (d k : nat) (res : search_result) :
  (forall j, (k < j < k + S d)%nat -> P j <> hval /\ passed_over tbl hval s (P j)) ->
  stops_at tbl hval s res (P (k + S d)) ->
  loop_nat step (S d) (P k) = Some (inr res).
Proof.
  revert k. induction d as [|d IH]; intros k Hbefore Hstop; rewrite loop_nat_S.
  - replace (k + 1)%nat with (S k) in Hstop by lia.
    rewrite probe_idx_S in Hstop.
    rewrite (probe_step_stops (P k) res Hstop). reflexivity.
  - destruct (Hbefore (S k) ltac:(lia)) as [Hne Hp].
    rewrite probe_idx_S in Hne, Hp. rewrite (probe_step_passed (P k) Hne Hp). cbn.
    rewrite <- probe_idx_S. apply IH.
    + intros j Hj. apply Hbefore. lia.
    + replace (S k + S d)%nat with (k + S (S d))%nat by lia. exact Hstop.
Qed.
End Probe.

(** ** The hash values and the probe arithmetic *)

Lemma sdbm_range (sz : string) (r : Z) : is_uint32 r -> is_uint32 (sdbm sz r).
Proof.
  revert r. induction sz as [|a sz IH]; intros r Hr; cbn [sdbm]; [exact Hr|].
  apply IH. apply wrap32_range.
Qed.

Lemma raw_hash_range (s : string) : 1 <= raw_hash s < 2 ^ 32.
Proof.
  unfold raw_hash.
  pose proof (sdbm_range s 0 ltac:(unfold is_uint32; lia)) as H. unfold is_uint32 in H.
  destruct (Z.eqb_spec (sdbm s 0) 0) as [E|Hne]; [|lia].
  rewrite E. change (wrap32 (0 + 1)) with 1. lia.
Qed.

(** The home index is in [1, size - 1] (it is 1 in a table of size 1). *)
Lemma primary_hash_range (s : string) (c : Z) :
  1 <= c < 2 ^ 32 ->
  exists hval, primary_hash s c = Some hval /\ 1 <= hval /\ (hval < c \/ (c = 1 /\ hval = 1)).
Proof.
  intros Hc. unfold primary_hash, umod.
  destruct (Z.eqb_spec c 0) as [|_]; [lia|]. cbn.
  pose proof (raw_hash_range s) as Hr.
  destruct (Z.eqb_spec (raw_hash s mod c) 0) as [E|E]; eexists; (split; [reflexivity|]).
  - rewrite E. change (wrap32 (0 + 1)) with 1. lia.
  - lia.
Qed.

(** The step of the probe is in [1, size - 2]. *)
Lemma secondary_hash_range (hval c : Z) :
  3 <= c < 2 ^ 32 -> 0 <= hval ->
  exists hval2, secondary_hash hval c = Some hval2 /\ 1 <= hval2 <= c - 2.
Proof.
  intros Hc Hh. unfold secondary_hash, umod. rewrite (wrap32_small (c - 2)) by lia.
  destruct (Z.eqb_spec (c - 2) 0) as [|_]; [lia|]. cbn.
  eexists. split; [reflexivity|]. rewrite wrap32_small; lia.
Qed.

Lemma next_idx_range (c hval2 idx : Z) :
  3 <= c < 2 ^ 32 -> 1 <= hval2 <= c - 2 -> 1 <= idx <= c ->
  1 <= next_idx c hval2 idx <= c /\
  (next_idx c hval2 idx = idx - hval2 \/ next_idx c hval2 idx = idx - hval2 + c).
Proof.
  intros Hc H2 Hi. unfold next_idx.
  destruct (Z.leb_spec idx hval2); rewrite wrap32_small; lia.
Qed.

Section ProbeArith.
Variables (c hval hval2 : Z).
Hypothesis Hc : 3 <= c < 2 ^ 32.
Hypothesis Hhval : 1 <= hval < c.
Hypothesis Hhval2 : 1 <= hval2 <= c - 2.

Local Abbreviation P := (probe_idx c hval hval2).

(** Every probed index is a slot of [1, size], and the [k]-th one is
    [hval - k * hval2] modulo the size. *)
Lemma probe_idx_congr (k : nat) :
  1 <= P k <= c /\ exists q, P k = hval - Z.of_nat k * hval2 + q * c.
Proof.
  induction k as [|k [IHr [q IHq]]].
  - cbn. split; [lia|]. exists 0. lia.
  - change (P (S k)) with (next_idx c hval2 (P k)).
    destruct (next_idx_range c hval2 (P k) Hc Hhval2 IHr) as [Hr [E|E]].
    + split; [exact Hr|]. exists q. lia.
    + split; [exact Hr|]. exists (q + 1). lia.
Qed.

Lemma probe_idx_range (k : nat) : 1 <= P k <= c.
Proof. apply probe_idx_congr. Qed.

(** After [size] steps the probe is back at its start, whatever the step. *)
Lemma probe_idx_period : P (Z.to_nat c) = hval.
Proof.
  destruct (probe_idx_congr (Z.to_nat c)) as [Hr [q Hq]].
  rewrite Z2Nat.id in Hq by lia.
  assert (P (Z.to_nat c) - hval = (q - hval2) * c) as E by lia.
  assert (q - hval2 = 0) by nia. lia.
Qed.

Hypothesis Hprime : Z.prime c.

(** With a prime size no index comes twice within [size] steps. *)
Lemma probe_idx_inj (i j : nat) :
  (i < j)%nat -> Z.of_nat j < c -> P i <> P j.
Proof.
  intros Hij Hj E.
  destruct (probe_idx_congr i) as [_ [qi Hi]].
  destruct (probe_idx_congr j) as [_ [qj Hjq]].
  assert ((c | (Z.of_nat j - Z.of_nat i) * hval2)) as Hdiv
    by (exists (qj - qi); lia).
  apply (Z.divide_prime_mul _ _ c Hprime) in Hdiv.
  destruct Hdiv as [Hd|Hd]; apply Z.divide_pos_le in Hd; lia.
Qed.

Lemma probe_idx_back (k : nat) :
  (0 < k)%nat -> P k = hval -> c <= Z.of_nat k.
Proof.
  intros Hk E. destruct (Z_lt_le_dec (Z.of_nat k) c) as [Hlt|]; [exfalso|assumption].
  apply (probe_idx_inj 0 k Hk Hlt). rewrite E. reflexivity.
Qed.

Lemma probe_indices_NoDup : NoDup (probe_indices c hval hval2).
Proof.
  unfold probe_indices. apply NoDup_fmap_2_strong; [|apply NoDup_seq].
  intros i j Hi Hj E. apply elem_of_seq in Hi, Hj.
  destruct (Nat.lt_trichotomy i j) as [H|[H|H]]; [exfalso|assumption|exfalso].
  - apply (probe_idx_inj i j); [exact H|lia|exact E].
  - apply (probe_idx_inj j i); [exact H|lia|symmetry; exact E].
Qed.

Lemma probe_indices_perm : probe_indices c hval hval2 ≡ₚ seqZ 1 c.
Proof.
  apply submseteq_length_Permutation.
  - apply NoDup_submseteq; [apply probe_indices_NoDup|].
    intros x Hx. unfold probe_indices in Hx.
    apply list_elem_of_fmap in Hx. destruct Hx as (k & -> & _).
    apply elem_of_seqZ. pose proof (probe_idx_range k). lia.
  - unfold probe_indices. rewrite length_seqZ, length_fmap, length_seq. lia.
Qed.

(** Every slot of [1, size] is probed within [size] steps. *)
Lemma probe_covers (i : Z) :
  1 <= i <= c -> exists k : nat, Z.of_nat k < c /\ P k = i.
Proof.
  intros Hi.
  assert (i ∈ probe_indices c hval hval2) as Hin.
  { rewrite probe_indices_perm. apply elem_of_seqZ. lia. }
  unfold probe_indices in Hin. apply list_elem_of_fmap in Hin.
  destruct Hin as (k & -> & Hk). apply elem_of_seq in Hk.
  exists k. split; [lia|reflexivity].
Qed.
End ProbeArith.

(** ** The search *)

Lemma htab_search_trace (tbl : list htab_entry) (c hval : Z) (s : string)
    (res : search_result) :
  htab_search tbl c hval s = Some res -> search_trace tbl c hval s res.
Proof.
  unfold htab_search. cbn zeta.
  destruct (tbl !! Z.to_nat hval) as [e|] eqn:He; cbn; [|discriminate].
  destruct (Z.eqb_spec (used e) 0) as [Hu|Hu]; cbn.
  - intros [= <-]. exact (trace_fresh _ _ _ _ e He Hu).
  - destruct (entry_matches hval s e) eqn:Hm.
    + intros [= <-]. exact (trace_home _ _ _ _ e He Hu Hm).
    + destruct (secondary_hash hval c) as [hval2|] eqn:H2; cbn; [|discriminate].
      intros Hrun. destruct (run_loop_elim _ _ _ Hrun) as (n & Hn & Hloop).
      destruct (probe_loop_trace tbl c hval hval2 s n 0 res Hloop) as (K & HK & Hb & Hs).
      apply (trace_probe _ _ _ _ hval2 K res); try assumption; try lia.
      exists e. auto.
Qed.

Lemma htab_search_complete (tbl : list htab_entry) (c hval : Z) (s : string)
    (res : search_result) :
  search_trace tbl c hval s res -> htab_search tbl c hval s = Some res.
Proof.
  intros [e He Hu|e He Hu Hm|hval2 K res' (e & He & Hu & Hm) H2 HK HK32 Hb Hs];
    unfold htab_search; cbn zeta; rewrite He; cbn.
  - rewrite Hu. reflexivity.
  - destruct (Z.eqb_spec (used e) 0) as [|_]; [contradiction|]. cbn. rewrite Hm. reflexivity.
  - destruct (Z.eqb_spec (used e) 0) as [|_]; [contradiction|]. cbn. rewrite Hm, H2. cbn.
    destruct K as [|d]; [lia|].
    apply (run_loop_intro _ (S d)); [|lia].
    apply (probe_loop_complete tbl c hval hval2 s d 0 res'); [|exact Hs].
    intros j Hj. apply Hb. lia.
Qed.

(** In a slot array of [size + 1] entries the search of a table of size 3
    or more always returns, within [size] iterations of the loop, and the
    slot it returns is one of [1, size]. *)
Section SearchDefined.
Variables (tbl : list htab_entry) (c hval : Z) (s : string).
Hypothesis Hc : 3 <= c < 2 ^ 32.
Hypothesis Hlen : length tbl = Z.to_nat (c + 1).
Hypothesis Hhval : 1 <= hval < c.

Lemma slot_defined (i : Z) : 0 <= i <= c -> exists e, tbl !! Z.to_nat i = Some e.
Proof.
  intros Hi. apply lookup_lt_is_Some_2. rewrite Hlen. lia.
Qed.

Lemma probe_loop_terminates (hval2 : Z) (d k : nat) :
  1 <= hval2 <= c - 2 -> (k + S d)%nat = Z.to_nat c ->
  exists (n : nat) (res : search_result),
    (n <= S d)%nat /\
    loop_nat (probe_step tbl c hval hval2 s) n (probe_idx c hval hval2 k)
      = Some (inr res) /\
    1 <= result_idx res <= c.
Proof.
  intros H2. revert k. induction d as [|d IH]; intros k Hk.
  - exists 1%nat, (NewEntry hval). split; [lia|]. split; [|cbn; lia].
    rewrite loop_nat_S. unfold probe_step. cbn zeta.
    change (next_idx c hval2 (probe_idx c hval hval2 k))
      with (probe_idx c hval hval2 (S k)).
    replace (S k) with (Z.to_nat c) by lia.
    rewrite (probe_idx_period c hval hval2 Hc Hhval H2), Z.eqb_refl. reflexivity.
  - pose proof (probe_idx_range c hval hval2 Hc Hhval H2 (S k)) as Hr.
    destruct (slot_defined (probe_idx c hval hval2 (S k)) ltac:(lia)) as [e He].
    destruct (IH (S k) ltac:(lia)) as (n & res & Hn & Hloop & Hres).
    assert (probe_step tbl c hval hval2 s (probe_idx c hval hval2 k)
            = Some (inl (probe_idx c hval hval2 (S k)))
            \/ exists res', probe_step tbl c hval hval2 s (probe_idx c hval hval2 k)
                            = Some (inr res') /\ 1 <= result_idx res' <= c)
      as [Hs|(res' & Hs & Hres')].
    { unfold probe_step. cbn zeta.
      change (next_idx c hval2 (probe_idx c hval hval2 k))
        with (probe_idx c hval hval2 (S k)).
      destruct (probe_idx c hval hval2 (S k) =? hval); [right; eexists; split; [reflexivity|exact Hr]|].
      rewrite He. cbn.
      destruct (entry_matches hval s e); [right; eexists; split; [reflexivity|exact Hr]|].
      destruct (negb (used e =? 0)); [left; reflexivity|].
      right; eexists; split; [reflexivity|exact Hr]. }
    + exists (S n), res. split; [lia|]. split; [|exact Hres].
      rewrite loop_nat_S, Hs. exact Hloop.
    + exists 1%nat, res'. split; [lia|]. split; [|exact Hres'].
      rewrite loop_nat_S, Hs. reflexivity.
Qed.

Lemma htab_search_defined :
  exists res, htab_search tbl c hval s = Some res /\ 1 <= result_idx res <= c.
Proof.
  unfold htab_search. cbn zeta.
  destruct (slot_defined hval ltac:(lia)) as [e He]. rewrite He. cbn.
  destruct (negb (used e =? 0)); [|eexists; split; [reflexivity|cbn; lia]].
  destruct (entry_matches hval s e); [eexists; split; [reflexivity|cbn; lia]|].
  destruct (secondary_hash_range hval c Hc ltac:(lia)) as (hval2 & -> & H2). cbn.
  destruct (probe_loop_terminates hval2 (Z.to_nat c - 1) 0 H2 ltac:(lia))
    as (n & res & Hn & Hloop & Hres).
  exists res. split; [|exact Hres].
  apply (run_loop_intro _ n); [exact Hloop|lia].
Qed.
End SearchDefined.

(** ** Live tables *)

Lemma accepted_size (c : Z) :
  is_uint32 c -> c mod 2 = 1 -> isprime c = Some true ->
  c = 1 \/ (3 <= c /\ Z.prime c).
Proof.
  intros Hu Hodd Hp. destruct (isprime_sound c Hu Hodd Hp) as [|Hpr]; [left; assumption|].
  right. split; [|exact Hpr]. pose proof (Z.prime_ge_2 c Hpr). lia.
Qed.

Lemma htab_create_ok (nel : Z) (h : htab_table) :
  is_uint32 nel -> table h = NULL ->
  exists h' tbl,
    htab_create nel (Ptr h) true = Some (true, Ptr h') /\
    live h' tbl /\ filled h' = 0 /\ tbl = replicate (Z.to_nat (size h' + 1)) zero_entry.
Proof.
  intros Hu Htab.
  destruct (htab_create_fresh nel h true Hu Htab) as (c & E & Hp & Hodd & Hr).
  eexists _, _. split; [exact E|]. split; [|split; reflexivity].
  constructor; cbn.
  - reflexivity.
  - exact Hr.
  - apply accepted_size; [unfold is_uint32; lia|exact Hodd|exact Hp].
  - apply length_replicate.
  - lia.
Qed.

Lemma htab_hash_live (h : htab_table) (tbl : list htab_entry) (s : string) (ok : bool) :
  table h = Ptr tbl ->
  htab_hash (Ptr s) (Ptr h) ok =
    hval ← primary_hash s (size h);
    found ← htab_search tbl (size h) hval s;
    match found with
    | Existing idx => Some (idx, Ptr h)
    | NewEntry idx => htab_insert h tbl hval idx s ok
    end.
Proof. intros E. unfold htab_hash. rewrite E. reflexivity. Qed.

Lemma htab_insert_cases (h : htab_table) (tbl : list htab_entry) (hval idx : Z)
    (s : string) (ok : bool) (r : Z) (h' : htab_table) :
  htab_insert h tbl hval idx s ok = Some (r, Ptr h') ->
  (size h <= filled h /\ r = 0 /\ h' = h) \/
  (filled h < size h /\ is_Some (tbl !! Z.to_nat idx) /\
   table h' = Ptr (<[Z.to_nat idx := {| used := hval; str := if ok then Ptr s else NULL |}]> tbl) /\
   size h' = size h /\
   ((ok = true /\ r = idx /\ filled h' = wrap32 (filled h + 1)) \/
    (ok = false /\ r = 0 /\ filled h' = filled h))).
Proof.
  unfold htab_insert. destruct (Z.ltb_spec (filled h) (size h)) as [Hlt|Hge]; cbn.
  - destruct (tbl !! Z.to_nat idx) as [e0|] eqn:He; cbn; [|discriminate].
    destruct ok; intros [= <- <-]; right; cbn; eauto 10.
  - intros [= <- <-]. left. split; [lia|split; reflexivity].
Qed.

(** ** htab_destroy *)

Lemma destroy_step_eq (h : htab_table) (i : Z) (tbl : list htab_entry) :
  size h + 1 < 2 ^ 32 -> 0 <= size h ->
  destroy_step h (i, tbl) =
    if i <? size h + 1 then
      e ← tbl !! Z.to_nat i;
      Some (inl (i + 1,
                 if negb (used e =? 0)
                 then <[Z.to_nat i := {| used := used e; str := NULL |}]> tbl
                 else tbl))
    else Some (inr tbl).
Proof. intros H1 H2. unfold destroy_step. rewrite wrap32_small by lia. reflexivity. Qed.

Lemma destroy_loop_terminates (h : htab_table) (d : nat) (i : Z) (tbl : list htab_entry) :
  size h + 1 < 2 ^ 32 -> 0 <= size h -> 0 <= i ->
  length tbl = Z.to_nat (size h + 1) -> i + Z.of_nat d = size h + 1 ->
  exists tbl', loop_nat (destroy_step h) (S d) (i, tbl) = Some (inr tbl').
Proof.
  intros Hc Hc0. revert i tbl. induction d as [|d IH]; intros i tbl Hi Hlen Hd;
    rewrite loop_nat_S, destroy_step_eq by assumption.
  - destruct (Z.ltb_spec i (size h + 1)); [lia|]. cbn. eauto.
  - destruct (Z.ltb_spec i (size h + 1)); [|lia].
    destruct (lookup_lt_is_Some_2 tbl (Z.to_nat i) ltac:(lia)) as [e He].
    rewrite He. cbn [mbind option_bind continue].
    apply IH; [lia| |lia].
    destruct (negb (used e =? 0)); [rewrite length_insert|]; exact Hlen.
Qed.

Lemma htab_destroy_live (h : htab_table) (tbl : list htab_entry) :
  live h tbl -> htab_destroy (Ptr h) = Some (Ptr HTAB_EMPTY).
Proof.
  intros [Ht Hs _ Hlen _]. unfold htab_destroy. rewrite Ht.
  destruct (destroy_loop_terminates h (Z.to_nat (size h + 1)) 0 tbl) as [tbl' Hloop];
    [lia|lia|lia|exact Hlen|lia|].
  rewrite (run_loop_intro _ _ _ _ Hloop) by lia. reflexivity.
Qed.

Lemma htab_destroy_null_table (h : htab_table) :
  table h = NULL -> htab_destroy (Ptr h) = Some (Ptr h).
Proof. intros E. unfold htab_destroy. rewrite E. reflexivity. Qed.

(** ** Reachable states are shaped *)

Lemma htab_hash_shaped (key : ptr string) (ok : bool) (idx : Z) (h h' : htab_table) :
  shaped h -> htab_hash key (Ptr h) ok = Some (idx, Ptr h') -> shaped h'.
Proof.
  unfold shaped. intros Hsh. destruct (table h) as [|tbl] eqn:Ht.
  - unfold htab_hash. rewrite Ht. intros [= <- <-]. rewrite Ht. exact Hsh.
  - destruct key as [|s]; [unfold htab_hash; rewrite Ht; intros [= <- <-]; rewrite Ht; exact Hsh|].
    rewrite (htab_hash_live h tbl s ok Ht).
    destruct (primary_hash s (size h)) as [hval|]; cbn; [|discriminate].
    destruct (htab_search tbl (size h) hval s) as [[i|i]|]; cbn; [| |discriminate].
    + intros [= <- <-]. rewrite Ht. exact Hsh.
    + intros Hins. destruct Hsh as [_ Hs Hp Hlen Hf].
      destruct (htab_insert_cases _ _ _ _ _ _ _ _ Hins)
        as [(_ & _ & ->)|(Hlt & _ & Ht' & Hs' & Hfill)].
      * rewrite Ht. constructor; auto.
      * rewrite Ht'. constructor; rewrite ?Hs'; auto.
        -- rewrite length_insert. exact Hlen.
        -- destruct Hfill as [(_ & _ & ->)|(_ & _ & ->)]; [|lia].
           rewrite wrap32_small; lia.
Qed.

Lemma reachable_shaped (h : htab_table) : reachable h -> shaped h.
Proof.
  induction 1 as [|nel ok b h h' _ IH Hu Hc|key ok idx h h' _ IH Hh|h h' _ IH Hd].
  - cbn. lia.
  - unfold shaped in IH. destruct (table h) as [|tbl] eqn:Ht.
    + destruct (htab_create_fresh nel h ok Hu Ht) as (c & E & Hp & Hodd & Hr).
      rewrite E in Hc. injection Hc as _ <-. unfold shaped. cbn.
      destruct ok; [|lia].
      constructor; cbn; try reflexivity; try lia.
      * apply accepted_size; [unfold is_uint32; lia|exact Hodd|exact Hp].
      * apply length_replicate.
    + rewrite htab_create_live in Hc by (rewrite Ht; discriminate).
      injection Hc as _ <-. unfold shaped. rewrite Ht. exact IH.
  - exact (htab_hash_shaped key ok idx h h' IH Hh).
  - unfold shaped in IH. destruct (table h) as [|tbl] eqn:Ht.
    + rewrite (htab_destroy_null_table h Ht) in Hd. injection Hd as <-.
      unfold shaped. rewrite Ht. exact IH.
    + rewrite (htab_destroy_live h tbl IH) in Hd. injection Hd as <-. cbn. lia.
Qed.

Lemma reachable_live (h : htab_table) (tbl : list htab_entry) :
  reachable h -> table h = Ptr tbl -> live h tbl.
Proof.
  intros Hr Ht. pose proof (reachable_shaped h Hr) as Hs.
  unfold shaped in Hs. rewrite Ht in Hs. exact Hs.
Qed.

(** ** Counting the slots in use *)

Lemma used_count_range (tbl : list htab_entry) :
  0 <= used_count tbl <= Z.of_nat (length tbl).
Proof.
  induction tbl as [|e tbl IH]; cbn [used_count length]; [lia|].
  destruct (used e =? 0); lia.
Qed.

Lemma used_count_lookup (tbl : list htab_entry) (i : nat) (e : htab_entry) :
  tbl !! i = Some e -> used e <> 0 -> 1 <= used_count tbl.
Proof.
  revert i. induction tbl as [|e0 tbl IH]; intros i Hi Hu; [discriminate|].
  cbn [used_count]. pose proof (used_count_range tbl).
  destruct i as [|i]; cbn in Hi.
  - injection Hi as ->. destruct (Z.eqb_spec (used e) 0); [contradiction|lia].
  - pose proof (IH i Hi Hu). destruct (used e0 =? 0); lia.
Qed.

Lemma used_count_all (tbl : list htab_entry) :
  (forall i e, tbl !! i = Some e -> used e <> 0) ->
  used_count tbl = Z.of_nat (length tbl).
Proof.
  induction tbl as [|e tbl IH]; intros H; cbn [used_count length]; [reflexivity|].
  rewrite IH by (intros i e' Hi; exact (H (S i) e' Hi)).
  pose proof (H 0%nat e eq_refl). destruct (Z.eqb_spec (used e) 0); [contradiction|lia].
Qed.

Lemma used_count_insert (tbl : list htab_entry) (i : nat) (e e' : htab_entry) :
  tbl !! i = Some e ->
  used_count (<[i := e']> tbl) =
    used_count tbl - (if used e =? 0 then 0 else 1) + (if used e' =? 0 then 0 else 1).
Proof.
  revert i. induction tbl as [|e0 tbl IH]; intros i Hi; [discriminate|].
  destruct i as [|i]; cbn in Hi.
  - injection Hi as ->. change (<[0%nat:=e']> (e :: tbl)) with (e' :: tbl).
    cbn [used_count]. lia.
  - change (<[S i:=e']> (e0 :: tbl)) with (e0 :: <[i:=e']> tbl).
    cbn [used_count]. rewrite (IH i Hi). lia.
Qed.

(** A slot array whose slot 0 is not in use and whose slots [1, size] all
    are holds [size] used slots. *)
Lemma used_count_full (tbl : list htab_entry) (c : Z) :
  0 <= c -> length tbl = Z.to_nat (c + 1) ->
  (exists e0, tbl !! 0%nat = Some e0 /\ used e0 = 0) ->
  (forall i, 1 <= i <= c -> exists e, tbl !! Z.to_nat i = Some e /\ used e <> 0) ->
  used_count tbl = c.
Proof.
  intros Hc Hlen (e0 & H0 & Hu0) Hall.
  destruct tbl as [|e1 tbl]; [discriminate|]. cbn in H0. injection H0 as ->.
  cbn [used_count]. rewrite Hu0. cbn [Z.eqb]. cbn [length] in Hlen.
  rewrite used_count_all; [lia|].
  intros i e Hi. pose proof (lookup_lt_Some _ _ _ Hi) as Hlt.
  destruct (Hall (Z.of_nat (S i)) ltac:(lia)) as (e' & He' & Hu').
  rewrite Nat2Z.id in He'. change ((e0 :: tbl) !! S i) with (tbl !! i) in He'.
  rewrite Hi in He'. injection He' as <-. exact Hu'.
Qed.

(** ** Keyed tables *)

Lemma entry_matches_true (hval : Z) (s : string) (e : htab_entry) :
  entry_matches hval s e = true -> used e = hval /\ deref_text (str e) = s.
Proof.
  unfold entry_matches, safe_strcmp_eq. intros H.
  apply andb_prop in H. destruct H as [H1 H2].
  apply Z.eqb_eq in H1. apply String.eqb_eq in H2. cbn in H2. auto.
Qed.

Lemma entry_matches_new (hval : Z) (s : string) :
  entry_matches hval s {| used := hval; str := Ptr s |} = true.
Proof.
  unfold entry_matches, safe_strcmp_eq. cbn. rewrite Z.eqb_refl, String.eqb_refl. reflexivity.
Qed.

(** No slot of a keyed table matches a key that was not entered. *)
Lemma slot_ok_no_match (c hval : Z) (keys : list string) (s : string) (e : htab_entry) :
  1 <= hval -> slot_ok c keys e -> s ∉ keys -> entry_matches hval s e = false.
Proof.
  intros Hh Hok Hs. destruct (entry_matches hval s e) eqn:Hm; [exfalso|reflexivity].
  apply entry_matches_true in Hm. destruct Hm as [Hu Ht].
  destruct Hok as [->|(k & Hk & Hstr & _)].
  - cbn in Hu. lia.
  - rewrite Hstr in Ht. cbn in Ht. subst k. contradiction.
Qed.

Lemma replicate_zero_count (n : nat) : used_count (replicate n zero_entry) = 0.
Proof. induction n as [|n IH]; cbn; [reflexivity|exact IH]. Qed.

(** A table just created is keyed, with no key. *)
Lemma htab_create_keyed (nel : Z) (h : htab_table) :
  is_uint32 nel -> table h = NULL ->
  exists h' tbl,
    htab_create nel (Ptr h) true = Some (true, Ptr h') /\ keyed h' tbl [] /\ filled h' = 0.
Proof.
  intros Hu Ht. destruct (htab_create_ok nel h Hu Ht) as (h' & tbl & E & Hl & Hf & Htbl).
  exists h', tbl. split; [exact E|]. split; [|exact Hf].
  pose proof (live_size _ _ Hl) as Hs.
  constructor.
  - exact Hl.
  - rewrite Htbl. apply lookup_replicate. split; [reflexivity|lia].
  - intros i e Hi. rewrite Htbl in Hi. apply lookup_replicate in Hi.
    left. apply Hi.
  - rewrite Hf, Htbl, replicate_zero_count. reflexivity.
Qed.

Lemma passed_over_used (tbl : list htab_entry) (hval : Z) (s : string) (i : Z) :
  passed_over tbl hval s i -> exists e, tbl !! Z.to_nat i = Some e /\ used e <> 0.
Proof. intros (e & He & Hu & _). eauto. Qed.

(** A search that comes back to its start in a table of prime size has
    stepped over every slot of [1, size]. *)
Lemma exhausted_all_used (tbl : list htab_entry) (c hval hval2 : Z) (s : string) (K : nat) :
  3 <= c < 2 ^ 32 -> Z.prime c -> 1 <= hval < c -> 1 <= hval2 <= c - 2 ->
  passed_over tbl hval s hval ->
  (0 < K)%nat ->
  (forall j, (0 < j < K)%nat ->
     probe_idx c hval hval2 j <> hval /\ passed_over tbl hval s (probe_idx c hval hval2 j)) ->
  probe_idx c hval hval2 K = hval ->
  Z.of_nat K = c /\
  forall i, 1 <= i <= c -> exists e, tbl !! Z.to_nat i = Some e /\ used e <> 0.
Proof.
  intros Hc Hp Hh H2 H0 HK Hb Hback.
  pose proof (probe_idx_back c hval hval2 Hc Hh H2 Hp K HK Hback) as Hge.
  assert (Z.of_nat K = c) as HKc.
  { destruct (Z.eq_dec (Z.of_nat K) c) as [|Hne]; [assumption|exfalso].
    destruct (Hb (Z.to_nat c) ltac:(lia)) as [Hne' _].
    apply Hne'. apply probe_idx_period; assumption. }
  split; [exact HKc|].
  intros i Hi. destruct (probe_covers c hval hval2 Hc Hh H2 Hp i Hi) as (k & Hk & <-).
  destruct k as [|k].
  - exact (passed_over_used _ _ _ _ H0).
  - destruct (Hb (S k) ltac:(lia)) as [_ Hpo]. exact (passed_over_used _ _ _ _ Hpo).
Qed.

Section KeyedSearch.
Variables (h : htab_table) (tbl : list htab_entry) (keys : list string).
Variables (s : string) (hval : Z).
Hypothesis Hkeyed : keyed h tbl keys.
Hypothesis Hhval : primary_hash s (size h) = Some hval.

Lemma keyed_hval_range : 1 <= hval /\ (hval < size h \/ (size h = 1 /\ hval = 1)).
Proof.
  pose proof (live_size _ _ (keyed_live _ _ _ Hkeyed)) as Hs.
  destruct (primary_hash_range s (size h) ltac:(lia)) as (hv & E & Hr).
  rewrite Hhval in E. injection E as <-. exact Hr.
Qed.

(** The search in a keyed table returns.  It ends at a slot that holds
    the key, or at a slot for a new entry; while the table is not full,
    that one is a free slot of [1, size]. *)
Lemma keyed_search :
  exists res,
    htab_search tbl (size h) hval s = Some res /\
    match res with
    | Existing idx =>
      1 <= idx <= size h /\
      exists e, tbl !! Z.to_nat idx = Some e /\ entry_matches hval s e = true
    | NewEntry idx =>
      0 <= idx <= size h /\
      (filled h < size h ->
       1 <= idx /\ exists e, tbl !! Z.to_nat idx = Some e /\ used e = 0)
    end.
Proof.
  destruct Hkeyed as [Hl Hz Hslots Hcount].
  destruct Hl as [Ht Hs Hp Hlen Hf].
  destruct keyed_hval_range as [Hh1 Hh2].
  destruct Hp as [Hc1|[Hc3 Hprime]].
  - (* size 1: the only home is slot 1 *)
    assert (hval = 1) as Hv by lia. rewrite Hv. clear Hh1 Hh2.
    destruct (lookup_lt_is_Some_2 tbl 1%nat ltac:(rewrite Hlen; lia)) as [e1 He1].
    destruct (Z.eq_dec (used e1) 0) as [Hu|Hu].
    + exists (NewEntry 1). split; [|split; [lia|intros _; split; [lia|eauto]]].
      apply htab_search_complete. exact (trace_fresh tbl (size h) 1 s e1 He1 Hu).
    + destruct (entry_matches 1 s e1) eqn:Hm1.
      * exists (Existing 1). split; [|split; [lia|eauto]].
        apply htab_search_complete. exact (trace_home tbl (size h) 1 s e1 He1 Hu Hm1).
      * pose proof (used_count_lookup tbl 1%nat e1 He1 Hu) as Hcnt.
        exists (NewEntry 0). split; [|split; [lia|intros Hlt; lia]].
        apply htab_search_complete. rewrite Hc1.
        apply (trace_probe tbl 1 1 s 2 1%nat).
        -- exists e1. split; [exact He1|]. split; [exact Hu|exact Hm1].
        -- reflexivity.
        -- lia.
        -- lia.
        -- intros j Hj. lia.
        -- cbn. split; [reflexivity|]. right. split; [discriminate|].
           exists zero_entry. split; [exact Hz|]. split; reflexivity.
  - assert (1 <= hval < size h) as Hh by lia.
    destruct (htab_search_defined tbl (size h) hval s ltac:(lia) Hlen Hh)
      as (res & Hsearch & Hidx).
    exists res. split; [exact Hsearch|].
    pose proof (htab_search_trace _ _ _ _ _ Hsearch) as Htr.
    destruct Htr as [e He Hu|e He Hu Hm|hval2 K res Hpo H2 HK HK32 Hb Hstop].
    + split; [lia|]. intros _. split; [lia|eauto].
    + split; [lia|eauto].
    + destruct (secondary_hash_range hval (size h) ltac:(lia) ltac:(lia))
        as (hv2 & E2 & Hr2).
      rewrite H2 in E2. injection E2 as <-.
      destruct res as [idx|idx]; cbn in Hstop, Hidx.
      * destruct Hstop as (-> & _ & e & He & Hm). split; [lia|eauto].
      * destruct Hstop as (-> & Hcase). split; [lia|]. intros Hlt. split; [lia|].
        destruct Hcase as [Hback|(_ & e & He & _ & Hu)]; [exfalso|eauto].
        destruct (exhausted_all_used tbl (size h) hval hval2 s K
                    ltac:(lia) Hprime Hh Hr2 Hpo HK Hb Hback) as [_ Hall].
        rewrite (used_count_full tbl (size h)) in Hcount; [lia|lia|exact Hlen| |exact Hall].
        exists zero_entry. split; [exact Hz|reflexivity].
Qed.

(** A key that was never entered is not found. *)
Lemma keyed_search_new :
  s ∉ keys ->
  exists idx,
    htab_search tbl (size h) hval s = Some (NewEntry idx) /\
    0 <= idx <= size h /\
    (filled h < size h ->
     1 <= idx /\ exists e, tbl !! Z.to_nat idx = Some e /\ used e = 0).
Proof.
  intros Hnew. destruct keyed_search as ([idx|idx] & Hsearch & Hres).
  - destruct Hres as (_ & e & He & Hm).
    rewrite (slot_ok_no_match (size h) hval keys s e) in Hm; [discriminate| | |exact Hnew].
    + apply keyed_hval_range.
    + exact (keyed_slots _ _ _ Hkeyed _ e He).
  - exists idx. auto.
Qed.

(** Writing the key into a free slot of [1, size] keeps the table keyed. *)
Lemma keyed_insert (idx : Z) (e : htab_entry) :
  1 <= idx <= size h -> tbl !! Z.to_nat idx = Some e -> used e = 0 ->
  filled h < size h ->
  exists h' tbl',
    htab_insert h tbl hval idx s true = Some (idx, Ptr h') /\
    keyed h' tbl' (s :: keys) /\ filled h' = filled h + 1 /\ size h' = size h.
Proof.
  intros Hidx He Hu Hlt.
  destruct Hkeyed as [Hl Hz Hslots Hcount].
  pose proof Hl as [Ht Hs Hp Hlen Hf].
  destruct keyed_hval_range as [Hh1 Hh2].
  eexists _, _. unfold htab_insert.
  destruct (Z.ltb_spec (filled h) (size h)) as [_|]; [|lia]. rewrite He. cbn.
  rewrite wrap32_small by lia.
  split; [reflexivity|]. split; [|split; reflexivity].
  constructor; cbn.
  - constructor; cbn; auto; [rewrite length_insert; exact Hlen|lia].
  - rewrite list_lookup_insert_ne by lia. exact Hz.
  - intros i e' Hi. destruct (Nat.eq_dec i (Z.to_nat idx)) as [->|Hne].
    + rewrite list_lookup_insert_eq in Hi by (apply lookup_lt_Some in He; exact He).
      injection Hi as <-. right. exists s. cbn.
      split; [apply list_elem_of_here|]. split; [reflexivity|exact Hhval].
    + rewrite list_lookup_insert_ne in Hi by congruence.
      destruct (Hslots i e' Hi) as [->|(k & Hk & Hstr & Hph)]; [left; reflexivity|].
      right. exists k. split; [apply list_elem_of_further; exact Hk|auto].
  - rewrite (used_count_insert tbl _ e _ He). cbn. rewrite Hu. cbn.
    destruct (Z.eqb_spec hval 0); lia.
Qed.
End KeyedSearch.

Lemma keyed_weaken (h : htab_table) (tbl : list htab_entry) (keys : list string) (s : string) :
  keyed h tbl keys -> keyed h tbl (s :: keys).
Proof.
  intros [Hl Hz Hslots Hcount]. constructor; auto.
  intros i e Hi. destruct (Hslots i e Hi) as [->|(k & Hk & Hstr & Hph)]; [left; reflexivity|].
  right. exists k. split; [apply list_elem_of_further; exact Hk|auto].
Qed.

Lemma keyed_primary_hash (h : htab_table) (tbl : list htab_entry) (keys : list string)
    (s : string) :
  keyed h tbl keys -> exists hval, primary_hash s (size h) = Some hval.
Proof.
  intros Hk. pose proof (live_size _ _ (keyed_live _ _ _ Hk)) as Hs.
  destruct (primary_hash_range s (size h) ltac:(lia)) as (hval & E & _). eauto.
Qed.

(** Entering a new key in a keyed table that is not full. *)
Lemma keyed_hash_new (h : htab_table) (tbl : list htab_entry) (keys : list string)
    (s : string) :
  keyed h tbl keys -> s ∉ keys -> filled h < size h ->
  exists idx h' tbl',
    htab_hash (Ptr s) (Ptr h) true = Some (idx, Ptr h') /\
    1 <= idx <= size h /\
    keyed h' tbl' (s :: keys) /\ filled h' = filled h + 1 /\ size h' = size h.
Proof.
  intros Hk Hnew Hlt.
  destruct (keyed_primary_hash h tbl keys s Hk) as [hval Hh].
  destruct (keyed_search_new h tbl keys s hval Hk Hh Hnew) as (idx & Hsearch & Hr & Hfree).
  destruct (Hfree Hlt) as (Hidx & e & He & Hu).
  destruct (keyed_insert h tbl keys s hval Hk Hh idx e ltac:(lia) He Hu Hlt)
    as (h' & tbl' & Hins & Hk' & Hf' & Hs').
  exists idx, h', tbl'.
  rewrite (htab_hash_live h tbl s true (live_table _ _ (keyed_live _ _ _ Hk))).
  rewrite Hh. cbn. rewrite Hsearch. cbn. rewrite Hins.
  split; [reflexivity|]. split; [lia|auto].
Qed.

(** A new key and a full keyed table: the call fails and changes nothing. *)
Lemma keyed_hash_full (h : htab_table) (tbl : list htab_entry) (keys : list string)
    (s : string) (ok : bool) :
  keyed h tbl keys -> s ∉ keys -> filled h = size h ->
  htab_hash (Ptr s) (Ptr h) ok = Some (0, Ptr h).
Proof.
  intros Hk Hnew Hfull.
  destruct (keyed_primary_hash h tbl keys s Hk) as [hval Hh].
  destruct (keyed_search_new h tbl keys s hval Hk Hh Hnew) as (idx & Hsearch & _).
  rewrite (htab_hash_live h tbl s ok (live_table _ _ (keyed_live _ _ _ Hk))).
  rewrite Hh. cbn. rewrite Hsearch. cbn. unfold htab_insert.
  destruct (Z.ltb_spec (filled h) (size h)); [lia|reflexivity].
Qed.

(** Any call whose key duplication succeeds keeps the table keyed. *)
Lemma keyed_hash (h : htab_table) (tbl : list htab_entry) (keys : list string)
    (s : string) :
  keyed h tbl keys ->
  exists idx h' tbl',
    htab_hash (Ptr s) (Ptr h) true = Some (idx, Ptr h') /\ keyed h' tbl' (s :: keys).
Proof.
  intros Hk.
  destruct (keyed_primary_hash h tbl keys s Hk) as [hval Hh].
  destruct (keyed_search h tbl keys s hval Hk Hh) as (res & Hsearch & Hres).
  rewrite (htab_hash_live h tbl s true (live_table _ _ (keyed_live _ _ _ Hk))).
  rewrite Hh. cbn. rewrite Hsearch. cbn.
  destruct res as [idx|idx].
  - exists idx, h, tbl. split; [reflexivity|apply keyed_weaken; exact Hk].
  - destruct Hres as [Hr Hfree].
    destruct (Z_lt_le_dec (filled h) (size h)) as [Hlt|Hge].
    + destruct (Hfree Hlt) as (Hidx & e & He & Hu).
      destruct (keyed_insert h tbl keys s hval Hk Hh idx e ltac:(lia) He Hu Hlt)
        as (h' & tbl' & Hins & Hk' & _).
      exists idx, h', tbl'. auto.
    + exists 0, h, tbl. unfold htab_insert.
      destruct (Z.ltb_spec (filled h) (size h)); [lia|].
      split; [reflexivity|apply keyed_weaken; exact Hk].
Qed.

Lemma insert_all_distinct (ks : list string) :
  forall (h : htab_table) (tbl : list htab_entry) (keys : list string),
  keyed h tbl keys -> NoDup ks -> (forall k, k ∈ ks -> k ∉ keys) ->
  filled h + Z.of_nat (length ks) <= size h ->
  exists idxs h' tbl' keys',
    insert_all ks (Ptr h) = Some (idxs, Ptr h') /\
    Forall (fun idx => 1 <= idx <= size h) idxs /\
    keyed h' tbl' keys' /\ (forall k, k ∈ keys' <-> k ∈ ks \/ k ∈ keys) /\
    filled h' = filled h + Z.of_nat (length ks) /\ size h' = size h.
Proof.
  induction ks as [|k ks IH]; intros h tbl keys Hk Hnd Hnew Hroom.
  - exists [], h, tbl, keys. cbn. split; [reflexivity|]. split; [constructor|].
    split; [exact Hk|]. split; [|lia].
    intros k. split; [auto|]. intros [H|H]; [inversion H|exact H].
  - apply NoDup_cons in Hnd. destruct Hnd as [Hk_ks Hnd]. cbn [length] in Hroom.
    destruct (keyed_hash_new h tbl keys k Hk (Hnew k (list_elem_of_here _ _)) ltac:(lia))
      as (idx & h1 & tbl1 & E1 & Hidx & Hk1 & Hf1 & Hs1).
    destruct (IH h1 tbl1 (k :: keys) Hk1 Hnd) as (idxs & h' & tbl' & keys' & E & Hall & Hk' & Hmem & Hf' & Hs').
    { intros x Hx Hin. apply elem_of_cons in Hin. destruct Hin as [->|Hin].
      - contradiction.
      - exact (Hnew x (list_elem_of_further _ _ _ Hx) Hin). }
    { lia. }
    exists (idx :: idxs), h', tbl', keys'. cbn [insert_all]. rewrite E1. cbn. rewrite E. cbn.
    split; [reflexivity|]. split; [constructor; [exact Hidx|]|].
    { rewrite Hs1 in Hall. exact Hall. }
    split; [exact Hk'|]. split; [|lia].
    intros x. rewrite Hmem, !elem_of_cons. tauto.
Qed.

(** ** Looking a key up again *)

Lemma primary_hash_nonzero (s : string) (c hval : Z) :
  primary_hash s c = Some hval -> hval <> 0.
Proof.
  unfold primary_hash, umod. destruct (c =? 0); cbn; [discriminate|].
  destruct (Z.eqb_spec (raw_hash s mod c) 0) as [->|Hne]; intros [= <-].
  - discriminate.
  - exact Hne.
Qed.

(** Once the key is written into the slot the search ended at, the search
    finds it there. *)
Lemma search_after_insert (tbl : list htab_entry) (c hval : Z) (s : string) (idx : Z) :
  hval <> 0 ->
  htab_search tbl c hval s = Some (NewEntry idx) ->
  is_Some (tbl !! Z.to_nat idx) ->
  htab_search (<[Z.to_nat idx := {| used := hval; str := Ptr s |}]> tbl) c hval s
    = Some (Existing idx).
Proof.
  intros Hh Hsearch Hin. apply lookup_lt_is_Some_1 in Hin.
  apply htab_search_complete.
  pose proof (htab_search_trace _ _ _ _ _ Hsearch) as Htr.
  remember (NewEntry idx) as r eqn:Er.
  destruct Htr as [e He Hu|e He Hu Hm|hval2 K res Hpo H2 HK HK32 Hb Hstop].
  - injection Er as <-.
    apply (trace_home _ _ _ _ {| used := hval; str := Ptr s |}).
    + apply list_lookup_insert_eq. exact Hin.
    + exact Hh.
    + apply entry_matches_new.
  - discriminate.
  - subst res. destruct Hstop as (Ei & [Hback|(Hne & e & He & Hm & Hu)]).
    + rewrite <- Ei in Hback. rewrite Hback in *.
      apply (trace_home _ _ _ _ {| used := hval; str := Ptr s |}).
      * apply list_lookup_insert_eq. exact Hin.
      * exact Hh.
      * apply entry_matches_new.
    + rewrite <- Ei in Hne, He.
      assert (forall j, passed_over tbl hval s j ->
                passed_over (<[Z.to_nat idx := {| used := hval; str := Ptr s |}]> tbl) hval s j)
        as Hkeep.
      { intros j (e' & He' & Hu' & Hm'). exists e'. split; [|auto].
        rewrite list_lookup_insert_ne; [exact He'|].
        intros E. rewrite E in He. congruence. }
      apply (trace_probe _ _ _ _ hval2 K); try assumption.
      * apply Hkeep. exact Hpo.
      * intros j Hj. destruct (Hb j Hj) as [Hj1 Hj2]. split; [exact Hj1|apply Hkeep; exact Hj2].
      * cbn. split; [exact Ei|]. rewrite <- Ei. split; [exact Hne|].
        exists {| used := hval; str := Ptr s |}.
        split; [apply list_lookup_insert_eq; exact Hin|apply entry_matches_new].
Qed.

(** After a call whose key duplication did not fail, the same key gets the
    same answer and the table stays as it is, whatever the table was. *)
Lemma htab_hash_again (h h1 : htab_table) (tbl : list htab_entry) (s : string) (r1 : Z) :
  table h = Ptr tbl ->
  htab_hash (Ptr s) (Ptr h) true = Some (r1, Ptr h1) ->
  forall ok2, htab_hash (Ptr s) (Ptr h1) ok2 = Some (r1, Ptr h1).
Proof.
  intros Ht Hfirst ok2. rewrite (htab_hash_live h tbl s true Ht) in Hfirst.
  destruct (primary_hash s (size h)) as [hval|] eqn:Hh; cbn in Hfirst; [|discriminate].
  destruct (htab_search tbl (size h) hval s) as [[idx|idx]|] eqn:Hsearch;
    cbn in Hfirst; [| |discriminate].
  - injection Hfirst as <- <-.
    rewrite (htab_hash_live h tbl s ok2 Ht), Hh. cbn. rewrite Hsearch. reflexivity.
  - destruct (htab_insert_cases _ _ _ _ _ _ _ _ Hfirst)
      as [(Hfull & -> & ->)|(Hlt & Hin & Ht1 & Hs1 & [(_ & -> & Hf1)|(Hok & _)])];
      [| |discriminate].
    + rewrite (htab_hash_live h tbl s ok2 Ht), Hh. cbn. rewrite Hsearch. cbn.
      unfold htab_insert. destruct (Z.ltb_spec (filled h) (size h)); [lia|reflexivity].
    + rewrite (htab_hash_live h1 _ s ok2 Ht1), Hs1, Hh. cbn.
      rewrite (search_after_insert tbl (size h) hval s idx
                 (primary_hash_nonzero _ _ _ Hh) Hsearch Hin).
      reflexivity.
Qed.

(** In a live table of size 3 or more the call always returns; the slot
    array keeps its slot 0, and the answer is an index of [0, size]. *)
Lemma htab_hash_defined (h : htab_table) (tbl : list htab_entry) (s : string) (ok : bool) :
  live h tbl -> 3 <= size h ->
  exists r h' tbl',
    htab_hash (Ptr s) (Ptr h) ok = Some (r, Ptr h') /\
    table h' = Ptr tbl' /\ size h' = size h /\
    tbl' !! 0%nat = tbl !! 0%nat /\ 0 <= r <= size h.
Proof.
  intros [Ht Hs Hp Hlen Hf] Hc3.
  destruct (primary_hash_range s (size h) ltac:(lia)) as (hval & Hh & Hh1 & Hh2).
  destruct (htab_search_defined tbl (size h) hval s ltac:(lia) Hlen ltac:(lia))
    as (res & Hsearch & Hidx).
  rewrite (htab_hash_live h tbl s ok Ht), Hh. cbn. rewrite Hsearch. cbn.
  destruct res as [idx|idx]; cbn in Hidx.
  - exists idx, h, tbl. split; [reflexivity|]. split; [exact Ht|].
    split; [reflexivity|]. split; [reflexivity|lia].
  - unfold htab_insert. destruct (Z.ltb_spec (filled h) (size h)); cbn.
    + destruct (slot_defined tbl (size h) ltac:(lia) Hlen idx ltac:(lia)) as [e He].
      rewrite He. cbn.
      destruct ok; eexists _, _, _; (split; [reflexivity|]); cbn;
        (split; [reflexivity|]); (split; [reflexivity|]);
        (split; [apply list_lookup_insert_ne; lia|lia]).
    + exists 0, h, tbl. split; [reflexivity|]. split; [exact Ht|].
      split; [reflexivity|]. split; [reflexivity|lia].
Qed.

(** ** Runs reach reachable states *)

Lemma run_call_reachable (c : call) (h h' : htab_table) (r : Z) :
  call_ok c -> reachable h -> run_call c h = Some (r, h') -> reachable h'.
Proof.
  intros Hok Hr H. destruct c as [nel ok|key ok|]; unfold run_call in H.
  - destruct (htab_create nel (Ptr h) ok) as [[b [|h1]]|] eqn:E; cbn in H; try discriminate.
    injection H as _ <-. exact (reach_create nel ok b h h1 Hr Hok E).
  - destruct (htab_hash (Ptr key) (Ptr h) ok) as [[idx [|h1]]|] eqn:E; cbn in H;
      try discriminate.
    injection H as _ <-. exact (reach_hash (Ptr key) ok idx h h1 Hr E).
  - destruct (htab_destroy (Ptr h)) as [[|h1]|] eqn:E; cbn in H; try discriminate.
    injection H as _ <-. exact (reach_destroy h h1 Hr E).
Qed.

Lemma run_reachable (cs : list call) (h h' : htab_table) (rs : list Z) :
  Forall call_ok cs -> reachable h -> run cs h = Some (rs, h') -> reachable h'.
Proof.
  revert h rs. induction cs as [|c cs IH]; intros h rs Hok Hr H; cbn [run] in H.
  - injection H as _ <-. exact Hr.
  - apply Forall_cons in Hok. destruct Hok as [Hc Hcs].
    destruct (run_call c h) as [[r h1]|] eqn:E1; cbn in H; [|discriminate].
    destruct (run cs h1) as [[rs' h2]|] eqn:E2; cbn in H; [|discriminate].
    injection H as _ <-. apply (IH h1 rs' Hcs); [|exact E2].
    exact (run_call_reachable c h h1 r Hc Hr E1).
Qed.

Lemma table_11_reachable : reachable table_11.
Proof.
  apply (run_reachable [Create 10 true] HTAB_EMPTY table_11 [1]).
  - repeat constructor; unfold is_uint32; lia.
  - exact reach_empty.
  - vm_compute. reflexivity.
Qed.

Lemma table_5_reachable : reachable table_5.
Proof.
  apply (run_reachable [Create 3 true] HTAB_EMPTY table_5 [1]).
  - repeat constructor; unfold is_uint32; lia.
  - exact reach_empty.
  - vm_compute. reflexivity.
Qed.

Lemma table_5_lost_slot_reachable : reachable table_5_lost_slot.
Proof.
  apply (run_reachable
           [Hash "a" true; Hash "b" true; Hash "c" false; Hash "d" true; Hash "e" true]
           table_5 table_5_lost_slot [2; 3; 0; 1; 5]).
  - repeat constructor.
  - exact table_5_reachable.
  - vm_compute. reflexivity.
Qed.

(** ** Supporting facts for the claims *)

(** X1.  When the key cannot be duplicated the call returns 0 and [filled]
    stays, but the slot the search ended at has already received the tag
    and is left with it and without key (htab_hash, lines 198-212). *)
Lemma htab_hash_failed_duplication (h : htab_table) (tbl : list htab_entry)
    (s : string) (hval idx : Z) :
  table h = Ptr tbl -> primary_hash s (size h) = Some hval ->
  htab_search tbl (size h) hval s = Some (NewEntry idx) ->
  is_Some (tbl !! Z.to_nat idx) -> filled h < size h ->
  htab_hash (Ptr s) (Ptr h) false =
    Some (0, Ptr {| table := Ptr (<[Z.to_nat idx := {| used := hval; str := NULL |}]> tbl);
                    size := size h; filled := filled h |}).
Proof.
  intros Ht Hh Hsearch [e He] Hlt.
  rewrite (htab_hash_live h tbl s false Ht), Hh. cbn. rewrite Hsearch. cbn.
  unfold htab_insert. destruct (Z.ltb_spec (filled h) (size h)); [|lia].
  cbn. rewrite He. reflexivity.
Qed.

(** X2.  The probe of a table of prime size: the step is in [1, size - 2],
    the first [size] indices are the slots of [1, size] in some order, the
    next one is the start again, and the loop is over within [size]
    iterations (htab_hash, lines 170-196). *)
Lemma probe_sequence_prime (tbl : list htab_entry) (c hval : Z) (s : string) :
  3 <= c < 2 ^ 32 -> Z.prime c -> length tbl = Z.to_nat (c + 1) -> 1 <= hval < c ->
  exists hval2,
    secondary_hash hval c = Some hval2 /\ 1 <= hval2 <= c - 2 /\
    probe_indices c hval hval2 ≡ₚ seqZ 1 c /\
    probe_idx c hval hval2 (Z.to_nat c) = hval /\
    exists (n : nat) (res : search_result),
      Z.of_nat n <= c /\
      loop_nat (probe_step tbl c hval hval2 s) n hval = Some (inr res).
Proof.
  intros Hc Hp Hlen Hh.
  destruct (secondary_hash_range hval c Hc ltac:(lia)) as (hval2 & H2 & Hr2).
  exists hval2. split; [exact H2|]. split; [exact Hr2|].
  split; [apply probe_indices_perm; assumption|].
  split; [apply probe_idx_period; assumption|].
  destruct (probe_loop_terminates tbl c hval s Hc Hlen Hh hval2 (Z.to_nat c - 1) 0 Hr2
              ltac:(lia)) as (n & res & Hn & Hloop & _).
  exists n, res. split; [lia|exact Hloop].
Qed.

(** The loop leaves at the start index only after stepping over every slot
    of [1, size]: all of them carry a tag. *)
Lemma probe_exhausted_all_used (tbl : list htab_entry) (c hval hval2 : Z) (s : string)
    (n : nat) :
  3 <= c < 2 ^ 32 -> Z.prime c -> 1 <= hval < c -> 1 <= hval2 <= c - 2 ->
  passed_over tbl hval s hval ->
  loop_nat (probe_step tbl c hval hval2 s) n hval = Some (inr (NewEntry hval)) ->
  forall i, 1 <= i <= c -> exists e, tbl !! Z.to_nat i = Some e /\ used e <> 0.
Proof.
  intros Hc Hp Hh H2 Hpo Hloop.
  destruct (probe_loop_trace tbl c hval hval2 s n 0 _ Hloop) as (K & HK & Hb & Hstop).
  cbn in Hstop. destruct Hstop as [Hback _].
  apply (exhausted_all_used tbl c hval hval2 s K Hc Hp Hh H2 Hpo ltac:(lia) Hb).
  symmetry. exact Hback.
Qed.

(** In a table where no key duplication has failed this happens only when
    [filled] equals the size. *)
Lemma keyed_exhausted_full (h : htab_table) (tbl : list htab_entry) (keys : list string)
    (hval hval2 : Z) (s : string) (n : nat) :
  keyed h tbl keys -> Z.prime (size h) -> 1 <= hval < size h -> 1 <= hval2 <= size h - 2 ->
  passed_over tbl hval s hval ->
  loop_nat (probe_step tbl (size h) hval hval2 s) n hval = Some (inr (NewEntry hval)) ->
  filled h = size h.
Proof.
  intros [Hl Hz Hslots Hcount] Hp Hh H2 Hpo Hloop.
  destruct Hl as [Ht Hs _ Hlen Hf].
  rewrite Hcount. apply used_count_full; [lia|exact Hlen| |].
  - exists zero_entry. split; [exact Hz|reflexivity].
  - apply (probe_exhausted_all_used tbl (size h) hval hval2 s n); try assumption. lia.
Qed.

(** In a table where no key duplication has failed a slot carries a tag
    exactly when it holds a key, and the tag is the primary hash of the key. *)
Lemma keyed_slot_tags (h : htab_table) (tbl : list htab_entry) (keys : list string)
    (i : nat) (e : htab_entry) :
  keyed h tbl keys -> tbl !! i = Some e ->
  (used e <> 0 <-> str e <> NULL) /\
  (forall k, str e = Ptr k -> primary_hash k (size h) = Some (used e)).
Proof.
  intros Hk Hi. destruct (keyed_slots _ _ _ Hk i e Hi) as [->|(k & _ & Hstr & Hph)].
  - cbn. split; [split; intros H; exfalso; apply H; reflexivity|intros k; discriminate].
  - split.
    + split; intros _; [rewrite Hstr; discriminate|exact (primary_hash_nonzero _ _ _ Hph)].
    + intros k' Hk'. rewrite Hstr in Hk'. injection Hk' as <-. exact Hph.
Qed.

Lemma keyed_insert_all (ks : list string) :
  forall (h : htab_table) (tbl : list htab_entry) (keys : list string),
  keyed h tbl keys ->
  exists idxs h' tbl' keys',
    insert_all ks (Ptr h) = Some (idxs, Ptr h') /\ keyed h' tbl' keys'.
Proof.
  induction ks as [|k ks IH]; intros h tbl keys Hk.
  - exists [], h, tbl, keys. split; [reflexivity|exact Hk].
  - destruct (keyed_hash h tbl keys k Hk) as (idx & h1 & tbl1 & E1 & Hk1).
    destruct (IH h1 tbl1 (k :: keys) Hk1) as (idxs & h' & tbl' & keys' & E & Hk').
    exists (idx :: idxs), h', tbl', keys'. cbn [insert_all]. rewrite E1. cbn. rewrite E.
    split; [reflexivity|exact Hk'].
Qed.

(** In a live table of size 3 or more, slot 0 is as [calloc] left it. *)
Lemma reachable_slot_0 (h : htab_table) :
  reachable h ->
  forall tbl, table h = Ptr tbl -> 3 <= size h -> tbl !! 0%nat = Some zero_entry.
Proof.
  induction 1 as [|nel ok b h h' Hr IH Hu Hc|key ok idx h h' Hr IH Hh|h h' Hr IH Hd];
    intros tbl' Ht' Hc3.
  - discriminate.
  - destruct (table h) as [|tbl] eqn:Ht.
    + destruct (htab_create_fresh nel h ok Hu Ht) as (c & E & _ & _ & Hrange).
      rewrite E in Hc. injection Hc as _ <-. cbn in Ht', Hc3.
      destruct ok; [|discriminate]. injection Ht' as <-.
      apply lookup_replicate. split; [reflexivity|lia].
    + rewrite htab_create_live in Hc by (rewrite Ht; discriminate).
      injection Hc as _ <-. apply IH; [congruence|exact Hc3].
  - destruct (table h) as [|tbl] eqn:Ht.
    + unfold htab_hash in Hh. rewrite Ht in Hh. injection Hh as _ <-. congruence.
    + destruct key as [|s].
      * unfold htab_hash in Hh. rewrite Ht in Hh. injection Hh as _ <-.
        apply IH; [congruence|exact Hc3].
      * pose proof (reachable_live h tbl Hr Ht) as Hl.
        pose proof (htab_hash_shaped _ _ _ _ _ (reachable_shaped h Hr) Hh) as Hsh.
        assert (size h' = size h) as Hsz.
        { rewrite (htab_hash_live h tbl s ok Ht) in Hh.
          destruct (primary_hash s (size h)) as [hval|]; cbn in Hh; [|discriminate].
          destruct (htab_search tbl (size h) hval s) as [[i|i]|]; cbn in Hh; [| |discriminate].
          - injection Hh as _ <-. reflexivity.
          - destruct (htab_insert_cases _ _ _ _ _ _ _ _ Hh) as [(_ & _ & ->)|(_ & _ & _ & E & _)];
              [reflexivity|exact E]. }
        destruct (htab_hash_defined h tbl s ok Hl ltac:(lia))
          as (r & h2 & tbl2 & E & Ht2 & _ & H0 & _).
        rewrite E in Hh. injection Hh as _ <-.
        rewrite Ht2 in Ht'. injection Ht' as <-. rewrite H0. apply IH; [reflexivity|lia].
  - destruct (table h) as [|tbl] eqn:Ht.
    + rewrite (htab_destroy_null_table h Ht) in Hd. injection Hd as <-. congruence.
    + rewrite (htab_destroy_live h tbl (reachable_live h tbl Hr Ht)) in Hd.
      injection Hd as <-. discriminate.
Qed.

(** An index equal to the size is a slot like any other: in a table of
    size 5 the keys "c", "h" and "m", which share the home 4, land in the
    slots 4, 2 and 5. *)
Lemma index_can_equal_size :
  exists h,
    run [Create 3 true; Hash "c" true; Hash "h" true; Hash "m" true] HTAB_EMPTY
      = Some ([1; 4; 2; 5], h) /\ size h = 5 /\ filled h = 3.
Proof. eexists. split; [vm_compute; reflexivity|split; reflexivity]. Qed.

(** Every call on a live table of size 3 or more returns an index of
    [0, size]. *)
Lemma reachable_hash_index (h : htab_table) (tbl : list htab_entry) (s : string) (ok : bool) :
  reachable h -> table h = Ptr tbl -> 3 <= size h ->
  exists r h', htab_hash (Ptr s) (Ptr h) ok = Some (r, Ptr h') /\ 0 <= r <= size h.
Proof.
  intros Hr Ht Hc3.
  destruct (htab_hash_defined h tbl s ok (reachable_live h tbl Hr Ht) Hc3)
    as (r & h' & _ & E & _ & _ & _ & Hrange).
  eauto.
Qed.

(** In a table of size 1 the probe can leave the slot array: after two
    failed key duplications both entries carry a tag, and the search for a
    third key steps from slot 1 to slot 0 and from there to the index
    [2^32 - 1].  This is why the calls are shown to return in tables of size
    3 or more only. *)
Lemma size_1_probe_leaves_array :
  reachable table_1_lost_slots /\
  htab_hash (Ptr "c") (Ptr table_1_lost_slots) true = None.
Proof.
  split.
  - apply (run_reachable [Create 1 true; Hash "a" false; Hash "b" false]
             HTAB_EMPTY table_1_lost_slots [1; 0; 0]).
    + repeat constructor; unfold is_uint32; lia.
    + exact reach_empty.
    + vm_compute. reflexivity.
  - rewrite (htab_hash_live table_1_lost_slots _ "c" true eq_refl).
    change (primary_hash "c" (size table_1_lost_slots)) with (Some 1).
    cbn [mbind option_bind size table_1_lost_slots].
    destruct (htab_search _ 1 1 "c") as [res|] eqn:Hsearch; [exfalso|reflexivity].
    pose proof (htab_search_trace _ _ _ _ _ Hsearch) as Htr.
    destruct Htr as [e He Hu|e He Hu Hm|hval2 K res Hpo H2 HK HK32 Hb Hstop].
    + injection He as <-. discriminate.
    + injection He as <-. discriminate.
    + vm_compute in H2. injection H2 as <-.
      assert (forall r, ~ stops_at [ {| used := 1; str := NULL |}; {| used := 1; str := NULL |} ]
                          1 "c" r 0) as Hno0.
      { intros [idx|idx]; cbn.
        - intros (_ & _ & e & [= <-] & Hm). discriminate.
        - intros (_ & [|(_ & e & [= <-] & _ & Hu)]); discriminate. }
      assert (forall r, ~ stops_at [ {| used := 1; str := NULL |}; {| used := 1; str := NULL |} ]
                          1 "c" r (2 ^ 32 - 1)) as Hno1.
      { intros [idx|idx]; cbn.
        - intros (_ & _ & e & He & _). apply lookup_lt_Some in He. cbn [length] in He. lia.
        - intros (_ & [|(_ & e & He & _)]); [discriminate|].
          apply lookup_lt_Some in He. cbn [length] in He. lia. }
      destruct K as [|[|[|K]]]; [lia| | |].
      * exact (Hno0 res Hstop).
      * exact (Hno1 res Hstop).
      * destruct (Hb 2%nat ltac:(lia)) as [_ (e & He & _)].
        change (probe_idx 1 1 2 2) with (2 ^ 32 - 1) in He.
        apply lookup_lt_Some in He. cbn [length] in He. lia.
Qed.

(** ** Where [htab_create] does find the smallest prime *)

Lemma prime_no_divisor (p d : Z) : Z.prime p -> 1 < d < p -> p mod d <> 0.
Proof.
  intros [_ Hp] Hd E. apply (Hp d Hd). apply Z.mod_divide; [lia|exact E].
Qed.

Lemma isprime_loop_prime (p : Z) (m : nat) (d : Z) :
  Z.prime p -> p <= 65535 * 65535 ->
  3 <= d < p -> d mod 2 = 1 -> (d = 3 \/ (d - 2) * (d - 2) < p) ->
  65537 <= d + 2 * Z.of_nat m ->
  exists d', loop_nat (isprime_step p) (S m) d = Some (inr d') /\ p mod d' <> 0.
Proof.
  intros Hp Hmax. revert d. induction m as [|m IH]; intros d Hd Hodd Hprev Hfuel;
    assert (d <= 65535) as Hd16 by nia;
    rewrite loop_nat_S, isprime_step_eq, (wrap32_small (d * d)) by nia;
    pose proof (prime_no_divisor p d Hp ltac:(lia)) as Hnd;
    destruct (Z.eqb_spec (p mod d) 0) as [|_]; try contradiction; cbn [negb];
    rewrite andb_true_r; destruct (Z.ltb_spec (d * d) p) as [Hlt|Hge];
    try (exists d; split; [reflexivity|exact Hnd]).
  - nia.
  - rewrite wrap32_small by lia. apply IH; [nia|lia|right; nia|lia].
Qed.

(** [isprime] is right on the primes from 5 up to [65535^2]. *)
Lemma isprime_complete (p : Z) :
  Z.prime p -> 5 <= p <= 65535 * 65535 -> isprime p = Some true.
Proof.
  intros Hp Hr.
  destruct (isprime_loop_prime p (Z.to_nat 32768) 3 Hp ltac:(lia) ltac:(lia) eq_refl
              ltac:(auto) ltac:(lia)) as (d' & Hloop & Hnd).
  rewrite isprime_unfold, (run_loop_intro _ _ _ _ Hloop) by lia. cbn.
  destruct (Z.eqb_spec (p mod d') 0); [contradiction|reflexivity].
Qed.

Lemma prime_odd (p : Z) : Z.prime p -> 3 <= p -> p mod 2 = 1.
Proof.
  intros [_ Hp] H3. destruct (Z.eq_dec (p mod 2) 1) as [|Hne]; [assumption|exfalso].
  apply (Hp 2 ltac:(lia)). apply Z.mod_divide; lia.
Qed.

(** X4.  For a requested size of 4 or more, and as long as there is a prime
    at or above it within [65535^2], the size [htab_create] settles on is
    the smallest prime at or above [nel | 1] (htab_create, lines 80-106). *)
Lemma htab_create_smallest_prime (nel p : Z) (h : htab_table) :
  is_uint32 nel -> table h = NULL -> 5 <= Z.lor nel 1 ->
  Z.prime p -> Z.lor nel 1 <= p <= 65535 * 65535 ->
  exists h',
    htab_create nel (Ptr h) true = Some (true, Ptr h') /\ filled h' = 0 /\
    Z.prime (size h') /\ Z.lor nel 1 <= size h' /\
    forall q, Z.prime q -> Z.lor nel 1 <= q -> size h' <= q.
Proof.
  intros Hu Ht H5 Hp Hr.
  destruct (create_size_exists nel Hu) as (c & Hw & Hc & Hodd & Hrange & Hmin).
  pose proof (isprime_complete p Hp ltac:(lia)) as Hpt.
  pose proof (prime_odd p Hp ltac:(lia)) as Hpodd.
  destruct Hmin as [[Hle Hmin]|(_ & _ & Hmin)].
  - eexists. unfold htab_create. rewrite Ht. cbn [is_null negb]. rewrite Hw. cbn.
    split; [reflexivity|]. split; [reflexivity|].
    destruct (accepted_size c ltac:(unfold is_uint32; lia) Hodd Hc) as [->|[_ Hcp]]; [lia|].
    split; [exact Hcp|]. split; [exact Hle|].
    assert (c <= p) as Hcp'.
    { destruct (Z_le_gt_dec c p) as [|Hgt]; [assumption|exfalso].
      rewrite (Hmin p ltac:(lia) Hpodd) in Hpt. discriminate. }
    intros q Hq Hge. destruct (Z_le_gt_dec c q) as [|Hgt]; [assumption|exfalso].
    pose proof (isprime_complete q Hq ltac:(lia)) as Hqt.
    rewrite (Hmin q ltac:(lia) (prime_odd q Hq ltac:(lia))) in Hqt. discriminate.
  - exfalso. rewrite (Hmin p ltac:(lia) Hpodd) in Hpt. discriminate.
Qed.

(** ** Instances of the supporting facts *)

Lemma table_11_keyed : keyed table_11 (replicate 12 zero_entry) [].
Proof.
  destruct (htab_create_keyed 10 HTAB_EMPTY) as (h' & tbl & Hc & Hk & _);
    [unfold is_uint32; lia|reflexivity|].
  rewrite create_10 in Hc. injection Hc as <-.
  pose proof (live_table _ _ (keyed_live _ _ _ Hk)) as Ht. cbn in Ht.
  injection Ht as <-. exact Hk.
Qed.

Lemma prime_11 : Z.prime 11.
Proof.
  destruct (isprime_sound 11) as [H|H]; [unfold is_uint32; lia|reflexivity| | |].
  - vm_compute. reflexivity.
  - lia.
  - exact H.
Qed.

Lemma htab_hash_failed_duplication_witness :
  htab_hash (Ptr "apple") (Ptr table_11) false =
    Some (0, Ptr {| table := Ptr (<[Z.to_nat 4 := {| used := 4; str := NULL |}]>
                                    (replicate 12 zero_entry));
                    size := size table_11; filled := filled table_11 |}).
Proof.
  apply (htab_hash_failed_duplication table_11 (replicate 12 zero_entry) "apple" 4 4).
  - reflexivity.
  - vm_compute. reflexivity.
  - vm_compute. reflexivity.
  - eexists. reflexivity.
  - cbn. lia.
Defined.

Lemma probe_sequence_prime_witness :
  exists hval2,
    secondary_hash 4 11 = Some hval2 /\ 1 <= hval2 <= 11 - 2 /\
    probe_indices 11 4 hval2 ≡ₚ seqZ 1 11 /\
    probe_idx 11 4 hval2 (Z.to_nat 11) = 4 /\
    exists (n : nat) (res : search_result),
      Z.of_nat n <= 11 /\
      loop_nat (probe_step (replicate 12 zero_entry) 11 4 hval2 "apple") n 4
        = Some (inr res).
Proof.
  apply (probe_sequence_prime (replicate 12 zero_entry) 11 4 "apple").
  - lia.
  - exact prime_11.
  - reflexivity.
  - lia.
Defined.

Lemma htab_create_smallest_prime_witness :
  exists h',
    htab_create 8 (Ptr HTAB_EMPTY) true = Some (true, Ptr h') /\ filled h' = 0 /\
    Z.prime (size h') /\ Z.lor 8 1 <= size h' /\
    forall q, Z.prime q -> Z.lor 8 1 <= q -> size h' <= q.
Proof.
  apply (htab_create_smallest_prime 8 11 HTAB_EMPTY).
  - unfold is_uint32. lia.
  - reflexivity.
  - vm_compute. discriminate.
  - exact prime_11.
  - vm_compute. split; discriminate.
Defined.

(** ** Keys stay where they are *)

Lemma search_existing_slot (tbl : list htab_entry) (c hval : Z) (s : string) (idx : Z) :
  htab_search tbl c hval s = Some (Existing idx) ->
  exists e, tbl !! Z.to_nat idx = Some e /\ entry_matches hval s e = true.
Proof.
  intros Hsearch. pose proof (htab_search_trace _ _ _ _ _ Hsearch) as Htr.
  remember (Existing idx) as res eqn:Er.
  destruct Htr as [e He Hu|e He Hu Hm|hval2 K res Hpo H2 HK HK32 Hb Hstop].
  - discriminate.
  - injection Er as <-. eauto.
  - subst res. destruct Hstop as (Ei & _ & e & He & Hm). rewrite <- Ei in He. eauto.
Qed.

Lemma search_existing_kept (tbl tbl' : list htab_entry) (c hval : Z) (s : string) (idx : Z) :
  hval <> 0 -> slots_kept tbl tbl' ->
  htab_search tbl c hval s = Some (Existing idx) ->
  htab_search tbl' c hval s = Some (Existing idx).
Proof.
  intros Hh Hkept Hsearch. apply htab_search_complete.
  pose proof (htab_search_trace _ _ _ _ _ Hsearch) as Htr.
  assert (forall j, passed_over tbl hval s j -> passed_over tbl' hval s j) as Hpass.
  { intros j (e & He & Hu & Hm). exists e. split; [|auto]. apply Hkept; assumption. }
  assert (forall e, entry_matches hval s e = true -> used e <> 0) as Hmatch.
  { intros e Hm. apply entry_matches_true in Hm. destruct Hm as [-> _]. exact Hh. }
  remember (Existing idx) as res eqn:Er.
  destruct Htr as [e He Hu|e He Hu Hm|hval2 K res Hpo H2 HK HK32 Hb Hstop].
  - discriminate.
  - apply (trace_home _ _ _ _ e); auto.
  - apply (trace_probe _ _ _ _ hval2 K); try assumption.
    + apply Hpass. exact Hpo.
    + intros j Hj. destruct (Hb j Hj) as [Hj1 Hj2]. split; [exact Hj1|apply Hpass; exact Hj2].
    + subst res. destruct Hstop as (Ei & Hne & e & He & Hm).
      cbn. split; [exact Ei|]. split; [exact Hne|]. exists e. split; [|exact Hm].
      apply Hkept; [exact He|apply Hmatch; exact Hm].
Qed.

Lemma entered_kept (tbl tbl' : list htab_entry) (c : Z) (s : string) (idx : Z) :
  slots_kept tbl tbl' -> entered tbl c s idx -> entered tbl' c s idx.
Proof.
  intros Hkept (hval & Hh & Hs). exists hval. split; [exact Hh|].
  apply (search_existing_kept tbl); [|exact Hkept|exact Hs].
  apply (primary_hash_nonzero s c). exact Hh.
Qed.

Lemma entered_key (tbl : list htab_entry) (c : Z) (s s' : string) (idx : Z) :
  entered tbl c s idx -> entered tbl c s' idx -> s = s'.
Proof.
  intros (hval & _ & Hs) (hval' & _ & Hs').
  destruct (search_existing_slot _ _ _ _ _ Hs) as (e & He & Hm).
  destruct (search_existing_slot _ _ _ _ _ Hs') as (e' & He' & Hm').
  assert (e' = e) as -> by congruence.
  apply entry_matches_true in Hm, Hm'. destruct Hm as [_ <-], Hm' as [_ <-]. reflexivity.
Qed.

Lemma entered_lookup (h : htab_table) (tbl : list htab_entry) (s : string) (idx : Z)
    (ok : bool) :
  table h = Ptr tbl -> entered tbl (size h) s idx ->
  htab_hash (Ptr s) (Ptr h) ok = Some (idx, Ptr h).
Proof.
  intros Ht (hval & Hh & Hs). rewrite (htab_hash_live h tbl s ok Ht), Hh. cbn.
  rewrite Hs. reflexivity.
Qed.

(** One call on a keyed table, the duplication succeeding: no slot in use
    changes, and the key is in the slot the call names. *)
Lemma keyed_hash_kept (h h' : htab_table) (tbl : list htab_entry) (keys : list string)
    (s : string) (idx : Z) :
  keyed h tbl keys -> htab_hash (Ptr s) (Ptr h) true = Some (idx, Ptr h') ->
  exists tbl',
    keyed h' tbl' (s :: keys) /\ size h' = size h /\ slots_kept tbl tbl' /\
    (filled h < size h -> 1 <= idx <= size h) /\
    (idx <> 0 -> entered tbl' (size h) s idx).
Proof.
  intros Hk Hhash.
  pose proof (live_table _ _ (keyed_live _ _ _ Hk)) as Ht.
  destruct (keyed_primary_hash h tbl keys s Hk) as [hval Hh].
  pose proof (primary_hash_nonzero _ _ _ Hh) as Hnz.
  destruct (keyed_search h tbl keys s hval Hk Hh) as (res & Hsearch & Hres).
  rewrite (htab_hash_live h tbl s true Ht), Hh in Hhash. cbn in Hhash.
  rewrite Hsearch in Hhash. cbn in Hhash.
  destruct res as [i|i].
  - injection Hhash as <- <-. exists tbl.
    split; [apply keyed_weaken; exact Hk|]. split; [reflexivity|].
    split; [intros j e He _; exact He|]. split; [intros _; apply Hres|].
    intros _. exists hval. auto.
  - destruct Hres as [Hi Hfree].
    destruct (Z_lt_le_dec (filled h) (size h)) as [Hlt|Hge].
    + destruct (Hfree Hlt) as (Hi1 & e & He & Hu).
      destruct (keyed_insert h tbl keys s hval Hk Hh i e ltac:(lia) He Hu Hlt)
        as (h'' & tbl' & Hins & Hk' & Hf' & Hs').
      rewrite Hins in Hhash. injection Hhash as <- <-.
      exists tbl'. split; [exact Hk'|]. split; [exact Hs'|].
      pose proof (live_table _ _ (keyed_live _ _ _ Hk')) as Ht'.
      destruct (htab_insert_cases _ _ _ _ _ _ _ _ Hins)
        as [(Hfull & _)|(_ & _ & Etbl & _)]; [lia|].
      assert (tbl' = <[Z.to_nat i := {| used := hval; str := Ptr s |}]> tbl) as ->
        by congruence.
      split; [|split; [intros _; lia|]].
      * intros j e' He' Hu'. rewrite list_lookup_insert_ne; [exact He'|].
        intros E. rewrite E in He. congruence.
      * intros _. exists hval. split; [exact Hh|].
        apply search_after_insert; [exact Hnz|exact Hsearch|eauto].
    + unfold htab_insert, if_not_assert in Hhash.
      destruct (Z.ltb_spec (filled h) (size h)); [lia|]. cbn in Hhash.
      injection Hhash as <- <-. exists tbl.
      split; [apply keyed_weaken; exact Hk|]. split; [reflexivity|].
      split; [intros j e He _; exact He|]. split; [intros; lia|]. intros H0. contradiction.
Qed.

Lemma entered_range (h : htab_table) (tbl : list htab_entry) (keys : list string)
    (s : string) (idx : Z) :
  keyed h tbl keys -> entered tbl (size h) s idx -> idx <> 0.
Proof.
  intros Hk (hval & Hh & Hs).
  destruct (keyed_search h tbl keys s hval Hk Hh) as (res & Hsearch & Hres).
  rewrite Hs in Hsearch. injection Hsearch as <-. lia.
Qed.

Lemma insert_all_kept (ks : list string) :
  forall (h h2 : htab_table) (tbl : list htab_entry) (keys : list string)
         (s : string) (idx : Z) (idxs : list Z),
  keyed h tbl keys -> entered tbl (size h) s idx ->
  insert_all ks (Ptr h) = Some (idxs, Ptr h2) ->
  exists tbl2 keys2,
    keyed h2 tbl2 keys2 /\ size h2 = size h /\ entered tbl2 (size h) s idx /\
    forall j k, ks !! j = Some k -> idxs !! j = Some idx -> k = s.
Proof.
  induction ks as [|k ks IH]; intros h h2 tbl keys s idx idxs Hk He Hall.
  - cbn in Hall. injection Hall as <- <-. exists tbl, keys.
    split; [exact Hk|]. split; [reflexivity|]. split; [exact He|].
    intros j k Hj. discriminate.
  - cbn [insert_all] in Hall.
    destruct (keyed_hash h tbl keys k Hk) as (i & h1 & tbl1' & Hhash & _).
    rewrite Hhash in Hall. cbn [mbind option_bind] in Hall.
    destruct (keyed_hash_kept h h1 tbl keys k i Hk Hhash)
      as (tbl1 & Hk1 & Hs1 & Hkept & _ & Hent).
    pose proof (entered_kept tbl tbl1 _ s idx Hkept He) as He1.
    destruct (insert_all ks (Ptr h1)) as [[idxs' p]|] eqn:Erest; [|discriminate].
    cbn [mbind option_bind] in Hall. injection Hall as <- ->.
    rewrite <- Hs1 in He1.
    destruct (IH h1 h2 tbl1 (k :: keys) s idx idxs' Hk1 He1 Erest)
      as (tbl2 & keys2 & Hk2 & Hs2 & He2 & Hidx).
    exists tbl2, keys2. split; [exact Hk2|]. split; [congruence|].
    split; [rewrite <- Hs1; exact He2|].
    intros [|j] k' Hj Hi; cbn in Hj, Hi.
    + injection Hj as <-. injection Hi as ->.
      rewrite Hs1 in He1. symmetry. apply (entered_key tbl1 (size h) s k idx He1).
      apply Hent. apply (entered_range h tbl keys s idx Hk He).
    + apply (Hidx j); assumption.
Qed.

(** X7.  The index of a key is stable.  In a table in which no key
    duplication has failed and that has a free slot, [htab_hash] returns for
    a string an index in [1, size]; after any list of further calls whose
    duplications succeed, the same string still gets that index, the call
    leaves the table as it is, and a later call that returned this index was
    made for this very string (htab_hash, lines 137-217). *)
Theorem htab_hash_index_is_stable (h : htab_table) (tbl : list htab_entry)
    (keys : list string) (s : string) :
  keyed h tbl keys -> filled h < size h ->
  exists idx h1,
    htab_hash (Ptr s) (Ptr h) true = Some (idx, Ptr h1) /\ 1 <= idx <= size h /\
    forall ks, exists idxs h2,
      insert_all ks (Ptr h1) = Some (idxs, Ptr h2) /\
      (forall ok, htab_hash (Ptr s) (Ptr h2) ok = Some (idx, Ptr h2)) /\
      (forall j k, ks !! j = Some k -> idxs !! j = Some idx -> k = s).
Proof.
  intros Hk Hlt.
  destruct (keyed_hash h tbl keys s Hk) as (idx & h1 & tbl1' & Hhash & _).
  destruct (keyed_hash_kept h h1 tbl keys s idx Hk Hhash)
    as (tbl1 & Hk1 & Hs1 & _ & Hidx & Hent).
  specialize (Hidx Hlt). specialize (Hent ltac:(lia)). rewrite <- Hs1 in Hent.
  exists idx, h1. split; [exact Hhash|]. split; [exact Hidx|]. intros ks.
  destruct (keyed_insert_all ks h1 tbl1 (s :: keys) Hk1) as (idxs & h2 & tbl2' & keys2' & Hall & _).
  exists idxs, h2. split; [exact Hall|].
  destruct (insert_all_kept ks h1 h2 tbl1 (s :: keys) s idx idxs Hk1 Hent Hall)
    as (tbl2 & keys2 & Hk2 & Hs2 & He2 & Hj).
  split; [|exact Hj]. intros ok.
  apply (entered_lookup h2 tbl2 s idx ok).
  - exact (live_table _ _ (keyed_live _ _ _ Hk2)).
  - rewrite Hs2. exact He2.
Qed.

Lemma htab_hash_index_is_stable_witness :
  exists idx h1,
    htab_hash (Ptr "apple") (Ptr table_11) true = Some (idx, Ptr h1) /\
    1 <= idx <= size table_11 /\
    forall ks, exists idxs h2,
      insert_all ks (Ptr h1) = Some (idxs, Ptr h2) /\
      (forall ok, htab_hash (Ptr "apple") (Ptr h2) ok = Some (idx, Ptr h2)) /\
      (forall j k, ks !! j = Some k -> idxs !! j = Some idx -> k = "apple").
Proof.
  apply (htab_hash_index_is_stable table_11 (replicate 12 zero_entry) []).
  - exact table_11_keyed.
  - cbn. lia.
Defined.

(** Entering distinct new keys while there is room. *)
Lemma insert_all_found (ks : list string) :
  forall (h : htab_table) (tbl : list htab_entry) (keys : list string),
  keyed h tbl keys -> NoDup ks -> (forall k, k ∈ ks -> k ∉ keys) ->
  filled h + Z.of_nat (length ks) <= size h ->
  exists idxs h',
    insert_all ks (Ptr h) = Some (idxs, Ptr h') /\
    length idxs = length ks /\ NoDup idxs /\
    filled h' = filled h + Z.of_nat (length ks) /\
    forall j k i ok, ks !! j = Some k -> idxs !! j = Some i ->
      1 <= i <= size h /\ htab_hash (Ptr k) (Ptr h') ok = Some (i, Ptr h').
Proof.
  induction ks as [|k ks IH]; intros h tbl keys Hk Hnd Hnew Hroom.
  - exists [], h. split; [reflexivity|]. split; [reflexivity|].
    split; [apply NoDup_nil; exact I|]. split; [cbn; lia|].
    intros j k i ok Hj. discriminate.
  - apply NoDup_cons in Hnd. destruct Hnd as [Hk_ks Hnd]. cbn [length] in Hroom.
    destruct (keyed_hash_new h tbl keys k Hk) as (idx & h1 & tbl1' & Hhash & Hidx & _ & Hf1 & _).
    { apply Hnew. apply list_elem_of_here. }
    { lia. }
    destruct (keyed_hash_kept h h1 tbl keys k idx Hk Hhash)
      as (tbl1 & Hk1 & Hs1 & _ & _ & Hent).
    specialize (Hent ltac:(lia)). rewrite <- Hs1 in Hent.
    destruct (IH h1 tbl1 (k :: keys) Hk1 Hnd) as (idxs & h' & Hall & Hlen & Hnd' & Hf' & Hget).
    { intros k' Hk'. rewrite not_elem_of_cons. split.
      - intros ->. contradiction.
      - apply Hnew. apply list_elem_of_further. exact Hk'. }
    { lia. }
    destruct (insert_all_kept ks h1 h' tbl1 (k :: keys) k idx idxs Hk1 Hent Hall)
      as (tbl2 & keys2 & Hk2 & Hs2 & He2 & Hj).
    exists (idx :: idxs), h'. cbn [insert_all]. rewrite Hhash. cbn [mbind option_bind].
    rewrite Hall. cbn [mbind option_bind].
    split; [reflexivity|]. split; [cbn [length]; lia|]. split; [|split; [cbn [length]; lia|]].
    + apply NoDup_cons. split; [|exact Hnd'].
      intros Hin. apply list_elem_of_lookup in Hin. destruct Hin as [j Hi].
      destruct (lookup_lt_is_Some_2 ks j) as [k' Hk'].
      { rewrite <- Hlen. apply lookup_lt_Some in Hi. exact Hi. }
      pose proof (Hj j k' Hk' Hi) as ->. apply Hk_ks.
      apply list_elem_of_lookup. exists j. exact Hk'.
    + intros [|j] k' i ok Hkj Hij; cbn in Hkj, Hij.
      * injection Hkj as <-. injection Hij as <-. split; [exact Hidx|].
        apply (entered_lookup h' tbl2 k idx ok).
        -- exact (live_table _ _ (keyed_live _ _ _ Hk2)).
        -- rewrite Hs2. exact He2.
      * destruct (Hget j k' i ok Hkj Hij) as [Hi1 Hi2]. split; [lia|exact Hi2].
Qed.

(** X8.  Entering distinct new keys while there is room: the calls return
    pairwise distinct indices in [1, size], [filled] grows by the number of
    keys, and afterwards each key is found at the index it was given, the
    table unchanged (htab_hash, lines 137-217). *)
Theorem insert_all_indexes (ks : list string) :
  forall (h : htab_table) (tbl : list htab_entry) (keys : list string),
  keyed h tbl keys -> NoDup ks -> (forall k, k ∈ ks -> k ∉ keys) ->
  filled h + Z.of_nat (length ks) <= size h ->
  exists idxs h',
    insert_all ks (Ptr h) = Some (idxs, Ptr h') /\
    length idxs = length ks /\ NoDup idxs /\
    filled h' = filled h + Z.of_nat (length ks) /\
    forall j k i ok, ks !! j = Some k -> idxs !! j = Some i ->
      1 <= i <= size h /\ htab_hash (Ptr k) (Ptr h') ok = Some (i, Ptr h').
Proof. exact (insert_all_found ks). Qed.

(** In a keyed table the slot a search ends at holds the key itself. *)
Lemma entered_slot (h : htab_table) (tbl : list htab_entry) (keys : list string)
    (k : string) (i : Z) :
  keyed h tbl keys -> entered tbl (size h) k i ->
  exists e, tbl !! Z.to_nat i = Some e /\ str e = Ptr k /\ used e <> 0.
Proof.
  intros Hk (hval & Hh & Hsearch).
  destruct (search_existing_slot _ _ _ _ _ Hsearch) as (e & He & Hm).
  apply entry_matches_true in Hm. destruct Hm as [Hused Htext].
  pose proof (primary_hash_nonzero _ _ _ Hh) as Hhnz.
  exists e. split; [exact He|]. split; [|lia].
  destruct (keyed_slots _ _ _ Hk _ e He) as [->|(k' & _ & Hstr & _)].
  - cbn in Hused. lia.
  - rewrite Hstr in Htext. cbn in Htext. rewrite Hstr, Htext. reflexivity.
Qed.

(** Any list of calls whose duplications succeed: the table stays keyed
    by the strings of the calls, and a call that returned an index other
    than 0 has its string in the slot of that index. *)
Lemma insert_all_entered (ks : list string) :
  forall (h h' : htab_table) (tbl : list htab_entry) (keys : list string)
         (idxs : list Z),
  keyed h tbl keys -> insert_all ks (Ptr h) = Some (idxs, Ptr h') ->
  exists tbl',
    keyed h' tbl' (reverse ks ++ keys)%list /\ size h' = size h /\
    forall j k i, ks !! j = Some k -> idxs !! j = Some i -> i <> 0 ->
                  entered tbl' (size h) k i.
Proof.
  induction ks as [|k ks IH]; intros h h' tbl keys idxs Hk Hall.
  - cbn in Hall. injection Hall as <- <-. exists tbl.
    split; [exact Hk|]. split; [reflexivity|]. intros j k i Hj. discriminate.
  - cbn [insert_all] in Hall.
    destruct (keyed_hash h tbl keys k Hk) as (i0 & h1 & tbl1' & Hhash & _).
    rewrite Hhash in Hall. cbn [mbind option_bind] in Hall.
    destruct (keyed_hash_kept h h1 tbl keys k i0 Hk Hhash)
      as (tbl1 & Hk1 & Hs1 & _ & _ & Hent).
    destruct (insert_all ks (Ptr h1)) as [[idxs' p']|] eqn:Erest; [|discriminate].
    cbn [mbind option_bind] in Hall. injection Hall as <- ->.
    destruct (IH h1 h' tbl1 (k :: keys) idxs' Hk1 Erest) as (tbl' & Hk' & Hs' & Hrest).
    exists tbl'. split; [|split; [congruence|]].
    + rewrite reverse_cons, <- app_assoc. exact Hk'.
    + intros [|j] k' i Hj Hi Hnz; cbn in Hj, Hi.
      * injection Hj as <-. injection Hi as ->.
        specialize (Hent Hnz). rewrite <- Hs1 in Hent.
        destruct (insert_all_kept ks h1 h' tbl1 (k :: keys) k i idxs' Hk1 Hent Erest)
          as (tbl2 & keys2 & Hk2 & _ & He2 & _).
        pose proof (live_table _ _ (keyed_live _ _ _ Hk2)) as T2.
        pose proof (live_table _ _ (keyed_live _ _ _ Hk')) as T'.
        assert (tbl2 = tbl') as <- by congruence.
        rewrite <- Hs1. exact He2.
      * rewrite <- Hs1. apply (Hrest j); assumption.
Qed.

(** X3.  The tags of the slots after [htab_create] and any list of
    [htab_hash] calls whose key duplications succeed: a slot carries a
    non-zero tag exactly when it holds a key; the key is the string of one of
    the calls and the tag is its primary hash; and every call that returned
    an index other than 0 has its string, under a non-zero tag, in the slot
    of that index (htab_hash, lines 137-217). *)
Theorem htab_hash_slot_tags (nel : Z) (h0 : htab_table) (ks : list string) :
  is_uint32 nel -> table h0 = NULL ->
  exists h idxs h' tbl',
    htab_create nel (Ptr h0) true = Some (true, Ptr h) /\
    insert_all ks (Ptr h) = Some (idxs, Ptr h') /\ table h' = Ptr tbl' /\
    (forall i e, tbl' !! i = Some e ->
       (used e <> 0 <-> str e <> NULL) /\
       (forall k, str e = Ptr k -> k ∈ ks /\ primary_hash k (size h') = Some (used e))) /\
    (forall j k i, ks !! j = Some k -> idxs !! j = Some i -> i <> 0 ->
       exists e, tbl' !! Z.to_nat i = Some e /\ str e = Ptr k /\ used e <> 0).
Proof.
  intros Hu Ht0.
  destruct (htab_create_keyed nel h0 Hu Ht0) as (h & tbl & Hc & Hk & _).
  destruct (keyed_insert_all ks h tbl [] Hk) as (idxs & h' & tbl0 & keys0 & Hall & _).
  destruct (insert_all_entered ks h h' tbl [] idxs Hk Hall) as (tbl' & Hk' & Hs' & Hent).
  rewrite app_nil_r in Hk'.
  exists h, idxs, h', tbl'. split; [exact Hc|]. split; [exact Hall|].
  split; [exact (live_table _ _ (keyed_live _ _ _ Hk'))|].
  assert (forall i e, tbl' !! i = Some e ->
            (used e <> 0 <-> str e <> NULL) /\
            (forall k, str e = Ptr k ->
                       k ∈ ks /\ primary_hash k (size h') = Some (used e))) as Hslots.
  { intros i e Hi.
    destruct (keyed_slots _ _ _ Hk' i e Hi) as [->|(k & Hin & Hstr & Hph)].
    - cbn. split; [split; intros H; exfalso; apply H; reflexivity|intros k; discriminate].
    - split.
      + split; intros _; [rewrite Hstr; discriminate|exact (primary_hash_nonzero _ _ _ Hph)].
      + intros k' Hk'e. rewrite Hstr in Hk'e. injection Hk'e as <-.
        split; [|exact Hph]. apply elem_of_reverse. exact Hin. }
  split; [exact Hslots|].
  intros j k i Hj Hi Hnz. apply (entered_slot h' tbl' (reverse ks) k i Hk').
  rewrite Hs'. exact (Hent j k i Hj Hi Hnz).
Qed.

Lemma htab_hash_slot_tags_witness :
  exists h idxs h' tbl',
    htab_create 10 (Ptr HTAB_EMPTY) true = Some (true, Ptr h) /\
    insert_all ["apple"; "banana"; "apple"] (Ptr h) = Some (idxs, Ptr h') /\
    table h' = Ptr tbl' /\
    (forall i e, tbl' !! i = Some e ->
       (used e <> 0 <-> str e <> NULL) /\
       (forall k, str e = Ptr k ->
          k ∈ ["apple"; "banana"; "apple"] /\
          primary_hash k (size h') = Some (used e))) /\
    (forall j k i, ["apple"; "banana"; "apple"] !! j = Some k -> idxs !! j = Some i ->
       i <> 0 ->
       exists e, tbl' !! Z.to_nat i = Some e /\ str e = Ptr k /\ used e <> 0).
Proof.
  apply (htab_hash_slot_tags 10 HTAB_EMPTY ["apple"; "banana"; "apple"]).
  - unfold is_uint32. lia.
  - reflexivity.
Defined.

Lemma insert_all_indexes_witness :
  exists idxs h',
    insert_all ["apple"; "banana"; "cherry"] (Ptr table_11) = Some (idxs, Ptr h') /\
    length idxs = length ["apple"; "banana"; "cherry"] /\ NoDup idxs /\
    filled h' = filled table_11 + Z.of_nat (length ["apple"; "banana"; "cherry"]) /\
    forall j k i ok, ["apple"; "banana"; "cherry"] !! j = Some k -> idxs !! j = Some i ->
      1 <= i <= size table_11 /\ htab_hash (Ptr k) (Ptr h') ok = Some (i, Ptr h').
Proof.
  apply (insert_all_indexes ["apple"; "banana"; "cherry"] table_11
           (replicate 12 zero_entry) []).
  - exact table_11_keyed.
  - repeat (apply NoDup_cons; split;
            [rewrite ?elem_of_cons, elem_of_nil; intuition discriminate|]).
    apply NoDup_nil. exact I.
  - intros k _. apply not_elem_of_nil.
  - cbn. lia.
Defined.

(** X5.  [isprime] on the odd 32-bit numbers: the loop ends although
    [divider * divider] can wrap; a number it accepts is 1 or a prime; and
    from 5 up to [65535^2] it accepts every prime (isprime, lines 63-72). *)
Theorem isprime_on_odd_numbers (number : Z) :
  is_uint32 number -> number mod 2 = 1 ->
  exists b,
    isprime number = Some b /\
    (b = true -> number = 1 \/ Z.prime number) /\
    (5 <= number <= 65535 * 65535 -> Z.prime number -> b = true).
Proof.
  intros Hn Hodd. destruct (isprime_total number Hn Hodd) as [b Hb].
  exists b. split; [exact Hb|]. split.
  - intros ->. apply isprime_sound; assumption.
  - intros Hr Hp. pose proof (isprime_complete number Hp Hr) as Ht. congruence.
Qed.

Lemma isprime_on_odd_numbers_witness :
  exists b,
    isprime 7 = Some b /\
    (b = true -> 7 = 1 \/ Z.prime 7) /\
    (5 <= 7 <= 65535 * 65535 -> Z.prime 7 -> b = true).
Proof.
  apply (isprime_on_odd_numbers 7).
  - unfold is_uint32. lia.
  - reflexivity.
Defined.

(** X6.  In every state a handle can reach, with a table of size 3 or
    more, [htab_hash] returns for every argument, allocation failures
    included: the index is in [0, size], the size is kept and entry 0 of the
    slot array is still as [calloc] left it (htab_hash, lines 137-217). *)
Theorem htab_hash_returns_in_range (h : htab_table) (tbl : list htab_entry)
    (key : ptr string) (ok : bool) :
  reachable h -> table h = Ptr tbl -> 3 <= size h ->
  exists r h' tbl',
    htab_hash key (Ptr h) ok = Some (r, Ptr h') /\ 0 <= r <= size h /\
    reachable h' /\ table h' = Ptr tbl' /\ size h' = size h /\
    tbl' !! 0%nat = Some zero_entry.
Proof.
  intros Hr Ht Hc.
  pose proof (reachable_live h tbl Hr Ht) as Hl.
  pose proof (reachable_slot_0 h Hr tbl Ht Hc) as H0.
  destruct key as [|s].
  - exists 0, h, tbl. cbn. rewrite Ht.
    split; [reflexivity|]. split; [lia|]. auto.
  - destruct (htab_hash_defined h tbl s ok Hl Hc) as (r & h' & tbl' & Hh & Ht' & Hs' & H0' & Hr').
    exists r, h', tbl'. split; [exact Hh|]. split; [exact Hr'|].
    split; [exact (reach_hash (Ptr s) ok r h h' Hr Hh)|]. split; [exact Ht'|].
    split; [exact Hs'|]. rewrite H0'. exact H0.
Qed.

Lemma htab_hash_returns_in_range_witness :
  exists r h' tbl',
    htab_hash (Ptr "f") (Ptr table_5_lost_slot) true = Some (r, Ptr h') /\
    0 <= r <= size table_5_lost_slot /\
    reachable h' /\ table h' = Ptr tbl' /\ size h' = size table_5_lost_slot /\
    tbl' !! 0%nat = Some zero_entry.
Proof.
  apply (htab_hash_returns_in_range table_5_lost_slot
           [ zero_entry;
             {| used := 1; str := Ptr "d" |};
             {| used := 2; str := Ptr "a" |};
             {| used := 3; str := Ptr "b" |};
             {| used := 4; str := NULL |};
             {| used := 1; str := Ptr "e" |} ]).
  - exact table_5_lost_slot_reachable.
  - reflexivity.
  - cbn. lia.
Defined.

(** ** String arrays *)

Lemma int32_small (x : Z) : 0 <= x < 2 ^ 31 -> int32 x = x.
Proof. intros H. unfold int32. destruct (Z.ltb_spec x (2 ^ 31)); lia. Qed.

Lemma index_of_Some (s : string) (l : list string) (i : nat) :
  index_of s l = Some i <->
  l !! i = Some s /\ forall j, (j < i)%nat -> l !! j <> Some s.
Proof.
  revert i. induction l as [|t l IH]; intros i; cbn [index_of].
  - split; [discriminate|]. intros [H _]. destruct i; discriminate.
  - destruct (String.eqb_spec t s) as [->|Hne].
    + split.
      * intros [= <-]. split; [reflexivity|]. intros j Hj. lia.
      * intros [H1 H2]. destruct i as [|i]; [reflexivity|].
        exfalso. apply (H2 0%nat); [lia|reflexivity].
    + destruct i as [|i].
      * split.
        -- destruct (index_of s l); discriminate.
        -- intros [[= H1] _]. contradiction.
      * specialize (IH i). split.
        -- intros H. destruct (index_of s l) as [k|] eqn:E; [|discriminate].
           cbn in H. injection H as ->.
           destruct IH as [IH _]. destruct (IH eq_refl) as [H1 H2].
           split; [exact H1|]. intros [|j] Hj; cbn.
           ++ intros [= H]. contradiction.
           ++ apply H2. lia.
        -- intros [H1 H2]. destruct IH as [_ IH].
           rewrite IH; [reflexivity|]. split; [exact H1|].
           intros j Hj. apply (H2 (S j)). lia.
Qed.

Lemma index_of_None (s : string) (l : list string) :
  index_of s l = None <-> s ∉ l.
Proof.
  induction l as [|t l IH]; cbn [index_of].
  - split; [intros _; apply not_elem_of_nil|reflexivity].
  - destruct (String.eqb_spec t s) as [->|Hne].
    + split; [discriminate|]. intros H. exfalso. apply H. apply list_elem_of_here.
    + rewrite not_elem_of_cons. destruct (index_of s l); cbn.
      * split; [discriminate|]. intros [_ H]. apply IH in H. discriminate.
      * split; [|reflexivity]. intros _. split; [congruence|]. apply IH. reflexivity.
Qed.

Lemma find_step_eq (tbl : list cell) (index : Z) (s t : string) (i : Z) :
  i < index -> tbl !! Z.to_nat i = Some (Some (Ptr t)) ->
  find_step tbl index s i =
    if String.eqb t s then Some (inr (int32 i)) else Some (inl (wrap32 (i + 1))).
Proof.
  intros Hi Ht. unfold find_step.
  destruct (Z.ltb_spec i index); [|lia]. rewrite Ht. reflexivity.
Qed.

Lemma find_step_end (tbl : list cell) (index : Z) (s : string) :
  find_step tbl index s index = Some (inr (-1)).
Proof. unfold find_step. rewrite Z.ltb_irrefl. reflexivity. Qed.

Lemma find_loop (tbl : list cell) (s : string) (l2 : list string) :
  forall l1 : list string,
  Z.of_nat (length (l1 ++ l2)%list) < 2 ^ 32 ->
  (forall i t, (l1 ++ l2)%list !! i = Some t -> tbl !! i = Some (Some (Ptr t))) ->
  loop_nat (find_step tbl (Z.of_nat (length (l1 ++ l2)%list)) s) (S (length l2))
           (Z.of_nat (length l1))
  = Some (inr (match index_of s l2 with
               | Some j => int32 (Z.of_nat (length l1 + j))
               | None => -1
               end)).
Proof.
  induction l2 as [|t l2 IH]; intros l1 Hlen Hcells; rewrite loop_nat_S.
  - rewrite app_nil_r. rewrite find_step_end. reflexivity.
  - rewrite (find_step_eq _ _ _ t).
    + cbn [index_of]. destruct (String.eqb t s).
      * cbn. rewrite Nat.add_0_r. reflexivity.
      * cbn [mbind option_bind continue].
        rewrite wrap32_small by (rewrite length_app in Hlen; cbn in Hlen; lia).
        specialize (IH (l1 ++ [t])%list).
        rewrite <- app_assoc in IH. cbn [app] in IH.
        replace (Z.of_nat (length (l1 ++ [t])%list)) with (Z.of_nat (length l1) + 1) in IH
          by (rewrite length_app; cbn; lia).
        cbn [length]. rewrite IH by assumption.
        destruct (index_of s l2) as [j|]; cbn; [|reflexivity].
        rewrite length_app. cbn. do 3 f_equal. lia.
    + rewrite length_app. cbn. lia.
    + apply Hcells. rewrite Nat2Z.id.
      rewrite lookup_app_r by lia. rewrite Nat.sub_diag. reflexivity.
Qed.

Lemma StrArrayFind_holds (a : StrArray.t) (tbl : list cell) (l : list string) (s : string) :
  holds a tbl l ->
  StrArrayFind (Ptr a) (Ptr s) =
    Some (match index_of s l with Some j => int32 (Z.of_nat j) | None => -1 end).
Proof.
  intros [HS HM HL HI HB HC]. unfold StrArrayFind. rewrite HS, HI.
  pose proof (find_loop tbl s l [] ltac:(cbn; lia) HC) as H.
  cbn [app length Nat.add Z.of_nat] in H.
  apply (run_loop_intro _ _ _ _ H). lia.
Qed.

Lemma StrArrayCreate_holds (a : StrArray.t) (initial_size : Z) :
  is_uint32 initial_size ->
  exists a' tbl,
    StrArrayCreate (Ptr a) initial_size true = Ptr a' /\
    holds a' tbl [] /\ StrArray.Max a' = initial_size.
Proof.
  intros Hn. eexists _, _. split; [reflexivity|]. split; [|reflexivity].
  split; cbn; try reflexivity; try (unfold is_uint32 in Hn; lia).
  - apply length_replicate.
  - intros i s H. discriminate.
Qed.

(** The table after a store at [Index]. *)
Lemma holds_store (a : StrArray.t) (tbl : list cell) (l : list string) (s : string)
    (max : Z) (tbl1 : list cell) :
  holds a tbl l ->
  StrArray.Max a <= max < 2 ^ 32 -> StrArray.Index a < max ->
  length tbl1 = Z.to_nat max ->
  (forall i, (i < length l)%nat -> tbl1 !! i = tbl !! i) ->
  holds {| StrArray.String := Ptr (<[Z.to_nat (StrArray.Index a) := Some (Ptr s)]> tbl1);
           StrArray.Index := wrap32 (StrArray.Index a + 1);
           StrArray.Max := max |}
        (<[Z.to_nat (StrArray.Index a) := Some (Ptr s)]> tbl1) (l ++ [s])%list.
Proof.
  intros [HS HM HL HI HB HC] Hmax Hlt Hlen Hsame.
  split; cbn [StrArray.String StrArray.Index StrArray.Max].
  - reflexivity.
  - lia.
  - rewrite length_insert. exact Hlen.
  - rewrite wrap32_small by lia. rewrite length_app. cbn. lia.
  - rewrite wrap32_small by lia. lia.
  - intros i t Hi. rewrite HI, Nat2Z.id.
    destruct (Nat.eq_dec i (length l)) as [->|Hne].
    + rewrite lookup_app_r in Hi by lia. rewrite Nat.sub_diag in Hi.
      injection Hi as <-. apply list_lookup_insert_eq. lia.
    + assert (i < length l)%nat as Hil.
      { apply lookup_lt_Some in Hi. rewrite length_app in Hi. cbn in Hi. lia. }
      rewrite lookup_app_l in Hi by exact Hil.
      rewrite list_lookup_insert_ne by lia.
      rewrite Hsame by exact Hil. apply HC. exact Hi.
Qed.

(** The table after a store of [NULL] at [Index]: the strings stay. *)
Lemma holds_store_null (a : StrArray.t) (tbl : list cell) (l : list string)
    (max : Z) (tbl1 : list cell) :
  holds a tbl l ->
  StrArray.Max a <= max < 2 ^ 32 ->
  length tbl1 = Z.to_nat max ->
  (forall i, (i < length l)%nat -> tbl1 !! i = tbl !! i) ->
  holds {| StrArray.String := Ptr (<[Z.to_nat (StrArray.Index a) := Some NULL]> tbl1);
           StrArray.Index := StrArray.Index a;
           StrArray.Max := max |}
        (<[Z.to_nat (StrArray.Index a) := Some NULL]> tbl1) l.
Proof.
  intros [HS HM HL HI HB HC] Hmax Hlen Hsame.
  split; cbn [StrArray.String StrArray.Index StrArray.Max].
  - reflexivity.
  - lia.
  - rewrite length_insert. exact Hlen.
  - exact HI.
  - lia.
  - intros i t Hi. rewrite HI, Nat2Z.id.
    assert (i < length l)%nat as Hil by (apply lookup_lt_Some in Hi; exact Hi).
    rewrite list_lookup_insert_ne by lia.
    rewrite Hsame by exact Hil. apply HC. exact Hi.
Qed.

Lemma StrArrayGrow_room (a : StrArray.t) (tbl : list cell) (ok : bool) :
  StrArray.Index a <> StrArray.Max a -> StrArrayGrow a tbl ok = Some (a, Ptr tbl).
Proof.
  intros H. unfold StrArrayGrow.
  destruct (Z.eqb_spec (StrArray.Index a) (StrArray.Max a)); [contradiction|reflexivity].
Qed.

Lemma StrArrayGrow_full (a : StrArray.t) (tbl : list cell) (ok : bool) :
  StrArray.Index a = StrArray.Max a -> wrap32 (StrArray.Max a * 2) <> 0 ->
  StrArrayGrow a tbl ok =
    let max := wrap32 (StrArray.Max a * 2) in
    let p := if ok then Ptr (resize (Z.to_nat max) None tbl) else NULL in
    Some ({| StrArray.String := p; StrArray.Index := StrArray.Index a;
             StrArray.Max := max |}, p).
Proof.
  intros H Hz. unfold StrArrayGrow.
  destruct (Z.eqb_spec (StrArray.Index a) (StrArray.Max a)); [|contradiction].
  cbn [StrArray.Max].
  destruct (Z.eqb_spec (wrap32 (StrArray.Max a * 2)) 0); [contradiction|reflexivity].
Qed.

(** A full table whose doubled size is 0: [realloc(p, 0)]. *)
Lemma StrArrayGrow_zero (a : StrArray.t) (tbl : list cell) (ok : bool) :
  StrArray.Index a = StrArray.Max a -> wrap32 (StrArray.Max a * 2) = 0 ->
  StrArrayGrow a tbl ok = None.
Proof.
  intros H Hz. unfold StrArrayGrow.
  destruct (Z.eqb_spec (StrArray.Index a) (StrArray.Max a)); [|contradiction].
  cbn [StrArray.Max]. rewrite Hz. reflexivity.
Qed.

(** What [StrArrayAdd] does on an array that holds [l], when the table
    has room or can be doubled and no allocation fails. *)
Lemma StrArrayAdd_holds (a : StrArray.t) (tbl : list cell) (l : list string)
    (s : string) (duplicate : bool) :
  holds a tbl l -> Z.of_nat (length l) < 2 ^ 31 -> 0 < StrArray.Max a ->
  exists a' tbl',
    StrArrayAdd (Ptr a) (Ptr s) duplicate true true
      = Some (Z.of_nat (length l), Ptr a') /\
    holds a' tbl' (l ++ [s])%list /\
    StrArray.Max a' =
      (if StrArray.Index a =? StrArray.Max a then 2 * StrArray.Max a else StrArray.Max a).
Proof.
  intros H Hlen Hmax. pose proof H as [HS HM HL HI HB HC].
  rewrite <- HI. unfold StrArrayAdd. rewrite HS.
  assert ((if duplicate then safe_strdup (Ptr s) true else Ptr s) = Ptr s) as ->
    by (destruct duplicate; reflexivity).
  cbn [is_null].
  destruct (Z.eqb_spec (StrArray.Index a) (StrArray.Max a)) as [E|E].
  - rewrite StrArrayGrow_full by (exact E || (rewrite wrap32_small; lia)). cbn zeta.
    cbn [StrArray.Index StrArray.Max].
    rewrite wrap32_small by lia.
    destruct (lookup_lt_is_Some_2 (resize (Z.to_nat (StrArray.Max a * 2)) None tbl)
                (Z.to_nat (StrArray.Index a))) as [c Hc].
    { rewrite length_resize. lia. }
    rewrite Hc. cbn [mbind option_bind].
    rewrite int32_small by lia.
    eexists _, _. split; [reflexivity|]. split; [|cbn [StrArray.Max]; lia].
    apply (holds_store a tbl l s _ _ H); try lia.
    + apply length_resize.
    + intros i Hi. apply lookup_resize; lia.
  - rewrite StrArrayGrow_room by exact E.
    destruct (lookup_lt_is_Some_2 tbl (Z.to_nat (StrArray.Index a))) as [c Hc]; [lia|].
    rewrite Hc. cbn [mbind option_bind].
    rewrite int32_small by lia.
    eexists _, _. split; [reflexivity|]. split; [|reflexivity].
    apply (holds_store a tbl l s _ _ H); try lia. reflexivity.
Qed.

(** A duplication that fails: -1, and the array holds what it held. *)
Lemma StrArrayAdd_strdup_fails (a : StrArray.t) (tbl : list cell) (l : list string)
    (s : string) :
  holds a tbl l -> Z.of_nat (length l) < 2 ^ 31 -> 0 < StrArray.Max a ->
  exists a' tbl',
    StrArrayAdd (Ptr a) (Ptr s) true true false = Some (-1, Ptr a') /\
    holds a' tbl' l /\
    StrArray.Max a' =
      (if StrArray.Index a =? StrArray.Max a then 2 * StrArray.Max a else StrArray.Max a).
Proof.
  intros H Hlen Hmax. pose proof H as [HS HM HL HI HB HC].
  unfold StrArrayAdd. rewrite HS. cbn [safe_strdup is_null].
  destruct (Z.eqb_spec (StrArray.Index a) (StrArray.Max a)) as [E|E].
  - rewrite StrArrayGrow_full by (exact E || (rewrite wrap32_small; lia)). cbn zeta.
    cbn [StrArray.Index StrArray.Max].
    rewrite wrap32_small by lia.
    destruct (lookup_lt_is_Some_2 (resize (Z.to_nat (StrArray.Max a * 2)) None tbl)
                (Z.to_nat (StrArray.Index a))) as [c Hc].
    { rewrite length_resize. lia. }
    rewrite Hc. cbn [mbind option_bind].
    eexists _, _. split; [reflexivity|]. split; [|cbn [StrArray.Max]; lia].
    apply (holds_store_null a tbl l _ _ H); try lia.
    + apply length_resize.
    + intros i Hi. apply lookup_resize; lia.
  - rewrite StrArrayGrow_room by exact E.
    destruct (lookup_lt_is_Some_2 tbl (Z.to_nat (StrArray.Index a))) as [c Hc]; [lia|].
    rewrite Hc. cbn [mbind option_bind].
    eexists _, _. split; [reflexivity|]. split; [|reflexivity].
    apply (holds_store_null a tbl l _ _ H); try lia. reflexivity.
Qed.

(** A reallocation that fails: the table is gone, [Index] is not reset. *)
Lemma StrArrayAdd_realloc_fails (a : StrArray.t) (tbl : list cell) (s : string)
    (duplicate ok : bool) :
  StrArray.String a = Ptr tbl -> StrArray.Index a = StrArray.Max a ->
  wrap32 (StrArray.Max a * 2) <> 0 ->
  StrArrayAdd (Ptr a) (Ptr s) duplicate false ok =
    Some (-1, Ptr {| StrArray.String := NULL; StrArray.Index := StrArray.Index a;
                     StrArray.Max := wrap32 (StrArray.Max a * 2) |}).
Proof.
  intros HS E Hz. unfold StrArrayAdd. rewrite HS.
  rewrite StrArrayGrow_full by assumption. reflexivity.
Qed.






Lemma add_all_holds (strs : list string) (duplicate : bool) :
  forall (a : StrArray.t) (tbl : list cell) (l : list string),
  holds a tbl l -> 0 < StrArray.Max a ->
  Z.of_nat (length l) + Z.of_nat (length strs) <= 2 ^ 31 ->
  exists a' tbl' k,
    add_all strs (Ptr a) duplicate
      = Some (seqZ (Z.of_nat (length l)) (Z.of_nat (length strs)), Ptr a') /\
    holds a' tbl' (l ++ strs)%list /\
    0 <= k /\ StrArray.Max a' = StrArray.Max a * 2 ^ k /\
    (k = 0 \/ StrArray.Max a * 2 ^ (k - 1) < Z.of_nat (length (l ++ strs)%list)).
Proof.
  induction strs as [|s strs IH]; intros a tbl l H Hmax Hlen.
  - exists a, tbl, 0. rewrite app_nil_r.
    split; [reflexivity|]. split; [exact H|]. split; [lia|]. split; [lia|]. left. reflexivity.
  - cbn [length] in Hlen.
    destruct (StrArrayAdd_holds a tbl l s duplicate H ltac:(lia) Hmax)
      as (a1 & tbl1 & Hadd & H1 & Hmax1).
    destruct (IH a1 tbl1 (l ++ [s])%list H1) as (a' & tbl' & k & Hall & H' & Hk & HM & Hmin).
    { rewrite Hmax1. destruct (StrArray.Index a =? StrArray.Max a); lia. }
    { rewrite length_app. cbn. lia. }
    rewrite <- app_assoc in H', Hmin. cbn [app] in H', Hmin.
    cbn [add_all]. rewrite Hadd. cbn [mbind option_bind]. rewrite Hall.
    cbn [mbind option_bind].
    assert (Z.of_nat (length (l ++ [s])%list) = Z.succ (Z.of_nat (length l))) as El
      by (rewrite length_app; cbn; lia).
    assert (seqZ (Z.of_nat (length l)) (Z.of_nat (length (s :: strs)))
            = Z.of_nat (length l) :: seqZ (Z.of_nat (length (l ++ [s])%list))
                                          (Z.of_nat (length strs))) as ->.
    { rewrite seqZ_cons by (cbn [length]; lia). rewrite El. do 2 f_equal.
      cbn [length]. lia. }
    destruct (Z.eqb_spec (StrArray.Index a) (StrArray.Max a)) as [E|E].
    + exists a', tbl', (k + 1). split; [reflexivity|]. split; [exact H'|].
      split; [lia|]. split.
      * rewrite HM, Hmax1, Z.pow_add_r by lia. lia.
      * right. replace (k + 1 - 1) with k by lia.
        destruct (Z.eq_dec k 0) as [->|Hk0].
        -- destruct H as [_ _ _ HI _ _]. rewrite length_app. cbn [length]. lia.
        -- destruct Hmin as [->|Hmin]; [contradiction|].
           rewrite Hmax1 in Hmin.
           replace k with (1 + (k - 1)) at 1 by lia.
           rewrite Z.pow_add_r by lia. lia.
    + exists a', tbl', k. split; [reflexivity|]. split; [exact H'|].
      split; [lia|]. split; [rewrite HM, Hmax1; reflexivity|].
      destruct Hmin as [->|Hmin]; [left; reflexivity|right].
      rewrite Hmax1 in Hmin. exact Hmin.
Qed.

Lemma index_of_app (s t : string) (l : list string) :
  index_of t (l ++ [s])%list =
    match index_of t l with
    | Some j => Some j
    | None => if String.eqb s t then Some (length l) else None
    end.
Proof.
  induction l as [|u l IH]; cbn [app index_of length].
  - destruct (String.eqb s t); reflexivity.
  - destruct (String.eqb u t); [reflexivity|]. rewrite IH.
    destruct (index_of t l); [reflexivity|]. destruct (String.eqb s t); reflexivity.
Qed.

Lemma index_of_lt (s : string) (l : list string) (j : nat) :
  index_of s l = Some j -> (j < length l)%nat.
Proof.
  intros H. apply index_of_Some in H. destruct H as [H _].
  apply lookup_lt_Some in H. exact H.
Qed.

(** An array without table: every call reports -1 and changes nothing. *)
Lemma StrArray_no_table (a : StrArray.t) :
  StrArray.String a = NULL ->
  (forall s, StrArrayFind (Ptr a) (Ptr s) = Some (-1)) /\
  (forall s duplicate ok1 ok2,
     StrArrayAdd (Ptr a) (Ptr s) duplicate ok1 ok2 = Some (-1, Ptr a)) /\
  StrArrayClear (Ptr a) = Some (Ptr a).
Proof.
  intros H. unfold StrArrayFind, StrArrayAdd, StrArrayClear. rewrite H. auto.
Qed.

Lemma array_ab_holds : holds array_ab [Some (Ptr "a"); Some (Ptr "b")] ["a"; "b"].
Proof.
  split; cbn; try reflexivity; try lia.
  intros [|[|i]] s H; cbn in H; try discriminate; injection H as <-; reflexivity.
Qed.

(** X9.  [StrArrayFind] returns the first index at which the array holds a
    string equal to [str], and -1 when it holds none (StrArrayFind, lines
    573-583). *)
Theorem StrArrayFind_first_match (a : StrArray.t) (tbl : list cell) (l : list string)
    (s : string) :
  holds a tbl l -> Z.of_nat (length l) <= 2 ^ 31 ->
  exists r,
    StrArrayFind (Ptr a) (Ptr s) = Some r /\
    (r = -1 <-> s ∉ l) /\
    (r <> -1 ->
     0 <= r /\ l !! Z.to_nat r = Some s /\
     forall j, (j < Z.to_nat r)%nat -> l !! j <> Some s).
Proof.
  intros H Hlen. rewrite (StrArrayFind_holds a tbl l s H).
  destruct (index_of s l) as [j|] eqn:E.
  - pose proof (index_of_lt _ _ _ E) as Hj.
    rewrite int32_small by lia. exists (Z.of_nat j). split; [reflexivity|].
    apply index_of_Some in E. destruct E as [E1 E2]. split.
    + split; [lia|]. intros Hn. exfalso. apply Hn.
      apply list_elem_of_lookup. exists j. exact E1.
    + intros _. rewrite Nat2Z.id. split; [lia|]. split; assumption.
  - exists (-1). split; [reflexivity|]. apply index_of_None in E. split.
    + split; auto.
    + intros Hn. contradiction.
Qed.

Lemma StrArrayFind_first_match_witness :
  exists r,
    StrArrayFind (Ptr array_ab) (Ptr "b") = Some r /\
    (r = -1 <-> "b" ∉ ["a"; "b"]) /\
    (r <> -1 ->
     0 <= r /\ ["a"; "b"] !! Z.to_nat r = Some "b" /\
     forall j, (j < Z.to_nat r)%nat -> ["a"; "b"] !! j <> Some "b").
Proof.
  apply (StrArrayFind_first_match array_ab [Some (Ptr "a"); Some (Ptr "b")]).
  - exact array_ab_holds.
  - cbn. lia.
Defined.

Lemma StrArrayAdd_room (a : StrArray.t) (str : ptr string)
    (duplicate realloc_ok strdup_ok : bool) :
  StrArray.Index a <> StrArray.Max a ->
  StrArrayAdd (Ptr a) str duplicate realloc_ok strdup_ok
    = StrArrayAdd (Ptr a) str duplicate true strdup_ok.
Proof.
  intros H. unfold StrArrayAdd. destruct str as [|s]; [reflexivity|].
  destruct (StrArray.String a) as [|tbl]; [reflexivity|].
  rewrite !StrArrayGrow_room by exact H. reflexivity.
Qed.

Lemma StrArrayAdd_borrowed (arr : ptr StrArray.t) (str : ptr string)
    (realloc_ok strdup_ok : bool) :
  StrArrayAdd arr str false realloc_ok strdup_ok = StrArrayAdd arr str false realloc_ok true.
Proof. reflexivity. Qed.

(** X10.  [StrArrayAdd] on an array that holds [l]: when the table has room,
    or is full and can be doubled, and the string is borrowed or its
    duplication succeeds, the call returns the old [Index], the number of
    strings held, and the array then holds [l] followed by the string; [Max]
    is doubled exactly when the table was full (StrArrayAdd, lines
    550-571). *)
Theorem StrArrayAdd_appends (a : StrArray.t) (tbl : list cell) (l : list string)
    (s : string) (duplicate realloc_ok strdup_ok : bool) :
  holds a tbl l -> Z.of_nat (length l) < 2 ^ 31 ->
  (StrArray.Index a = StrArray.Max a -> realloc_ok = true /\ 0 < StrArray.Max a) ->
  (duplicate = true -> strdup_ok = true) ->
  exists a' tbl',
    StrArrayAdd (Ptr a) (Ptr s) duplicate realloc_ok strdup_ok
      = Some (Z.of_nat (length l), Ptr a') /\
    holds a' tbl' (l ++ [s])%list /\
    StrArray.Max a' =
      (if StrArray.Index a =? StrArray.Max a then 2 * StrArray.Max a else StrArray.Max a).
Proof.
  intros H Hlen Hfull Hdup.
  assert (StrArrayAdd (Ptr a) (Ptr s) duplicate realloc_ok strdup_ok
          = StrArrayAdd (Ptr a) (Ptr s) duplicate true true) as ->.
  { destruct (Z.eq_dec (StrArray.Index a) (StrArray.Max a)) as [E|E].
    - destruct (Hfull E) as [-> _].
      destruct duplicate; [rewrite Hdup by reflexivity; reflexivity|].
      apply StrArrayAdd_borrowed.
    - rewrite StrArrayAdd_room by exact E.
      destruct duplicate; [rewrite Hdup by reflexivity; reflexivity|].
      apply StrArrayAdd_borrowed. }
  apply (StrArrayAdd_holds a tbl l s duplicate H Hlen).
  destruct (Z.eq_dec (StrArray.Index a) (StrArray.Max a)) as [E|E].
  - apply Hfull. exact E.
  - destruct H as [_ HM _ HI HB _]. lia.
Qed.

Lemma StrArrayAdd_appends_witness :
  exists a' tbl',
    StrArrayAdd (Ptr array_ab) (Ptr "c") false true false
      = Some (Z.of_nat (length ["a"; "b"]), Ptr a') /\
    holds a' tbl' (["a"; "b"] ++ ["c"])%list /\
    StrArray.Max a' =
      (if StrArray.Index array_ab =? StrArray.Max array_ab
       then 2 * StrArray.Max array_ab else StrArray.Max array_ab).
Proof.
  apply (StrArrayAdd_appends array_ab [Some (Ptr "a"); Some (Ptr "b")]).
  - exact array_ab_holds.
  - cbn. lia.
  - intros _. split; [reflexivity|cbn; lia].
  - discriminate.
Defined.

(** X11.  [StrArrayAdd] does not look for the string: after adding [s],
    [StrArrayFind] returns for [s] the index [StrArrayAdd] returned exactly
    when [s] was not in the array, and the index it already had otherwise;
    the strings that were in the array keep their index (StrArrayAdd, lines
    550-571; StrArrayFind, lines 573-583). *)
Theorem StrArrayAdd_then_Find (a : StrArray.t) (tbl : list cell) (l : list string)
    (s : string) (duplicate : bool) :
  holds a tbl l -> Z.of_nat (length l) < 2 ^ 31 -> 0 < StrArray.Max a ->
  exists i a' r,
    StrArrayAdd (Ptr a) (Ptr s) duplicate true true = Some (i, Ptr a') /\
    StrArrayFind (Ptr a') (Ptr s) = Some r /\
    0 <= r <= i /\ (r = i <-> s ∉ l) /\
    (s ∈ l -> StrArrayFind (Ptr a) (Ptr s) = Some r) /\
    forall t, t ∈ l -> StrArrayFind (Ptr a') (Ptr t) = StrArrayFind (Ptr a) (Ptr t).
Proof.
  intros H Hlen Hmax.
  destruct (StrArrayAdd_holds a tbl l s duplicate H Hlen Hmax) as (a' & tbl' & Hadd & H' & _).
  assert (forall t, StrArrayFind (Ptr a') (Ptr t) =
            Some (match index_of t l with
                  | Some j => Z.of_nat j
                  | None => if String.eqb s t then Z.of_nat (length l) else -1
                  end)) as Hfind'.
  { intros t. rewrite (StrArrayFind_holds a' tbl' _ t H'), index_of_app.
    destruct (index_of t l) as [j|] eqn:E.
    - apply index_of_lt in E. rewrite int32_small by lia. reflexivity.
    - destruct (String.eqb s t); [|reflexivity]. rewrite int32_small by lia. reflexivity. }
  assert (forall t j, index_of t l = Some j ->
            StrArrayFind (Ptr a) (Ptr t) = Some (Z.of_nat j)) as Hfind.
  { intros t j E. rewrite (StrArrayFind_holds a tbl l t H), E.
    apply index_of_lt in E. rewrite int32_small by lia. reflexivity. }
  exists (Z.of_nat (length l)), a'. 
  destruct (index_of s l) as [j|] eqn:E.
  - exists (Z.of_nat j). pose proof (index_of_lt _ _ _ E) as Hj.
    split; [exact Hadd|]. split; [rewrite Hfind', E; reflexivity|].
    split; [lia|]. split; [|split].
    + split; [lia|]. intros Hn. apply index_of_None in Hn. congruence.
    + intros _. apply Hfind. exact E.
    + intros t Ht. rewrite Hfind'.
      destruct (index_of t l) as [jt|] eqn:Et; [symmetry; apply Hfind; exact Et|].
      apply index_of_None in Et. contradiction.
  - exists (Z.of_nat (length l)).
    split; [exact Hadd|]. split; [rewrite Hfind', E, String.eqb_refl; reflexivity|].
    split; [lia|]. apply index_of_None in E. split; [|split].
    + split; auto.
    + intros Hin. contradiction.
    + intros t Ht. rewrite Hfind'.
      destruct (index_of t l) as [jt|] eqn:Et; [symmetry; apply Hfind; exact Et|].
      apply index_of_None in Et. contradiction.
Qed.

Lemma StrArrayAdd_then_Find_witness :
  exists i a' r,
    StrArrayAdd (Ptr array_ab) (Ptr "a") false true true = Some (i, Ptr a') /\
    StrArrayFind (Ptr a') (Ptr "a") = Some r /\
    0 <= r <= i /\ (r = i <-> "a" ∉ ["a"; "b"]) /\
    ("a" ∈ ["a"; "b"] -> StrArrayFind (Ptr array_ab) (Ptr "a") = Some r) /\
    forall t, t ∈ ["a"; "b"] ->
              StrArrayFind (Ptr a') (Ptr t) = StrArrayFind (Ptr array_ab) (Ptr t).
Proof.
  apply (StrArrayAdd_then_Find array_ab [Some (Ptr "a"); Some (Ptr "b")]).
  - exact array_ab_holds.
  - cbn. lia.
  - cbn. lia.
Defined.

(** X12.  After [StrArrayCreate] with a size of 1 or more, adding [n]
    strings (no allocation failing) returns the indices 0, 1, ..., n-1 and
    the array holds the strings in this order; [Max] is the initial size
    doubled as few times as makes it hold [n] strings (StrArrayCreate,
    lines 541-548; StrArrayAdd, lines 550-571). *)
Theorem StrArrayCreate_add_all (a : StrArray.t) (initial_size : Z) (strs : list string)
    (duplicate : bool) :
  0 < initial_size < 2 ^ 32 -> Z.of_nat (length strs) <= 2 ^ 31 ->
  exists a' tbl' k,
    add_all strs (StrArrayCreate (Ptr a) initial_size true) duplicate
      = Some (seqZ 0 (Z.of_nat (length strs)), Ptr a') /\
    holds a' tbl' strs /\
    0 <= k /\ StrArray.Max a' = initial_size * 2 ^ k /\
    (k = 0 \/ initial_size * 2 ^ (k - 1) < Z.of_nat (length strs)).
Proof.
  intros Hn Hlen.
  destruct (StrArrayCreate_holds a initial_size) as (a0 & tbl0 & -> & H0 & HM0);
    [unfold is_uint32; lia|].
  destruct (add_all_holds strs duplicate a0 tbl0 [] H0) as (a' & tbl' & k & Hall & H' & Hk & HM & Hmin).
  - lia.
  - cbn [length]. lia.
  - rewrite HM0 in HM, Hmin. exists a', tbl', k. auto.
Qed.

Lemma StrArrayCreate_add_all_witness :
  exists a' tbl' k,
    add_all ["a"; "b"; "c"] (StrArrayCreate (Ptr array_ab) 1 true) true
      = Some (seqZ 0 (Z.of_nat (length ["a"; "b"; "c"])), Ptr a') /\
    holds a' tbl' ["a"; "b"; "c"] /\
    0 <= k /\ StrArray.Max a' = 1 * 2 ^ k /\
    (k = 0 \/ 1 * 2 ^ (k - 1) < Z.of_nat (length ["a"; "b"; "c"])).
Proof.
  apply (StrArrayCreate_add_all array_ab 1 ["a"; "b"; "c"] true).
  - lia.
  - cbn. lia.
Defined.

(** X13.  When the duplication of the string fails, [StrArrayAdd] returns
    -1 and the array holds what it held, but a table that was full has been
    doubled all the same (StrArrayAdd, lines 556-569). *)
Theorem StrArrayAdd_failed_duplication (a : StrArray.t) (tbl : list cell)
    (l : list string) (s : string) :
  holds a tbl l -> Z.of_nat (length l) < 2 ^ 31 -> 0 < StrArray.Max a ->
  exists a' tbl',
    StrArrayAdd (Ptr a) (Ptr s) true true false = Some (-1, Ptr a') /\
    holds a' tbl' l /\
    StrArray.Max a' =
      (if StrArray.Index a =? StrArray.Max a then 2 * StrArray.Max a else StrArray.Max a) /\
    forall t, StrArrayFind (Ptr a') (Ptr t) = StrArrayFind (Ptr a) (Ptr t).
Proof.
  intros H Hlen Hmax.
  destruct (StrArrayAdd_strdup_fails a tbl l s H Hlen Hmax) as (a' & tbl' & Hadd & H' & HM).
  exists a', tbl'. split; [exact Hadd|]. split; [exact H'|]. split; [exact HM|].
  intros t. rewrite (StrArrayFind_holds a' tbl' l t H').
  rewrite (StrArrayFind_holds a tbl l t H). reflexivity.
Qed.

Lemma StrArrayAdd_failed_duplication_witness :
  exists a' tbl',
    StrArrayAdd (Ptr array_ab) (Ptr "c") true true false = Some (-1, Ptr a') /\
    holds a' tbl' ["a"; "b"] /\
    StrArray.Max a' =
      (if StrArray.Index array_ab =? StrArray.Max array_ab
       then 2 * StrArray.Max array_ab else StrArray.Max array_ab) /\
    forall t, StrArrayFind (Ptr a') (Ptr t) = StrArrayFind (Ptr array_ab) (Ptr t).
Proof.
  apply (StrArrayAdd_failed_duplication array_ab [Some (Ptr "a"); Some (Ptr "b")]).
  - exact array_ab_holds.
  - cbn. lia.
  - cbn. lia.
Defined.

(** X14.  When a table of 1 to [2^31 - 1] cells is full and [realloc]
    fails, [StrArrayAdd] returns -1 and leaves the array without table, with
    [Max] doubled and [Index] as it was: every string is lost,
    [StrArrayFind] and [StrArrayAdd] return -1 from then on and
    [StrArrayClear] changes nothing (StrArrayAdd, lines 556-564). *)
Theorem StrArrayAdd_failed_realloc (a : StrArray.t) (tbl : list cell) (l : list string)
    (s : string) (duplicate strdup_ok : bool) :
  holds a tbl l -> StrArray.Index a = StrArray.Max a -> 0 < StrArray.Max a < 2 ^ 31 ->
  exists a',
    StrArrayAdd (Ptr a) (Ptr s) duplicate false strdup_ok = Some (-1, Ptr a') /\
    StrArray.String a' = NULL /\ StrArray.Index a' = Z.of_nat (length l) /\
    StrArray.Max a' = 2 * StrArray.Max a /\
    (forall t, StrArrayFind (Ptr a') (Ptr t) = Some (-1)) /\
    (forall t d ok1 ok2, StrArrayAdd (Ptr a') (Ptr t) d ok1 ok2 = Some (-1, Ptr a')) /\
    StrArrayClear (Ptr a') = Some (Ptr a').
Proof.
  intros [HS HM HL HI HB HC] E Hmax.
  assert (wrap32 (StrArray.Max a * 2) = 2 * StrArray.Max a) as Ew
    by (rewrite wrap32_small; lia).
  rewrite (StrArrayAdd_realloc_fails a tbl s duplicate strdup_ok HS E) by lia.
  eexists. split; [reflexivity|]. split; [reflexivity|]. split; [exact HI|].
  split; [exact Ew|].
  apply StrArray_no_table. reflexivity.
Qed.

Lemma StrArrayAdd_failed_realloc_witness :
  exists a',
    StrArrayAdd (Ptr array_ab) (Ptr "c") true false true = Some (-1, Ptr a') /\
    StrArray.String a' = NULL /\ StrArray.Index a' = Z.of_nat (length ["a"; "b"]) /\
    StrArray.Max a' = 2 * StrArray.Max array_ab /\
    (forall t, StrArrayFind (Ptr a') (Ptr t) = Some (-1)) /\
    (forall t d ok1 ok2, StrArrayAdd (Ptr a') (Ptr t) d ok1 ok2 = Some (-1, Ptr a')) /\
    StrArrayClear (Ptr a') = Some (Ptr a').
Proof.
  apply (StrArrayAdd_failed_realloc array_ab [Some (Ptr "a"); Some (Ptr "b")] ["a"; "b"]).
  - exact array_ab_holds.
  - reflexivity.
  - cbn. lia.
Defined.





Lemma array_0_holds : holds array_0 [] [].
Proof.
  split; cbn; try reflexivity; try lia. intros i s H. discriminate.
Qed.

(** X17.  A full table whose doubled size is 0, that is a table without
    cell, as [StrArrayCreate] makes it for an initial size of 0, or a table
    of [2^31] cells, never takes a string: [arr->Max *= 2] gives 0, the
    call is [realloc(p, 0)], which releases the table and returns [NULL],
    and line 560 releases the table a second time.  [StrArrayAdd] has no
    defined result there, whatever the allocations do (StrArrayAdd, lines
    556-561). *)
Theorem StrArrayAdd_zero_capacity (a : StrArray.t) (tbl : list cell) (l : list string)
    (s : string) (duplicate realloc_ok strdup_ok : bool) :
  holds a tbl l -> StrArray.Index a = StrArray.Max a ->
  wrap32 (StrArray.Max a * 2) = 0 ->
  StrArrayAdd (Ptr a) (Ptr s) duplicate realloc_ok strdup_ok = None.
Proof.
  intros [HS HM HL HI HB HC] E Hz.
  unfold StrArrayAdd. rewrite HS, StrArrayGrow_zero by assumption. reflexivity.
Qed.

Lemma StrArrayAdd_zero_capacity_witness :
  StrArrayCreate (Ptr array_ab) 0 true = Ptr array_0 /\
  StrArrayAdd (Ptr array_0) (Ptr "a") true true true = None.
Proof.
  split; [reflexivity|].
  apply (StrArrayAdd_zero_capacity array_0 [] []).
  - exact array_0_holds.
  - reflexivity.
  - reflexivity.
Defined.

(** X23.  [StrArrayAdd] has a defined result whatever the allocations do,
    as long as the table has between 1 and [2^31 - 1] cells: it returns -1
    or the number of strings the array held, and the array is left without
    table, or holding what it held, or holding that and the string added
    last (StrArrayAdd, lines 550-571). *)
Theorem StrArrayAdd_defined (a : StrArray.t) (tbl : list cell) (l : list string)
    (s : string) (duplicate realloc_ok strdup_ok : bool) :
  holds a tbl l -> 0 < StrArray.Max a < 2 ^ 31 ->
  exists r a',
    StrArrayAdd (Ptr a) (Ptr s) duplicate realloc_ok strdup_ok = Some (r, Ptr a') /\
    ((r = -1 /\ StrArray.String a' = NULL) \/
     (r = -1 /\ exists tbl', holds a' tbl' l) \/
     (r = Z.of_nat (length l) /\ exists tbl', holds a' tbl' (l ++ [s])%list)).
Proof.
  intros H HM. pose proof H as [HS _ _ HI HB _].
  assert (Z.of_nat (length l) < 2 ^ 31) as Hlen by lia.
  assert (forall ok, realloc_ok = true \/ StrArray.Index a <> StrArray.Max a ->
            StrArrayAdd (Ptr a) (Ptr s) duplicate realloc_ok ok
            = StrArrayAdd (Ptr a) (Ptr s) duplicate true ok) as Hroom.
  { intros ok [->|E]; [reflexivity|apply StrArrayAdd_room; exact E]. }
  destruct (Z.eq_dec (StrArray.Index a) (StrArray.Max a)) as [E|E];
    [destruct realloc_ok|].
  2:{ rewrite (StrArrayAdd_realloc_fails a tbl s duplicate strdup_ok HS E)
        by (rewrite wrap32_small; lia).
      eexists _, _. split; [reflexivity|]. left. split; reflexivity. }
  all: try (rewrite Hroom by auto).
  all: destruct duplicate, strdup_ok.
  all: try (destruct (StrArrayAdd_strdup_fails a tbl l s H Hlen ltac:(lia))
              as (a' & tbl' & Hadd & H' & _);
            exists (-1), a'; split; [exact Hadd|]; right; left; split; [reflexivity|eauto]).
  all: try rewrite StrArrayAdd_borrowed.
  all: first
         [ destruct (StrArrayAdd_holds a tbl l s true H Hlen ltac:(lia))
             as (a' & tbl' & Hadd & H' & _);
           exists (Z.of_nat (length l)), a'; split; [exact Hadd|]
         | destruct (StrArrayAdd_holds a tbl l s false H Hlen ltac:(lia))
             as (a' & tbl' & Hadd & H' & _);
           exists (Z.of_nat (length l)), a'; split; [exact Hadd|] ];
       right; right; split; [reflexivity|eauto].
Qed.

Lemma StrArrayAdd_defined_witness :
  exists r a',
    StrArrayAdd (Ptr array_ab) (Ptr "c") true true false = Some (r, Ptr a') /\
    ((r = -1 /\ StrArray.String a' = NULL) \/
     (r = -1 /\ exists tbl', holds a' tbl' ["a"; "b"]) \/
     (r = Z.of_nat (length ["a"; "b"]) /\
      exists tbl', holds a' tbl' (["a"; "b"] ++ ["c"])%list)).
Proof.
  apply (StrArrayAdd_defined array_ab [Some (Ptr "a"); Some (Ptr "b")]).
  - exact array_ab_holds.
  - cbn. lia.
Defined.

(** ** GetExecutableVersion *)

Lemma GetExecutableVersion_statics_read (st : Statics.t) (os : version_calls)
    (version_info : VS_FIXEDFILEINFO) :
  version_read os version_info ->
  GetExecutableVersion_statics st os
    = {| Statics.version := read_version version_info; Statics.r := true |}.
Proof.
  intros (H1 & H2 & H3 & uLen & H4 & H5 & H6). unfold GetExecutableVersion_statics.
  destruct (Z.eqb_spec (GetFileVersionInfoSizeU os) 0); [contradiction|].
  rewrite H2, H3, H4. cbn [negb].
  destruct (Z.eqb_spec uLen 0); [contradiction|].
  rewrite H6. reflexivity.
Qed.

Lemma GetExecutableVersion_statics_cases (st : Statics.t) (os : version_calls) :
  (exists version_info,
     version_read os version_info /\
     GetExecutableVersion_statics st os
       = {| Statics.version := read_version version_info; Statics.r := true |}) \/
  ((forall version_info, ~ version_read os version_info) /\
   GetExecutableVersion_statics st os
     = {| Statics.version := version_zero; Statics.r := Statics.r st |}).
Proof.
  unfold GetExecutableVersion_statics, version_read.
  destruct (Z.eqb_spec (GetFileVersionInfoSizeU os) 0) as [E1|E1].
  { right. split; [|reflexivity]. intros vi (H & _). contradiction. }
  destruct (buf_allocated os) eqn:E2; cbn [negb].
  2:{ right. split; [|reflexivity]. intros vi (_ & H & _). discriminate. }
  destruct (GetFileVersionInfoU os) eqn:E3; cbn [negb].
  2:{ right. split; [|reflexivity]. intros vi (_ & _ & H & _). discriminate. }
  destruct (VerQueryValueA os) as [[vi uLen]|] eqn:E4.
  2:{ right. split; [|reflexivity]. intros vi (_ & _ & _ & u & H & _). discriminate. }
  destruct (Z.eqb_spec uLen 0) as [E5|E5].
  { right. split; [|reflexivity]. intros vi' (_ & _ & _ & u & H & Hu & _). congruence. }
  destruct (Z.eqb_spec (dwSignature vi) 0xfeef04bd) as [E6|E6]; cbn [negb].
  - left. exists vi. split; [|reflexivity]. repeat split; auto. exists uLen. auto.
  - right. split; [|reflexivity].
    intros vi' (_ & _ & _ & u & H & _ & Hs). congruence.
Qed.

Lemma split_word (x : Z) :
  is_uint32 x ->
  let hi := Z.land (Z.shiftr x 16) 0xffff in
  let lo := Z.land (Z.shiftr x 0) 0xffff in
  0 <= hi < 2 ^ 16 /\ 0 <= lo < 2 ^ 16 /\ hi * 2 ^ 16 + lo = x.
Proof.
  unfold is_uint32. intros Hx. cbn zeta.
  change 65535 with (Z.ones 16). rewrite !Z.land_ones by lia.
  rewrite Z.shiftr_0_r, Z.shiftr_div_pow2 by lia. lia.
Qed.

(** X18.  When the Windows calls succeed, [GetExecutableVersion] returns a
    pointer to the static [version], whose four fields are below [2^16] and
    are the two halves of the two version words: [Major * 2^16 + Minor] is
    [dwFileVersionMS] and [Micro * 2^16 + Nano] is [dwFileVersionLS]
    (GetExecutableVersion, lines 501-536). *)
Theorem GetExecutableVersion_reads (st : Statics.t) (os : version_calls)
    (version_info : VS_FIXEDFILEINFO) :
  version_read os version_info ->
  is_uint32 (dwFileVersionMS version_info) -> is_uint32 (dwFileVersionLS version_info) ->
  exists v st',
    GetExecutableVersion st os = (Ptr v, st') /\
    Statics.version st' = v /\ Statics.r st' = true /\
    Major v * 2 ^ 16 + Minor v = dwFileVersionMS version_info /\
    Micro v * 2 ^ 16 + Nano v = dwFileVersionLS version_info /\
    0 <= Major v < 2 ^ 16 /\ 0 <= Minor v < 2 ^ 16 /\
    0 <= Micro v < 2 ^ 16 /\ 0 <= Nano v < 2 ^ 16.
Proof.
  intros Hr HMS HLS. unfold GetExecutableVersion.
  rewrite (GetExecutableVersion_statics_read st os version_info Hr).
  cbn [Statics.r Statics.version]. eexists _, _. split; [reflexivity|].
  destruct (split_word _ HMS) as (H1 & H2 & H3).
  destruct (split_word _ HLS) as (H4 & H5 & H6).
  cbn [read_version Major Minor Micro Nano]. auto 10.
Qed.

Lemma calls_version_4_5_read :
  version_read calls_version_4_5
    {| dwSignature := 0xfeef04bd; dwFileVersionMS := 0x00040005;
       dwFileVersionLS := 0x08370000 |}.
Proof.
  unfold version_read. cbn. split; [lia|]. split; [reflexivity|].
  split; [reflexivity|]. exists 52. split; [reflexivity|]. split; [lia|reflexivity].
Qed.

Lemma calls_no_version_read (version_info : VS_FIXEDFILEINFO) :
  ~ version_read calls_no_version version_info.
Proof. intros (H & _). apply H. reflexivity. Qed.

Lemma GetExecutableVersion_reads_witness :
  exists v st',
    GetExecutableVersion statics_init calls_version_4_5 = (Ptr v, st') /\
    Statics.version st' = v /\ Statics.r st' = true /\
    Major v * 2 ^ 16 + Minor v = 0x00040005 /\
    Micro v * 2 ^ 16 + Nano v = 0x08370000 /\
    0 <= Major v < 2 ^ 16 /\ 0 <= Minor v < 2 ^ 16 /\
    0 <= Micro v < 2 ^ 16 /\ 0 <= Nano v < 2 ^ 16.
Proof.
  apply (GetExecutableVersion_reads statics_init calls_version_4_5
           {| dwSignature := 0xfeef04bd; dwFileVersionMS := 0x00040005;
              dwFileVersionLS := 0x08370000 |}).
  - exact calls_version_4_5_read.
  - unfold is_uint32. cbn. lia.
  - unfold is_uint32. cbn. lia.
Defined.

(** X19.  [r] is [static] and is never set back to [NULL]: once a call has
    read a version, no later call returns [NULL]; a later call that fails
    returns the pointer to the static [version], which the [memset] of line
    509 has set to 0.0.0.0 (GetExecutableVersion, lines 501-536). *)
Theorem GetExecutableVersion_never_null_again (st : Statics.t)
    (calls1 calls2 : list version_calls) (os os' : version_calls)
    (version_info : VS_FIXEDFILEINFO) :
  version_read os version_info ->
  (forall version_info', ~ version_read os' version_info') ->
  exists results1 results2,
    GetExecutableVersion_calls st (calls1 ++ os :: calls2 ++ [os'])%list
      = (results1 ++ Ptr (read_version version_info) :: results2 ++ [Ptr version_zero])%list /\
    length results1 = length calls1 /\ length results2 = length calls2 /\
    Forall (fun p => p <> NULL) results2.
Proof.
  intros Hr Hf. revert st. induction calls1 as [|c calls1 IH]; intros st.
  - cbn [app GetExecutableVersion_calls]. unfold GetExecutableVersion at 1.
    rewrite (GetExecutableVersion_statics_read st os version_info Hr).
    cbn [Statics.r Statics.version].
    exists [].
    assert (forall st1, Statics.r st1 = true ->
              exists results2,
                GetExecutableVersion_calls st1 (calls2 ++ [os'])%list
                  = (results2 ++ [Ptr version_zero])%list /\
                length results2 = length calls2 /\
                Forall (fun p => p <> NULL) results2) as G.
    { induction calls2 as [|c2 calls2 IH2]; intros st1 H1.
      - cbn [app GetExecutableVersion_calls]. unfold GetExecutableVersion.
        destruct (GetExecutableVersion_statics_cases st1 os') as [(vi & Hvi & _)|(_ & ->)].
        + exfalso. exact (Hf vi Hvi).
        + cbn [Statics.r Statics.version]. rewrite H1. exists []. split; [reflexivity|].
          split; [reflexivity|apply Forall_nil; exact I].
      - cbn [app GetExecutableVersion_calls]. unfold GetExecutableVersion at 1.
        assert (Statics.r (GetExecutableVersion_statics st1 c2) = true) as Hr'.
        { destruct (GetExecutableVersion_statics_cases st1 c2) as [(vi & _ & ->)|(_ & ->)];
            [reflexivity|exact H1]. }
        rewrite Hr'. destruct (IH2 _ Hr') as (res & E & Hlen & Hall).
        rewrite E. exists (Ptr (Statics.version (GetExecutableVersion_statics st1 c2)) :: res).
        split; [reflexivity|]. split; [cbn [length]; lia|].
        apply Forall_cons. split; [discriminate|exact Hall]. }
    destruct (G {| Statics.version := read_version version_info; Statics.r := true |} eq_refl)
      as (results2 & E & Hlen & Hall).
    exists results2. rewrite E. auto.
  - cbn [app GetExecutableVersion_calls].
    destruct (GetExecutableVersion st c) as [p st1].
    destruct (IH st1) as (results1 & results2 & E & H1 & H2 & H3).
    exists (p :: results1), results2. rewrite E. cbn [length].
    split; [reflexivity|]. auto.
Qed.

Lemma GetExecutableVersion_never_null_again_witness :
  exists results1 results2,
    GetExecutableVersion_calls statics_init
      ([calls_no_version] ++ calls_version_4_5 :: [calls_version_4_5] ++ [calls_no_version])%list
      = (results1 ++
         Ptr (read_version {| dwSignature := 0xfeef04bd; dwFileVersionMS := 0x00040005;
                              dwFileVersionLS := 0x08370000 |})
         :: results2 ++ [Ptr version_zero])%list /\
    length results1 = length [calls_no_version] /\
    length results2 = length [calls_version_4_5] /\
    Forall (fun p => p <> NULL) results2.
Proof.
  apply (GetExecutableVersion_never_null_again statics_init).
  - exact calls_version_4_5_read.
  - exact calls_no_version_read.
Defined.

(** ** SetThreadAffinity: bit masks *)

Lemma popcount_0 (n : nat) : popcount n 0 = 0.
Proof. induction n as [|n IH]; cbn [popcount]; [reflexivity|]. rewrite IH, Z.bits_0. reflexivity. Qed.

Lemma popcount_range (n : nat) (x : Z) : 0 <= popcount n x <= Z.of_nat n.
Proof.
  induction n as [|n IH]; cbn [popcount]; [lia|].
  destruct (Z.testbit x (Z.of_nat n)); cbn [Z.b2z]; lia.
Qed.

Lemma popcount_lor (n : nat) (x y : Z) :
  Z.land x y = 0 -> popcount n (Z.lor x y) = popcount n x + popcount n y.
Proof.
  intros H. induction n as [|n IH]; cbn [popcount]; [reflexivity|].
  rewrite IH, Z.lor_spec.
  pose proof (f_equal (fun z => Z.testbit z (Z.of_nat n)) H) as Hb. cbn beta in Hb.
  rewrite Z.land_spec, Z.bits_0 in Hb.
  destruct (Z.testbit x (Z.of_nat n)), (Z.testbit y (Z.of_nat n));
    cbn in Hb |- *; try discriminate; lia.
Qed.

Lemma popcount_pow2_cases (n : nat) (k : Z) :
  0 <= k -> popcount n (2 ^ k) = if k <? Z.of_nat n then 1 else 0.
Proof.
  intros Hk. induction n as [|n IH]; cbn [popcount].
  - destruct (Z.ltb_spec k (Z.of_nat 0)); [lia|reflexivity].
  - rewrite IH, Z.pow2_bits_eqb by lia.
    destruct (Z.ltb_spec k (Z.of_nat n)), (Z.ltb_spec k (Z.of_nat (S n))),
      (Z.eqb_spec k (Z.of_nat n)); cbn [Z.b2z]; lia.
Qed.

Lemma popcount_pow2 (n : nat) (k : Z) :
  0 <= k < Z.of_nat n -> popcount n (2 ^ k) = 1.
Proof.
  intros Hk. rewrite popcount_pow2_cases by lia.
  destruct (Z.ltb_spec k (Z.of_nat n)); [reflexivity|lia].
Qed.

(** [a & -a] is one of the bits of [a]. *)
Lemma land_opp_pos (p : positive) :
  exists k, 0 <= k /\ Z.land (Z.pos p) (- Z.pos p) = 2 ^ k.
Proof.
  induction p as [p _|p [k [Hk IH]]|].
  - exists 0. split; [lia|]. apply Z.bits_inj'. intros n Hn.
    rewrite Z.land_spec, Z.bits_opp by lia.
    change (2 ^ 0) with 1.
    replace (Z.pred (Z.pos p~1)) with (2 * Z.pos p) by lia.
    destruct (Z.eq_dec n 0) as [->|Hne].
    + rewrite Z.testbit_even_0. reflexivity.
    + replace n with (Z.succ (n - 1)) by lia.
      change (Z.pos p~1) with (2 * Z.pos p + 1).
      rewrite Z.testbit_odd_succ, Z.testbit_even_succ by lia.
      rewrite andb_negb_r. symmetry.
      change 1 with (2 * 0 + 1). rewrite Z.testbit_odd_succ by lia. apply Z.bits_0.
  - exists (k + 1). split; [lia|].
    change (Z.pos p~0) with (2 * Z.pos p).
    replace (- (2 * Z.pos p)) with (2 * - Z.pos p) by lia.
    replace (2 * Z.pos p) with (Z.shiftl (Z.pos p) 1)
      by (rewrite Z.shiftl_mul_pow2; lia).
    replace (2 * - Z.pos p) with (Z.shiftl (- Z.pos p) 1)
      by (rewrite Z.shiftl_mul_pow2; lia).
    rewrite <- Z.shiftl_land, IH, Z.shiftl_mul_pow2, Z.pow_add_r by lia.
    reflexivity.
  - exists 0. split; [lia|reflexivity].
Qed.

Lemma testbit_above (a n k : Z) :
  0 <= a < 2 ^ n -> n <= k -> Z.testbit a k = false.
Proof.
  intros Ha Hk. destruct (Z.eq_dec a 0) as [->|Hne]; [apply Z.bits_0|].
  apply Z.bits_above_log2; [lia|].
  assert (Z.log2 a < n); [|lia]. apply Z.log2_lt_pow2; lia.
Qed.

Lemma lowest_bit_0 : lowest_bit 0 = 0.
Proof. reflexivity. Qed.

Lemma lowest_bit_spec (a : Z) :
  0 < a < 2 ^ 64 ->
  exists k, 0 <= k < 64 /\ lowest_bit a = 2 ^ k /\ Z.land (2 ^ k) a = 2 ^ k.
Proof.
  intros Ha. assert (0 <= 64) as H64 by lia.
  assert (lowest_bit a = Z.land a (- a)) as E.
  { unfold lowest_bit, wrap64. replace (-1 * a) with (- a) by lia.
    apply Z.bits_inj'. intros n Hn. rewrite !Z.land_spec.
    destruct (Z_lt_le_dec n 64) as [Hlt|Hge].
    - rewrite Z.mod_pow2_bits_low by lia. reflexivity.
    - rewrite (testbit_above a 64 n) by lia. reflexivity. }
  destruct a as [|p|p]; [lia| |lia].
  destruct (land_opp_pos p) as (k & Hk & Hl).
  assert (Z.land (2 ^ k) (Z.pos p) = 2 ^ k) as Hsub.
  { rewrite <- Hl. rewrite Z.land_comm, Z.land_assoc, Z.land_diag. reflexivity. }
  exists k. split; [|split; [congruence|exact Hsub]].
  split; [exact Hk|].
  destruct (Z_lt_le_dec k 64) as [|Hge]; [assumption|exfalso].
  pose proof (f_equal (fun z => Z.testbit z k) Hsub) as Hb. cbn beta in Hb.
  rewrite Z.land_spec, Z.pow2_bits_true, (testbit_above (Z.pos p) 64 k) in Hb by lia.
  discriminate.
Qed.

(** Reasoning bit by bit: an equation between masks holds when it holds at
    every bit, given the equations of the context at that bit. *)
Ltac mask_bits :=
  apply Z.bits_inj'; let n := fresh "n" in let Hn := fresh "Hn" in intros n Hn;
  repeat match goal with
         | H : @eq Z _ _ |- _ =>
           apply (f_equal (fun z => Z.testbit z n)) in H; cbn beta in H
         end;
  repeat (progress rewrite ?Z.land_spec, ?Z.lor_spec, ?Z.lxor_spec, ?Z.bits_0 in * );
  repeat match goal with
         | H : @eq bool _ _ |- _ => revert H
         end;
  repeat match goal with
         | |- context [Z.testbit ?x n] => destruct (Z.testbit x n)
         end;
  cbn; intros; congruence.

(** Moving the bit [b] of the remaining mask [a] to the thread mask [t]. *)
Lemma move_bit_disjoint (a b t : Z) :
  Z.land b a = b -> Z.land t a = 0 -> Z.land (Z.lor t b) (Z.lxor a b) = 0.
Proof. intros H1 H2. mask_bits. Qed.

Lemma move_bit_union (a b t : Z) :
  Z.land b a = b -> Z.lor (Z.lor t b) (Z.lxor a b) = Z.lor t a.
Proof. intros H1. mask_bits. Qed.

Lemma move_bit_other (a b t x : Z) :
  Z.land b a = b -> Z.land x a = 0 -> Z.land x t = 0 ->
  Z.land x (Z.lor t b) = 0 /\ Z.land x (Z.lxor a b) = 0.
Proof. intros H1 H2 H3. split; mask_bits. Qed.

Lemma move_bit_thread (a b t : Z) :
  Z.land b a = b -> Z.land t a = 0 -> Z.land t b = 0.
Proof. intros H1 H2. mask_bits. Qed.

Lemma move_bit_rest (a b : Z) :
  Z.land b a = b -> Z.land (Z.lxor a b) b = 0 /\ Z.lor (Z.lxor a b) b = a.
Proof. intros H1. split; mask_bits. Qed.

Lemma lxor_disjoint (t a : Z) : Z.land t a = 0 -> Z.lxor (Z.lor t a) t = a.
Proof. intros H. mask_bits. Qed.

(** ** Disjoint masks *)

Lemma parts_single (m : Z) : parts [m] m.
Proof. exists 0. split; [apply Z.land_0_r|]. split; [apply Z.lor_0_r|reflexivity]. Qed.

Lemma parts_single_inv (a m : Z) : parts [a] m -> a = m.
Proof. intros (m' & _ & H & ->). rewrite Z.lor_0_r in H. exact H. Qed.

Lemma parts_pair (t a m : Z) : parts [t; a] m <-> Z.land t a = 0 /\ Z.lor t a = m.
Proof.
  split.
  - intros (m' & H1 & H2 & H3). apply parts_single_inv in H3. subst m'. auto.
  - intros [H1 H2]. exists a. split; [exact H1|]. split; [exact H2|apply parts_single].
Qed.

Lemma parts_move (done : list Z) (t a b m : Z) :
  Z.land b a = b -> parts (done ++ [t; a]) m ->
  parts (done ++ [Z.lor t b; Z.lxor a b]) m.
Proof.
  intros Hb. revert m. induction done as [|x done IH]; intros m; cbn [app].
  - rewrite !parts_pair. intros [H1 H2]. split.
    + apply move_bit_disjoint; assumption.
    + rewrite move_bit_union by assumption. exact H2.
  - intros (m' & H1 & H2 & H3). exists m'. auto.
Qed.

Lemma parts_zero (done : list Z) (a m : Z) :
  parts (done ++ [a]) m -> parts (done ++ [0; a]) m.
Proof.
  revert m. induction done as [|x done IH]; intros m; cbn [app].
  - intros H. apply parts_single_inv in H. subst m. apply parts_pair.
    split; [apply Z.land_0_l|apply Z.lor_0_l].
  - intros (m' & H1 & H2 & H3). exists m'. auto.
Qed.

Lemma parts_last (done : list Z) (t a m : Z) :
  parts (done ++ [t; a]) m -> Z.land t a = 0.
Proof.
  revert m. induction done as [|x done IH]; intros m; cbn [app].
  - rewrite parts_pair. intros [H _]. exact H.
  - intros (m' & _ & _ & H3). eauto.
Qed.

Lemma parts_union (l : list Z) (m : Z) : parts l m -> mask_union l = m.
Proof.
  revert m. induction l as [|x l IH]; intros m; cbn [parts mask_union foldr].
  - intros ->. reflexivity.
  - intros (m' & _ & H2 & H3). apply IH in H3. unfold mask_union in H3. rewrite H3. exact H2.
Qed.

Lemma parts_member (l : list Z) (m : Z) (i : nat) (x : Z) :
  parts l m -> l !! i = Some x -> Z.land x m = x.
Proof.
  revert m i. induction l as [|y l IH]; intros m i Hp Hi; [discriminate|].
  destruct Hp as (m' & H1 & H2 & H3). destruct i as [|i]; cbn in Hi.
  - injection Hi as ->. clear - H2. mask_bits.
  - pose proof (IH m' i H3 Hi) as H. clear - H H2. mask_bits.
Qed.

Lemma parts_disjoint (l : list Z) (m : Z) (i j : nat) (x y : Z) :
  parts l m -> i <> j -> l !! i = Some x -> l !! j = Some y -> Z.land x y = 0.
Proof.
  revert m i j. induction l as [|z l IH]; intros m i j Hp Hij Hi Hj; [discriminate|].
  destruct Hp as (m' & H1 & H2 & H3).
  destruct i as [|i], j as [|j]; cbn in Hi, Hj; try lia.
  - injection Hi as ->. pose proof (parts_member l m' j y H3 Hj) as H.
    clear - H H1. mask_bits.
  - injection Hj as ->. pose proof (parts_member l m' i x H3 Hi) as H.
    clear - H H1. mask_bits.
  - apply (IH m' i j); auto.
Qed.

(** ** Loads and stores *)

Lemma load_middle (l1 l2 : list Z) (x i : Z) :
  i = Z.of_nat (length l1) -> load (l1 ++ x :: l2) i = Some x.
Proof.
  intros ->. unfold load. rewrite length_app. cbn [length].
  destruct (Z.ltb_spec (Z.of_nat (length l1)) (Z.of_nat (length l1 + S (length l2)))); [|lia].
  rewrite Nat2Z.id. apply list_lookup_middle. reflexivity.
Qed.

Lemma store_middle (l1 l2 : list Z) (x v i : Z) :
  i = Z.of_nat (length l1) -> store (l1 ++ x :: l2) i v = Some (l1 ++ v :: l2)%list.
Proof.
  intros ->. unfold store. rewrite length_app. cbn [length].
  destruct (Z.ltb_spec (Z.of_nat (length l1)) (Z.of_nat (length l1 + S (length l2)))); [|lia].
  rewrite Nat2Z.id. f_equal. rewrite insert_app_r_alt by lia.
  rewrite Nat.sub_diag. reflexivity.
Qed.

Lemma wrap64_small (x : Z) : 0 <= x < 2 ^ 64 -> wrap64 x = x.
Proof. intros H. unfold wrap64. apply Z.mod_small. exact H. Qed.

Lemma popcnt64_range (x : Z) : 0 <= popcnt64 x <= 64.
Proof. unfold popcnt64. pose proof (popcount_range 64 x). lia. Qed.

Lemma popcnt64_0 : popcnt64 0 = 0.
Proof. exact (popcount_0 64). Qed.

Lemma popcnt64_lor (x y : Z) :
  Z.land x y = 0 -> popcnt64 (Z.lor x y) = popcnt64 x + popcnt64 y.
Proof. exact (popcount_lor 64 x y). Qed.

Lemma popcnt64_pow2 (k : Z) : 0 <= k < 64 -> popcnt64 (2 ^ k) = 1.
Proof. intros Hk. unfold popcnt64. apply popcount_pow2. lia. Qed.

(** Taking the lowest bit out of a mask that has a bit. *)
Lemma take_bit (a : Z) :
  0 <= a < 2 ^ 64 -> 0 < popcnt64 a ->
  let b := lowest_bit a in
  Z.land b a = b /\ popcnt64 b = 1 /\
  0 <= Z.lxor a b < 2 ^ 64 /\ popcnt64 (Z.lxor a b) = popcnt64 a - 1.
Proof.
  intros Ha Hpc. assert (a <> 0) as Hne.
  { intros ->. rewrite popcnt64_0 in Hpc. lia. }
  destruct (lowest_bit_spec a ltac:(lia)) as (k & Hk & Hb & Hsub).
  cbn zeta. rewrite Hb. split; [exact Hsub|].
  pose proof (popcnt64_pow2 k Hk) as Hp1.
  split; [exact Hp1|].
  destruct (move_bit_rest a (2 ^ k) Hsub) as [Hd Hu].
  pose proof (Z.add_lor_land (Z.lxor a (2 ^ k)) (2 ^ k)) as Hadd.
  rewrite Hd, Hu in Hadd.
  assert (0 < 2 ^ k) by (apply Z.pow_pos_nonneg; lia).
  assert (0 <= Z.lxor a (2 ^ k)) by (apply Z.lxor_nonneg; lia).
  split; [lia|].
  pose proof (popcnt64_lor _ _ Hd) as Hpl. rewrite Hu in Hpl. lia.
Qed.

(** ** The two loops *)


Section Spread.
Context (m num_threads : Z) (rest : list Z).
Hypothesis Hthreads : 1 <= num_threads <= popcnt64 m.

Local Abbreviation pc := (popcnt64 m).
Local Abbreviation q := (popcnt64 m / num_threads).

Lemma spread_arith : 1 <= q /\ num_threads * q <= pc /\ pc <= 64 /\ num_threads <= 64.
Proof.
  pose proof (popcnt64_range m) as Hr.
  assert (num_threads * q <= pc) by (apply Z.mul_div_le; lia).
  assert (1 <= q) by (apply Z.div_le_lower_bound; lia).
  lia.
Qed.

Lemma affinity_inner_step_eq (i j : Z) (ta : list Z) (a : Z) :
  affinity_inner_step pc num_threads i (j, ta, a) =
    if j <? q then
      t ← load ta i;
      ta ← store ta i (Z.lor t (lowest_bit a));
      Some (inl (wrap64 (j + 1), ta, Z.lxor a (lowest_bit a)))
    else Some (inr (ta, a)).
Proof.
  unfold affinity_inner_step, udiv.
  destruct (Z.eqb_spec num_threads 0) as [E|E]; [lia|reflexivity].
Qed.

(** The inner loop moves [q] bits, one at a time, from the remaining mask
    [a] to the mask [t] of thread [i]. *)
Lemma affinity_inner_loop (done zeros : list Z) (last r : Z) (d : nat) :
  forall (j t a : Z),
  0 <= j -> j + Z.of_nat d = q -> q <= r ->
  parts (done ++ [t; a]) m -> popcnt64 t = j -> popcnt64 a = r - j ->
  0 <= a < 2 ^ 64 -> Z.lor t a = last ->
  exists t' a',
    loop_nat (affinity_inner_step pc num_threads (Z.of_nat (length done))) (S d)
             (j, (done ++ t :: zeros ++ last :: rest)%list, a)
      = Some (inr ((done ++ t' :: zeros ++ last :: rest)%list, a')) /\
    parts (done ++ [t'; a']) m /\ popcnt64 t' = q /\ popcnt64 a' = r - q /\
    0 <= a' < 2 ^ 64 /\ Z.lor t' a' = last.
Proof.
  pose proof spread_arith as Har.
  induction d as [|d IH]; intros j t a Hj Hd Hr Hp Ht Ha Hb Hl;
    rewrite loop_nat_S, affinity_inner_step_eq.
  - assert (j = q) as Ej by lia. rewrite Ej, Z.ltb_irrefl.
    exists t, a. split; [reflexivity|]. split; [exact Hp|]. split; [lia|].
    split; [lia|]. split; [exact Hb|exact Hl].
  - destruct (Z.ltb_spec j q) as [_|]; [|lia].
    rewrite (load_middle done _ t) by reflexivity. cbn [mbind option_bind].
    rewrite (store_middle done _ t) by reflexivity. cbn [mbind option_bind continue].
    rewrite wrap64_small by lia.
    destruct (take_bit a Hb ltac:(lia)) as (Hsub & Hb1 & Hb' & Hpa).
    pose proof (parts_last _ _ _ _ Hp) as Hta.
    apply (IH (j + 1)); try lia.
    + apply parts_move; assumption.
    + rewrite popcnt64_lor, Hb1; [lia|].
      apply (move_bit_thread a); assumption.
    + rewrite move_bit_union by assumption. exact Hl.
Qed.

Lemma affinity_outer_step_eq (i : Z) (ta : list Z) (a : Z) :
  affinity_outer_step pc num_threads (i, ta, a) =
    if i <? num_threads - 1 then
      '(ta, a) ← run_loop (affinity_inner_step pc num_threads i) (0, ta, a);
      ti ← load ta i;
      tl ← load ta (num_threads - 1);
      ta ← store ta (num_threads - 1) (Z.lxor tl ti);
      Some (inl (wrap64 (i + 1), ta, a))
    else Some (inr ta).
Proof.
  pose proof spread_arith as Har.
  unfold affinity_outer_step. rewrite wrap64_small by lia. reflexivity.
Qed.

(** The outer loop: [done] are the threads served so far, [d] the threads
    before the last one that are still to be served, [a] what is left. *)
Lemma affinity_outer_loop (d : nat) :
  forall (done : list Z) (a : Z),
  Z.of_nat (length done) + Z.of_nat d = num_threads - 1 ->
  parts (done ++ [a]) m -> Forall (fun x => popcnt64 x = q) done ->
  popcnt64 a = pc - Z.of_nat (length done) * q -> 0 <= a < 2 ^ 64 ->
  exists masks last,
    loop_nat (affinity_outer_step pc num_threads) (S d)
             (Z.of_nat (length done), (done ++ replicate d 0 ++ a :: rest)%list, a)
      = Some (inr (masks ++ last :: rest)%list) /\
    Z.of_nat (length masks) = num_threads - 1 /\
    parts (masks ++ [last]) m /\ Forall (fun x => popcnt64 x = q) masks /\
    popcnt64 last = pc - (num_threads - 1) * q.
Proof.
  pose proof spread_arith as Har.
  induction d as [|d IH]; intros done a Hd Hp Hq Ha Hb;
    rewrite loop_nat_S, affinity_outer_step_eq.
  - destruct (Z.ltb_spec (Z.of_nat (length done)) (num_threads - 1)); [lia|].
    exists done, a. split; [reflexivity|]. split; [lia|]. split; [exact Hp|].
    split; [exact Hq|]. rewrite Ha.
    replace (Z.of_nat (length done)) with (num_threads - 1) by lia. reflexivity.
  - destruct (Z.ltb_spec (Z.of_nat (length done)) (num_threads - 1)) as [Hlt|]; [|lia].
    cbn [replicate app].
    destruct (affinity_inner_loop done (replicate d 0) a (popcnt64 a) (Z.to_nat q) 0 0 a)
      as (t' & a' & Hloop & Hp' & Ht' & Ha' & Hb' & Hl'); try lia.
    { apply parts_zero. exact Hp. }
    { apply popcnt64_0. }
    { apply Z.lor_0_l. }
    rewrite (run_loop_intro _ _ _ _ Hloop) by lia. cbn [mbind option_bind].
    rewrite (load_middle done _ t' (Z.of_nat (length done))) by reflexivity.
    cbn [mbind option_bind].
    assert (num_threads - 1 = Z.of_nat (length (done ++ t' :: replicate d 0)%list)) as El.
    { rewrite length_app. cbn [length]. rewrite length_replicate. lia. }
    replace (done ++ t' :: replicate d 0 ++ a :: rest)%list
      with ((done ++ t' :: replicate d 0) ++ a :: rest)%list
      by (rewrite <- app_assoc; reflexivity).
    rewrite (load_middle _ _ a) by exact El. cbn [mbind option_bind].
    rewrite (store_middle _ _ a) by exact El. cbn [mbind option_bind continue].
    rewrite wrap64_small by lia.
    rewrite <- Hl', lxor_disjoint by (apply (parts_last done _ _ m); exact Hp').
    specialize (IH (done ++ [t'])%list a').
    rewrite length_app in IH. cbn [length] in IH.
    replace (Z.of_nat (length done + 1)) with (Z.of_nat (length done) + 1) in IH by lia.
    rewrite <- !app_assoc in IH. cbn [app] in IH.
    rewrite <- app_assoc. cbn [app].
    apply IH.
    + lia.
    + exact Hp'.
    + apply Forall_app. split; [exact Hq|]. apply Forall_cons. split; [exact Ht'|apply Forall_nil; exact I].
    + rewrite Ha', Ha. lia.
    + exact Hb'.
Qed.
End Spread.

(** Used instead of a conversion where the continuation holds a loop. *)
Lemma bind_Some {A B : Type} (x : A) (f : A -> option B) : Some x ≫= f = f x.
Proof. reflexivity. Qed.

Lemma memset_0_eq (p : list Z) (n : Z) :
  0 <= n <= Z.of_nat (length p) -> n < 2 ^ 61 ->
  memset_0 p n = Some (replicate (Z.to_nat n) 0 ++ drop (Z.to_nat n) p)%list.
Proof.
  intros Hn Hp. unfold memset_0, wrap64.
  assert ((n * 8) mod 2 ^ 64 / 8 = n) as -> by lia.
  destruct (Z.leb_spec n (Z.of_nat (length p))); [reflexivity|lia].
Qed.

Lemma SetThreadAffinity_refuses (p : list Z) (n : Z) (mask : option Z) :
  0 <= n <= Z.of_nat (length p) -> n < 2 ^ 61 ->
  match mask with None => True | Some a => popcnt64 a < n end ->
  SetThreadAffinity p n mask
    = Some (false, (replicate (Z.to_nat n) 0 ++ drop (Z.to_nat n) p)%list).
Proof.
  intros Hn Hp Hm. unfold SetThreadAffinity. rewrite memset_0_eq by assumption.
  cbn [mbind option_bind]. destruct mask as [a|]; [|reflexivity].
  destruct (Z.ltb_spec (popcnt64 a) n); [reflexivity|lia].
Qed.

Lemma SetThreadAffinity_accepts (p : list Z) (num_threads affinity : Z) :
  0 <= affinity < 2 ^ 64 -> 1 <= num_threads <= popcnt64 affinity ->
  num_threads <= Z.of_nat (length p) ->
  exists masks last,
    SetThreadAffinity p num_threads (Some affinity)
      = Some (true, (masks ++ last :: drop (Z.to_nat num_threads) p)%list) /\
    Z.of_nat (length masks) = num_threads - 1 /\
    parts (masks ++ [last]) affinity /\
    Forall (fun x => popcnt64 x = popcnt64 affinity / num_threads) masks /\
    popcnt64 last
      = popcnt64 affinity - (num_threads - 1) * (popcnt64 affinity / num_threads).
Proof.
  intros Ha Hn Hp. pose proof (spread_arith affinity num_threads Hn) as Har.
  destruct (affinity_outer_loop affinity num_threads (drop (Z.to_nat num_threads) p) Hn
              (Z.to_nat (num_threads - 1)) [] affinity)
    as (masks & last & Hloop & Hlen & Hparts & Hq & Hlast).
  { cbn [length]. lia. }
  { apply parts_single. }
  { apply Forall_nil. exact I. }
  { cbn [length]. lia. }
  { exact Ha. }
  exists masks, last. split; [|auto].
  unfold SetThreadAffinity. rewrite memset_0_eq by lia.
  cbn [mbind option_bind]. destruct (Z.ltb_spec (popcnt64 affinity) num_threads); [lia|].
  rewrite wrap64_small by lia.
  replace (Z.to_nat num_threads) with (Z.to_nat (num_threads - 1) + 1)%nat at 1 by lia.
  rewrite replicate_add, <- app_assoc. cbn [replicate app].
  rewrite (store_middle _ _ 0) by (rewrite length_replicate; lia).
  rewrite bind_Some. change (Z.of_nat (length [])) with 0 in Hloop.
  cbn [app] in Hloop.
  rewrite (run_loop_intro _ _ _ _ Hloop) by lia. reflexivity.
Qed.

(** X20.  With at least one thread and at least as many bits in the
    process mask as threads, [SetThreadAffinity] returns [TRUE] and gives
    every thread a mask: the masks are pairwise disjoint, their union is the
    process mask, each thread but the last gets [pc / num_threads] bits
    (one or more), and the last gets these and all of the remainder
    [pc % num_threads]; the cells after the first [num_threads] are not
    touched (SetThreadAffinity, lines 1079-1107). *)
Theorem SetThreadAffinity_spreads (p : list Z) (num_threads affinity : Z) :
  0 <= affinity < 2 ^ 64 -> 1 <= num_threads <= popcnt64 affinity ->
  num_threads <= Z.of_nat (length p) ->
  exists masks last,
    SetThreadAffinity p num_threads (Some affinity)
      = Some (true, (masks ++ last :: drop (Z.to_nat num_threads) p)%list) /\
    Z.of_nat (length masks) = num_threads - 1 /\
    mask_union (masks ++ [last]) = affinity /\
    (forall i j x y, i <> j ->
       (masks ++ [last])%list !! i = Some x -> (masks ++ [last])%list !! j = Some y ->
       Z.land x y = 0) /\
    1 <= popcnt64 affinity / num_threads /\
    Forall (fun x => popcnt64 x = popcnt64 affinity / num_threads) masks /\
    popcnt64 last
      = popcnt64 affinity / num_threads + popcnt64 affinity mod num_threads.
Proof.
  intros Ha Hn Hp.
  destruct (SetThreadAffinity_accepts p num_threads affinity Ha Hn Hp)
    as (masks & last & Hrun & Hlen & Hparts & Hq & Hlast).
  pose proof (spread_arith affinity num_threads Hn) as Har.
  exists masks, last. split; [exact Hrun|]. split; [exact Hlen|].
  split; [apply parts_union; exact Hparts|].
  split; [intros i j x y; apply (parts_disjoint _ affinity); exact Hparts|].
  split; [lia|]. split; [exact Hq|]. rewrite Hlast. lia.
Qed.

Lemma SetThreadAffinity_spreads_witness :
  exists masks last,
    SetThreadAffinity [7; 7; 7; 7] 3 (Some 0xB7)
      = Some (true, (masks ++ last :: drop (Z.to_nat 3) [7; 7; 7; 7])%list) /\
    Z.of_nat (length masks) = 3 - 1 /\
    mask_union (masks ++ [last]) = 0xB7 /\
    (forall i j x y, i <> j ->
       (masks ++ [last])%list !! i = Some x -> (masks ++ [last])%list !! j = Some y ->
       Z.land x y = 0) /\
    1 <= popcnt64 0xB7 / 3 /\
    Forall (fun x => popcnt64 x = popcnt64 0xB7 / 3) masks /\
    popcnt64 last = popcnt64 0xB7 / 3 + popcnt64 0xB7 mod 3.
Proof.
  apply (SetThreadAffinity_spreads [7; 7; 7; 7] 3 0xB7).
  - lia.
  - vm_compute. split; discriminate.
  - cbn. lia.
Defined.

(** X21.  For 1 or more threads in an array that has a cell for each,
    [SetThreadAffinity] returns, whatever the process mask: [TRUE] exactly
    when [GetProcessAffinityMask] succeeded and the mask has at least
    [num_threads] bits; the array keeps its length, its cells after the
    first [num_threads] are not touched, and on [FALSE] the first
    [num_threads] cells are 0 (SetThreadAffinity, lines 1079-1107). *)
Theorem SetThreadAffinity_verdict (p : list Z) (num_threads : Z) (mask : option Z) :
  1 <= num_threads <= Z.of_nat (length p) -> num_threads < 2 ^ 61 ->
  match mask with None => True | Some a => 0 <= a < 2 ^ 64 end ->
  exists (b : bool) (ta : list Z),
    SetThreadAffinity p num_threads mask = Some (b, ta) /\
    (b = true <-> exists a, mask = Some a /\ num_threads <= popcnt64 a) /\
    length ta = length p /\
    drop (Z.to_nat num_threads) ta = drop (Z.to_nat num_threads) p /\
    (b = false -> take (Z.to_nat num_threads) ta = replicate (Z.to_nat num_threads) 0).
Proof.
  intros Hn Hn61 Hm.
  assert (forall l : list Z, Z.of_nat (length l) = num_threads ->
            length (l ++ drop (Z.to_nat num_threads) p)%list = length p /\
            drop (Z.to_nat num_threads) (l ++ drop (Z.to_nat num_threads) p)%list
              = drop (Z.to_nat num_threads) p /\
            take (Z.to_nat num_threads) (l ++ drop (Z.to_nat num_threads) p)%list = l) as Hl.
  { intros l El. split; [|split].
    - rewrite length_app, length_drop. lia.
    - rewrite drop_app_length' by lia. reflexivity.
    - rewrite take_app_length' by lia. reflexivity. }
  assert (match mask with None => True | Some a => popcnt64 a < num_threads end \/
          exists a, mask = Some a /\ 0 <= a < 2 ^ 64 /\ num_threads <= popcnt64 a) as [Hf|Ht].
  { destruct mask as [a|]; [|left; exact I].
    destruct (Z_lt_le_dec (popcnt64 a) num_threads); [left; assumption|right; eauto]. }
  - rewrite SetThreadAffinity_refuses by (lia || assumption).
    destruct (Hl (replicate (Z.to_nat num_threads) 0)) as (H1 & H2 & H3);
      [rewrite length_replicate; lia|].
    eexists false, _. split; [reflexivity|]. split; [|auto].
    split; [discriminate|]. intros (a & -> & Ha). lia.
  - destruct Ht as (a & -> & Ha & Hpc).
    destruct (SetThreadAffinity_accepts p num_threads a Ha ltac:(lia) ltac:(lia))
      as (masks & last & Hrun & Hlen & _).
    rewrite Hrun.
    replace (masks ++ last :: drop (Z.to_nat num_threads) p)%list
      with ((masks ++ [last]) ++ drop (Z.to_nat num_threads) p)%list
      by (rewrite <- app_assoc; reflexivity).
    destruct (Hl (masks ++ [last])%list) as (H1 & H2 & H3);
      [rewrite length_app; cbn [length]; lia|].
    eexists true, _. split; [reflexivity|]. split; [|split; [exact H1|split; [exact H2|discriminate]]].
    split; [eauto|reflexivity].
Qed.

Lemma SetThreadAffinity_verdict_witness :
  exists (b : bool) (ta : list Z),
    SetThreadAffinity [7; 7; 7; 7] 3 (Some 3) = Some (b, ta) /\
    (b = true <-> exists a, Some 3 = Some a /\ 3 <= popcnt64 a) /\
    length ta = length [7; 7; 7; 7] /\
    drop (Z.to_nat 3) ta = drop (Z.to_nat 3) [7; 7; 7; 7] /\
    (b = false -> take (Z.to_nat 3) ta = replicate (Z.to_nat 3) 0).
Proof.
  apply (SetThreadAffinity_verdict [7; 7; 7; 7] 3 (Some 3)).
  - cbn. lia.
  - lia.
  - lia.
Defined.

(** X22.  With [num_threads] 0 nothing stops the function before
    [thread_affinity[num_threads - 1] = affinity]: when
    [GetProcessAffinityMask] succeeds the store is at index [2^64 - 1],
    outside the array; only when the call fails does the function return
    ([FALSE], the array untouched) (SetThreadAffinity, lines 1084-1096). *)
Theorem SetThreadAffinity_zero_threads (p : list Z) (affinity : Z) :
  Z.of_nat (length p) < 2 ^ 64 ->
  SetThreadAffinity p 0 (Some affinity) = None /\
  SetThreadAffinity p 0 None = Some (false, p).
Proof.
  intros Hp. unfold SetThreadAffinity.
  assert (memset_0 p 0 = Some p) as ->.
  { rewrite memset_0_eq by lia. reflexivity. }
  cbn [mbind option_bind]. split; [|reflexivity].
  pose proof (popcnt64_range affinity) as Hr.
  destruct (Z.ltb_spec (popcnt64 affinity) 0); [lia|].
  unfold store. change (wrap64 (0 - 1)) with (2 ^ 64 - 1).
  destruct (Z.ltb_spec (2 ^ 64 - 1) (Z.of_nat (length p))); [lia|reflexivity].
Qed.

Lemma SetThreadAffinity_zero_threads_witness :
  SetThreadAffinity [7; 7] 0 (Some 255) = None /\
  SetThreadAffinity [7; 7] 0 None = Some (false, [7; 7]).
Proof.
  apply (SetThreadAffinity_zero_threads [7; 7] 255). cbn. lia.
Defined.

(** ** Two calls in a row *)

(** One call raises [filled] by 1 or leaves it, and raises it only when the
    key was duplicated. *)
Lemma htab_hash_filled_step (h h' : htab_table) (key : ptr string) (ok : bool) (r : Z) :
  reachable h -> htab_hash key (Ptr h) ok = Some (r, Ptr h') ->
  filled h <= filled h' <= filled h + 1 /\ (filled h' = filled h + 1 -> ok = true).
Proof.
  intros Hr Hhash.
  destruct (table h) as [|tbl] eqn:Ht.
  { unfold htab_hash in Hhash. rewrite Ht in Hhash. injection Hhash as _ <-. lia. }
  destruct key as [|s].
  { unfold htab_hash in Hhash. rewrite Ht in Hhash. injection Hhash as _ <-. lia. }
  destruct (reachable_live h tbl Hr Ht) as [_ Hs _ _ Hf].
  rewrite (htab_hash_live h tbl s ok Ht) in Hhash.
  destruct (primary_hash s (size h)) as [hval|]; cbn in Hhash; [|discriminate].
  destruct (htab_search tbl (size h) hval s) as [[idx|idx]|]; cbn in Hhash;
    [| |discriminate].
  - injection Hhash as _ <-. lia.
  - destruct (htab_insert_cases _ _ _ _ _ _ _ _ Hhash)
      as [(_ & _ & ->)|(Hlt & _ & _ & _ & [(-> & _ & ->)|(_ & _ & ->)])]; [lia| |lia].
    rewrite wrap32_small by lia. split; [lia|reflexivity].
Qed.

(** A call that returns an index other than 0 has found or entered the key:
    it does the same when [malloc] succeeds. *)
Lemma htab_hash_found_any_ok (h h' : htab_table) (tbl : list htab_entry) (s : string)
    (ok : bool) (r : Z) :
  table h = Ptr tbl -> htab_hash (Ptr s) (Ptr h) ok = Some (r, Ptr h') -> r <> 0 ->
  htab_hash (Ptr s) (Ptr h) true = Some (r, Ptr h').
Proof.
  intros Ht Hhash Hr. destruct ok; [exact Hhash|].
  rewrite (htab_hash_live h tbl s false Ht) in Hhash.
  rewrite (htab_hash_live h tbl s true Ht).
  destruct (primary_hash s (size h)) as [hval|]; cbn in Hhash |- *; [|discriminate].
  destruct (htab_search tbl (size h) hval s) as [[idx|idx]|]; cbn in Hhash |- *;
    [exact Hhash| |discriminate].
  destruct (htab_insert_cases _ _ _ _ _ _ _ _ Hhash)
    as [(_ & -> & _)|(_ & _ & _ & _ & [(E & _)|(_ & -> & _)])];
    [contradiction|discriminate|contradiction].
Qed.

(** Two calls for the same key raise [filled] by at most 1 together. *)
Lemma htab_hash_pair_filled (h h1 h2 : htab_table) (s : string) (ok1 ok2 : bool)
    (r1 r2 : Z) :
  reachable h ->
  htab_hash (Ptr s) (Ptr h) ok1 = Some (r1, Ptr h1) ->
  htab_hash (Ptr s) (Ptr h1) ok2 = Some (r2, Ptr h2) ->
  filled h <= filled h2 <= filled h + 1.
Proof.
  intros Hr H1 H2.
  destruct (htab_hash_filled_step h h1 (Ptr s) ok1 r1 Hr H1) as [Hb1 Hok1].
  pose proof (reach_hash (Ptr s) ok1 r1 h h1 Hr H1) as Hr1.
  destruct (htab_hash_filled_step h1 h2 (Ptr s) ok2 r2 Hr1 H2) as [Hb2 _].
  destruct ok1.
  - destruct (table h) as [|tbl] eqn:Ht.
    + unfold htab_hash in H1. rewrite Ht in H1. injection H1 as _ <-. lia.
    + rewrite (htab_hash_again h h1 tbl s r1 Ht H1 ok2) in H2.
      injection H2 as _ <-. lia.
  - assert (filled h1 = filled h) as E.
    { destruct (Z.eq_dec (filled h1) (filled h + 1)) as [E|E]; [|lia].
      specialize (Hok1 E). discriminate. }
    lia.
Qed.

(** * The claims *)

(** C1, at the inputs where the code departs from it.  The claim has Create
    produce the smallest odd prime at or above [n | 1] for every [n >= 1].
    [htab_create(1, ...)] settles on the size 1, which is no prime, because
    [isprime(1)] is true; [htab_create(3, ...)] settles on 5 although 3 is
    an odd prime, because [isprime(3)] is false.  In both cases the new
    table has [filled = 0]. *)
Theorem C1_create_1_and_3 :
  htab_create 1 (Ptr HTAB_EMPTY) true
    = Some (true, Ptr {| table := Ptr (replicate 2 zero_entry); size := 1; filled := 0 |}) /\
  ~ Z.prime 1 /\
  htab_create 3 (Ptr HTAB_EMPTY) true = Some (true, Ptr table_5) /\
  size table_5 = 5 /\ Z.lor 3 1 = 3 /\ Z.prime 3.
Proof.
  split; [vm_compute; reflexivity|]. split; [exact Z.not_prime_1|].
  split; [vm_compute; reflexivity|]. split; [reflexivity|].
  split; [reflexivity|exact Z.prime_3].
Qed.

(** C2, at an input where the code departs from it.  The claim has a failed
    key duplication leave the target slot unoccupied, tag zero.  In the
    table of size 11 just created, the home of "apple" is the free slot 4;
    when [malloc] fails the call returns 0 and [filled] stays 0, but slot 4
    is left with the tag 4 and no key. *)
Theorem C2_failed_duplication_keeps_tag :
  table_11 = {| table := Ptr (replicate 12 zero_entry); size := 11; filled := 0 |} /\
  htab_hash (Ptr "apple") (Ptr table_11) false =
    Some (0, Ptr {| table := Ptr (<[4%nat := {| used := 4; str := NULL |}]>
                                    (replicate 12 zero_entry));
                    size := 11; filled := 0 |}).
Proof. split; [reflexivity|vm_compute; reflexivity]. Qed.

(** C3, at an input where the code departs from it.  The claim has the
    probe come back to its start only when [filled] equals the capacity.
    [table_5_lost_slot] is reached by five calls on a table of size 5, one
    of which could not duplicate its key: all five slots carry a tag and
    [filled] is 4.  The probe for "f" (home 2, step 3) steps over every
    slot and leaves at the start index 2; as [filled < size], the call then
    writes "f" over the key "a" of slot 2 and returns 2. *)
Theorem C3_probe_exhausted_below_capacity :
  reachable table_5_lost_slot /\
  filled table_5_lost_slot = 4 /\ size table_5_lost_slot = 5 /\
  primary_hash "f" 5 = Some 2 /\ secondary_hash 2 5 = Some 3 /\
  (exists tbl, table table_5_lost_slot = Ptr tbl /\
     tbl !! 2%nat = Some {| used := 2; str := Ptr "a" |} /\
     run_loop (probe_step tbl 5 2 3 "f") 2 = Some (NewEntry 2)) /\
  htab_hash (Ptr "f") (Ptr table_5_lost_slot) true =
    Some (2, Ptr {| table := Ptr [ zero_entry;
                                   {| used := 1; str := Ptr "d" |};
                                   {| used := 2; str := Ptr "f" |};
                                   {| used := 3; str := Ptr "b" |};
                                   {| used := 4; str := NULL |};
                                   {| used := 1; str := Ptr "e" |} ];
                    size := 5; filled := 5 |}).
Proof.
  split; [exact table_5_lost_slot_reachable|].
  split; [reflexivity|]. split; [reflexivity|].
  split; [vm_compute; reflexivity|]. split; [vm_compute; reflexivity|].
  split; [|vm_compute; reflexivity].
  eexists. split; [reflexivity|]. split; [reflexivity|vm_compute; reflexivity].
Qed.

(** C4.  In a table that [htab_create] has just produced, of size [c],
    entering [c] distinct keys (every duplication succeeding) succeeds
    each time: the calls return pairwise distinct indices of [1, c], each
    key is then in the slot of its index, under a non-zero tag, and is found
    again at that index, and [filled] is [c]; after that, a call with one
    more distinct key returns 0 and leaves the table as it is, whether
    [malloc] would succeed or not.  And [filled] never exceeds [size],
    after any sequence of calls. *)
Theorem C4_capacity_respected (nel : Z) (h0 h : htab_table) (keys : list string) :
  is_uint32 nel ->
  htab_create nel (Ptr h0) true = Some (true, Ptr h) ->
  NoDup keys -> Z.of_nat (length keys) = size h ->
  (exists idxs h' tbl',
      insert_all keys (Ptr h) = Some (idxs, Ptr h') /\
      length idxs = length keys /\
      Forall (fun idx => 1 <= idx <= size h) idxs /\ NoDup idxs /\
      filled h' = size h /\ size h' = size h /\ table h' = Ptr tbl' /\
      (forall j k i, keys !! j = Some k -> idxs !! j = Some i ->
         (exists e, tbl' !! Z.to_nat i = Some e /\ str e = Ptr k /\ used e <> 0) /\
         forall ok, htab_hash (Ptr k) (Ptr h') ok = Some (i, Ptr h')) /\
      forall s ok, s ∉ keys -> htab_hash (Ptr s) (Ptr h') ok = Some (0, Ptr h')) /\
  (forall t, reachable t -> filled t <= size t).
Proof.
  intros Hu Hc Hnd Hlen. split.
  - assert (table h0 = NULL) as Ht0.
    { destruct (table h0) eqn:E; [reflexivity|].
      rewrite htab_create_live in Hc by (rewrite E; discriminate). discriminate. }
    destruct (htab_create_keyed nel h0 Hu Ht0) as (h1 & tbl & E & Hk & Hf).
    rewrite E in Hc. injection Hc as <-.
    destruct (insert_all_distinct keys h1 tbl [] Hk Hnd)
      as (idxs & h' & tbl' & keys' & Hins & Hall & Hk' & Hmem & Hf' & Hs').
    { intros k _ Hin. inversion Hin. }
    { lia. }
    destruct (insert_all_found keys h1 tbl [] Hk Hnd)
      as (idxs2 & h2 & Hins2 & Hlen2 & Hnd2 & _ & Hget).
    { intros k _ Hin. inversion Hin. }
    { lia. }
    rewrite Hins in Hins2. injection Hins2 as <- <-.
    destruct (insert_all_entered keys h1 h' tbl [] idxs Hk Hins) as (tbl2 & Hk2 & _ & Hent).
    pose proof (live_table _ _ (keyed_live _ _ _ Hk2)) as T2.
    exists idxs, h', tbl2. split; [exact Hins|]. split; [exact Hlen2|].
    split; [exact Hall|]. split; [exact Hnd2|].
    split; [lia|]. split; [exact Hs'|]. split; [exact T2|]. split.
    + intros j k i Hj Hi. split.
      * apply (entered_slot h' tbl2 _ k i Hk2). rewrite Hs'.
        apply (Hent j k i Hj Hi). destruct (Hget j k i true Hj Hi) as [Hi1 _]. lia.
      * intros ok. apply (Hget j k i ok Hj Hi).
    + intros s ok Hs. apply (keyed_hash_full h' tbl' keys' s ok Hk'); [|lia].
      intros Hin. apply Hmem in Hin. destruct Hin as [Hin|Hin]; [contradiction|inversion Hin].
  - intros t Hr. pose proof (reachable_shaped t Hr) as Hsh. unfold shaped in Hsh.
    destruct (table t); [lia|]. destruct Hsh as [_ _ _ _ Hf]. lia.
Qed.

Lemma C4_capacity_respected_witness :
  (exists idxs h' tbl',
      insert_all ["a"; "b"; "c"; "d"; "e"] (Ptr table_5) = Some (idxs, Ptr h') /\
      length idxs = length ["a"; "b"; "c"; "d"; "e"] /\
      Forall (fun idx => 1 <= idx <= size table_5) idxs /\ NoDup idxs /\
      filled h' = size table_5 /\ size h' = size table_5 /\ table h' = Ptr tbl' /\
      (forall j k i, ["a"; "b"; "c"; "d"; "e"] !! j = Some k -> idxs !! j = Some i ->
         (exists e, tbl' !! Z.to_nat i = Some e /\ str e = Ptr k /\ used e <> 0) /\
         forall ok, htab_hash (Ptr k) (Ptr h') ok = Some (i, Ptr h')) /\
      forall s ok, s ∉ ["a"; "b"; "c"; "d"; "e"] ->
                   htab_hash (Ptr s) (Ptr h') ok = Some (0, Ptr h')) /\
  (forall t, reachable t -> filled t <= size t).
Proof.
  apply (C4_capacity_respected 3 HTAB_EMPTY table_5 ["a"; "b"; "c"; "d"; "e"]).
  - unfold is_uint32. lia.
  - vm_compute. reflexivity.
  - repeat (apply NoDup_cons; split;
            [rewrite ?elem_of_cons, elem_of_nil; intuition discriminate|]).
    apply NoDup_nil. exact I.
  - reflexivity.
Defined.

(** C5 as stated fails: in the live, empty table of size 11 the first call
    for "apple" returns 0 when [malloc] fails, and the second call, whose
    [malloc] succeeds, returns the index 10 and raises [filled] from 0 to 1. *)
Lemma C5_counterexample :
  reachable table_11 /\ table table_11 <> NULL /\ filled table_11 < size table_11 /\
  exists h1 h2 r2,
    htab_hash (Ptr "apple") (Ptr table_11) false = Some (0, Ptr h1) /\
    htab_hash (Ptr "apple") (Ptr h1) true = Some (r2, Ptr h2) /\
    r2 <> 0 /\ filled h1 = 0 /\ filled h2 = 1.
Proof.
  split; [exact table_11_reachable|]. split; [discriminate|]. split; [reflexivity|].
  eexists _, _, 10. split; [vm_compute; reflexivity|].
  split; [vm_compute; reflexivity|]. split; [discriminate|]. split; reflexivity.
Qed.

(** C5, amended.  For every live table that is not full and every key:
    two calls in a row with the key raise [filled] by at most 1 together,
    whatever the allocations do; when the first call does not fail to
    duplicate the key, or returns an index other than 0, the second call
    returns the same index and leaves the table as the first call left it,
    so [filled] does not grow in the second; and in a table of size 3 or
    more both calls return. *)
Theorem C5_lookup_twice (h : htab_table) (tbl : list htab_entry) (s : string) :
  reachable h -> table h = Ptr tbl -> filled h < size h ->
  (3 <= size h ->
   exists r1 h1, htab_hash (Ptr s) (Ptr h) true = Some (r1, Ptr h1)) /\
  (forall r1 h1,
     htab_hash (Ptr s) (Ptr h) true = Some (r1, Ptr h1) ->
     (forall ok2, htab_hash (Ptr s) (Ptr h1) ok2 = Some (r1, Ptr h1)) /\
     filled h <= filled h1 <= filled h + 1) /\
  (forall ok1 ok2 r1 h1 r2 h2,
     htab_hash (Ptr s) (Ptr h) ok1 = Some (r1, Ptr h1) ->
     htab_hash (Ptr s) (Ptr h1) ok2 = Some (r2, Ptr h2) ->
     filled h <= filled h2 <= filled h + 1) /\
  (forall ok1 r1 h1,
     htab_hash (Ptr s) (Ptr h) ok1 = Some (r1, Ptr h1) -> r1 <> 0 ->
     forall ok2, htab_hash (Ptr s) (Ptr h1) ok2 = Some (r1, Ptr h1)) /\
  (3 <= size h ->
   forall ok1 ok2, exists r1 h1 r2 h2,
     htab_hash (Ptr s) (Ptr h) ok1 = Some (r1, Ptr h1) /\
     htab_hash (Ptr s) (Ptr h1) ok2 = Some (r2, Ptr h2)).
Proof.
  intros Hr Ht Hlt. pose proof (reachable_live h tbl Hr Ht) as Hl.
  split; [|split; [|split; [|split]]].
  - intros Hc3. destruct (htab_hash_defined h tbl s true Hl Hc3) as (r & h' & _ & E & _).
    eauto.
  - intros r1 h1 Hfirst. split; [exact (htab_hash_again h h1 tbl s r1 Ht Hfirst)|].
    apply (htab_hash_filled_step h h1 (Ptr s) true r1 Hr Hfirst).
  - intros ok1 ok2 r1 h1 r2 h2 H1 H2.
    exact (htab_hash_pair_filled h h1 h2 s ok1 ok2 r1 r2 Hr H1 H2).
  - intros ok1 r1 h1 H1 Hnz.
    apply (htab_hash_again h h1 tbl s r1 Ht).
    exact (htab_hash_found_any_ok h h1 tbl s ok1 r1 Ht H1 Hnz).
  - intros Hc3 ok1 ok2.
    destruct (htab_hash_defined h tbl s ok1 Hl Hc3)
      as (r1 & h1 & tbl1 & E1 & Ht1 & Hs1 & _).
    pose proof (reach_hash (Ptr s) ok1 r1 h h1 Hr E1) as Hr1.
    destruct (htab_hash_defined h1 tbl1 s ok2 (reachable_live h1 tbl1 Hr1 Ht1) ltac:(lia))
      as (r2 & h2 & _ & E2 & _).
    exists r1, h1, r2, h2. split; [exact E1|exact E2].
Qed.

Lemma C5_lookup_twice_witness :
  (3 <= size table_11 ->
   exists r1 h1, htab_hash (Ptr "apple") (Ptr table_11) true = Some (r1, Ptr h1)) /\
  (forall r1 h1,
     htab_hash (Ptr "apple") (Ptr table_11) true = Some (r1, Ptr h1) ->
     (forall ok2, htab_hash (Ptr "apple") (Ptr h1) ok2 = Some (r1, Ptr h1)) /\
     filled table_11 <= filled h1 <= filled table_11 + 1) /\
  (forall ok1 ok2 r1 h1 r2 h2,
     htab_hash (Ptr "apple") (Ptr table_11) ok1 = Some (r1, Ptr h1) ->
     htab_hash (Ptr "apple") (Ptr h1) ok2 = Some (r2, Ptr h2) ->
     filled table_11 <= filled h2 <= filled table_11 + 1) /\
  (forall ok1 r1 h1,
     htab_hash (Ptr "apple") (Ptr table_11) ok1 = Some (r1, Ptr h1) -> r1 <> 0 ->
     forall ok2, htab_hash (Ptr "apple") (Ptr h1) ok2 = Some (r1, Ptr h1)) /\
  (3 <= size table_11 ->
   forall ok1 ok2, exists r1 h1 r2 h2,
     htab_hash (Ptr "apple") (Ptr table_11) ok1 = Some (r1, Ptr h1) /\
     htab_hash (Ptr "apple") (Ptr h1) ok2 = Some (r2, Ptr h2)).
Proof.
  apply (C5_lookup_twice table_11 (replicate 12 zero_entry) "apple").
  - exact table_11_reachable.
  - reflexivity.
  - vm_compute. reflexivity.
Defined.

(** C6.  [htab_create(10, ...)] gives a table of size 11.  "apple" is then
    entered at index 4 and "banana" at index 1, after which [filled] is 2;
    the third call, for "apple" again, returns 4 and [filled] is still 2. *)
Theorem C6_apple_banana_apple :
  exists h0 h1 h2 h3 i1 i2,
    htab_create 10 (Ptr HTAB_EMPTY) true = Some (true, Ptr h0) /\ size h0 = 11 /\
    htab_hash (Ptr "apple") (Ptr h0) true = Some (i1, Ptr h1) /\
    htab_hash (Ptr "banana") (Ptr h1) true = Some (i2, Ptr h2) /\
    i1 <> 0 /\ i2 <> 0 /\ i1 <> i2 /\ filled h2 = 2 /\
    htab_hash (Ptr "apple") (Ptr h2) true = Some (i1, Ptr h3) /\ filled h3 = 2.
Proof.
  eexists _, _, _, _, 4, 1.
  split; [vm_compute; reflexivity|]. split; [reflexivity|].
  split; [vm_compute; reflexivity|]. split; [vm_compute; reflexivity|].
  split; [discriminate|]. split; [discriminate|]. split; [discriminate|].
  split; [reflexivity|]. split; [vm_compute; reflexivity|reflexivity].
Qed.

(** C7, at an input where the code departs from it.  The claim has every
    slot carry a tag exactly when it holds a key.  After
    [htab_create(10, ...)] and one call for "apple" whose [malloc] fails,
    slot 4 of the live table carries the tag 4 and holds no key. *)
Theorem C7_tag_without_key :
  exists h tbl e,
    run [Create 10 true; Hash "apple" false] HTAB_EMPTY = Some ([1; 0], h) /\
    reachable h /\ table h = Ptr tbl /\
    tbl !! 4%nat = Some e /\ used e = 4 /\ str e = NULL.
Proof.
  eexists _, _, _. split; [vm_compute; reflexivity|].
  split; [|split; [reflexivity|split; [reflexivity|split; reflexivity]]].
  apply (run_reachable [Hash "apple" false] table_11 _ [0]).
  - repeat constructor.
  - exact table_11_reachable.
  - vm_compute. reflexivity.
Qed.

(** C8.  With a null key, a null table pointer, or a table that owns no
    slot array, [htab_hash] returns 0 and the table is what it was: the
    result is defined whatever the table holds, so no slot is read. *)
Theorem C8_null_safety :
  (forall (htab : ptr htab_table) (ok : bool),
     htab_hash NULL htab ok = Some (0, htab)) /\
  (forall (key : ptr string) (ok : bool),
     htab_hash key NULL ok = Some (0, NULL)) /\
  (forall (key : ptr string) (c f : Z) (ok : bool),
     htab_hash key (Ptr {| table := NULL; size := c; filled := f |}) ok
       = Some (0, Ptr {| table := NULL; size := c; filled := f |})).
Proof.
  split; [|split].
  - intros [|h] ok; [reflexivity|]. unfold htab_hash. destruct (table h); reflexivity.
  - intros key ok. reflexivity.
  - intros key c f ok. reflexivity.
Qed.

(** C9, at an input where the code departs from it.  The claim has entry 0
    never written.  [htab_create(1, ...)] gives a table of size 1; a call
    for "a" whose [malloc] fails leaves the tag 1 in slot 1; the next call,
    for "b", steps from slot 1 to slot 0, writes the key there, raises
    [filled] to 1 and returns the index 0. *)
Theorem C9_slot_0_written :
  run [Create 1 true; Hash "a" false; Hash "b" true] HTAB_EMPTY =
    Some ([1; 0; 0],
          {| table := Ptr [ {| used := 1; str := Ptr "b" |};
                            {| used := 1; str := NULL |} ];
             size := 1; filled := 1 |}).
Proof. vm_compute. reflexivity. Qed.

(** C10.  [htab_destroy] on a table that owns no slot array changes
    nothing, and so does it on a null pointer.  On a live table it returns
    and leaves [HTAB_EMPTY] (no slot array, size 0, filled 0), on which
    [htab_create] succeeds again when [calloc] does; and a second
    [htab_destroy] changes nothing more. *)
Theorem C10_destroy (h : htab_table) (tbl : list htab_entry) :
  reachable h -> table h = Ptr tbl ->
  htab_destroy (Ptr h) = Some (Ptr HTAB_EMPTY) /\
  htab_destroy (Ptr HTAB_EMPTY) = Some (Ptr HTAB_EMPTY) /\
  (forall nel, is_uint32 nel ->
     exists h' tbl', htab_create nel (Ptr HTAB_EMPTY) true = Some (true, Ptr h') /\
                     table h' = Ptr tbl' /\ filled h' = 0) /\
  (forall t, table t = NULL -> htab_destroy (Ptr t) = Some (Ptr t)) /\
  htab_destroy NULL = Some NULL.
Proof.
  intros Hr Ht. split; [exact (htab_destroy_live h tbl (reachable_live h tbl Hr Ht))|].
  split; [reflexivity|]. split; [|split; [exact htab_destroy_null_table|reflexivity]].
  intros nel Hu.
  destruct (htab_create_ok nel HTAB_EMPTY Hu eq_refl) as (h' & tbl' & E & Hl & Hf & _).
  exists h', tbl'. split; [exact E|]. split; [exact (live_table _ _ Hl)|exact Hf].
Qed.

Lemma C10_destroy_witness :
  htab_destroy (Ptr table_5_lost_slot) = Some (Ptr HTAB_EMPTY) /\
  htab_destroy (Ptr HTAB_EMPTY) = Some (Ptr HTAB_EMPTY) /\
  (forall nel, is_uint32 nel ->
     exists h' tbl', htab_create nel (Ptr HTAB_EMPTY) true = Some (true, Ptr h') /\
                     table h' = Ptr tbl' /\ filled h' = 0) /\
  (forall t, table t = NULL -> htab_destroy (Ptr t) = Some (Ptr t)) /\
  htab_destroy NULL = Some NULL.
Proof.
  apply (C10_destroy table_5_lost_slot
           [ zero_entry;
             {| used := 1; str := Ptr "d" |};
             {| used := 2; str := Ptr "a" |};
             {| used := 3; str := Ptr "b" |};
             {| used := 4; str := NULL |};
             {| used := 1; str := Ptr "e" |} ]).
  - exact table_5_lost_slot_reachable.
  - reflexivity.
Defined.
